(** * IndexZoo: the static k-ary search index ([static_index::KAryIndex])

    A shallow embedding of [src/src/static_index/kary_index.h] and the
    properties of its construction, point lookup, range lookup and rebuild,
    followed by the generator of [src/playground/fast_random.h] and the key
    source [BatchKeys] of the benchmark in [src/src/main.cxx].

    Conventions of the embedding:
    - [int] and [size_t] values are integers in [Z]; every conversion the
      C++ source performs between the two types is written out with
      [to_int] (32-bit two's complement) and [to_size_t] (modulo 2^64);
    - keys ([KeyT], instantiated at [Uint64] by the benchmark) are only
      compared, never computed with, and are integers in [Z];
    - reading [container_] or [inner_nodes_] outside the allocation, or
      reading a cell of [inner_nodes_] that was never written, is undefined
      behaviour and makes the embedded function return [None];
    - recursive member functions carry a [fuel] argument bounding the
      recursion depth; the theorems show that the supplied fuel suffices. *)

From Stdlib Require Import ZArith String Ascii Sorted.
From stdpp Require Import base numbers option list list_numbers.

Local Open Scope Z_scope.

(** ** Machine integers *)

Module MachineInt.

(** Conversion to [int]: reduction modulo 2^32 into [-2^31, 2^31). *)
Definition to_int (z : Z) : Z := (z + 2 ^ 31) `mod` 2 ^ 32 - 2 ^ 31.

(** Conversion to (and arithmetic in) [size_t]: reduction modulo 2^64. *)
Definition to_size_t (z : Z) : Z := z `mod` 2 ^ 64.

Global Arguments to_int : simpl never.
Global Arguments to_size_t : simpl never.

End MachineInt.
Export MachineInt.

(** ** The value store and the sorted snapshot *)

(** [KeyValuePair]: an entry of the snapshot. The type is declared in the
    base class, which is not part of the sources at hand; [kary_index.h]
    reads the fields [key_] and [value_] of the entries, the latter being the
    64-bit handle the value store returned for the tuple. *)
Record KeyValuePair : Type := { key_ : Z; value_ : Z }.

Module Table.

(** Modelled from the spec: the value store ([DataTable], not part of the
    sources at hand) is an append-only sequence of tuples; position in the
    list is insertion order. *)
Definition DataTable : Type := list KeyValuePair.

Definition insert_tuple (t : DataTable) (key value : Z) : DataTable :=
  t ++ [{| key_ := key; value_ := value |}].

Definition size_approx (t : DataTable) : Z := Z.of_nat (length t).

(** Modelled from the spec: the sort behind [project_sorted] is stable, so
    an entry is inserted after every entry whose key is not larger. *)
Fixpoint insert_sorted (e : KeyValuePair) (l : list KeyValuePair) : list KeyValuePair :=
  match l with
  | [] => [e]
  | x :: l' => if key_ e <? key_ x then e :: x :: l' else x :: insert_sorted e l'
  end.

(** Modelled from the spec: [project_sorted] (section 4.2), a key-sorted,
    stable-by-insertion-order sequence covering all tuples of the store. *)
Definition project_sorted (t : DataTable) : list KeyValuePair :=
  fold_left (fun acc e => insert_sorted e acc) t [].

End Table.

(** ** The index object *)

Module KAry.
Import Table.

(** The data members of [KAryIndex] and of its base class that the member
    functions use. [inner_nodes_] is the array allocated by [new KeyT[n]]:
    a cell is [None] until the construction writes it. *)
Record KAryIndex : Type := {
  num_layers_ : Z;
  k_ : Z;
  size_ : Z;
  container_ : list KeyValuePair;
  key_min_ : Z;
  key_max_ : Z;
  inner_nodes_ : list (option Z)
}.

Definition set_inner_nodes (ix : KAryIndex) (nodes : list (option Z)) : KAryIndex :=
  {| num_layers_ := num_layers_ ix; k_ := k_ ix; size_ := size_ ix;
     container_ := container_ ix; key_min_ := key_min_ ix;
     key_max_ := key_max_ ix; inner_nodes_ := nodes |}.

Definition set_key_range (ix : KAryIndex) (kmin kmax : Z) : KAryIndex :=
  {| num_layers_ := num_layers_ ix; k_ := k_ ix; size_ := size_ ix;
     container_ := container_ ix; key_min_ := kmin;
     key_max_ := kmax; inner_nodes_ := inner_nodes_ ix |}.

Definition set_container (ix : KAryIndex) (c : list KeyValuePair) (n : Z) : KAryIndex :=
  {| num_layers_ := num_layers_ ix; k_ := k_ ix; size_ := n;
     container_ := c; key_min_ := key_min_ ix;
     key_max_ := key_max_ ix; inner_nodes_ := inner_nodes_ ix |}.

(** How a member function ends: normally, or at a failed [ASSERT]. *)
Inductive status : Type :=
| Completed
| AssertionFailed (msg : string).

(** Modelled from the spec: the [ASSERT] macro is not part of the sources at
    hand; a failed [ASSERT] stops the operation and reports the message to
    the caller (section 7), the object being left as it is at that point. *)
Definition ASSERT (cond : bool) (msg : string) : status :=
  if cond then Completed else AssertionFailed msg.

(** The constructor: [num_layers_] and [k_] are stored and [k_ >= 2] is
    asserted. Modelled from the spec: the constructor of the base class is not
    part of the sources at hand; the object starts without a snapshot. *)
Definition new_index (num_layers k : Z) : status * KAryIndex :=
  (ASSERT (2 <=? k) "k must be larger than or equal to 2",
   {| num_layers_ := num_layers; k_ := k; size_ := 0; container_ := [];
      key_min_ := 0; key_max_ := 0; inner_nodes_ := [] |}).

(** *** Array accesses *)

(** [container_[idx]] *)
Definition container_at (ix : KAryIndex) (idx : Z) : option KeyValuePair :=
  if bool_decide (0 <= idx) then container_ ix !! Z.to_nat idx else None.

(** [inner_nodes_[idx]] read from the array [nodes] *)
Definition inner_at (nodes : list (option Z)) (idx : Z) : option Z :=
  if bool_decide (0 <= idx) then mjoin (nodes !! Z.to_nat idx) else None.

(** [inner_nodes_[idx] = v] *)
Definition inner_write (nodes : list (option Z)) (idx v : Z) : option (list (option Z)) :=
  if bool_decide (0 <= idx < Z.of_nat (length nodes))
  then Some (<[Z.to_nat idx := Some v]> nodes)
  else None.

(** *** Construction of the inner layers *)

(** The loop [for (i = 0; i < k_ - 1; ++i) inner_nodes_[pos + i] =
    container_[begin_offset + step_offset * (i + 1)].key_], over the values
    [idxs] of [i]. *)
Fixpoint write_pivots (ix : KAryIndex) (begin_offset step_offset pos : Z)
    (idxs : list Z) (nodes : list (option Z)) : option (list (option Z)) :=
  match idxs with
  | [] => Some nodes
  | i :: idxs' =>
      kv ← container_at ix (to_size_t (begin_offset + step_offset * (i + 1)));
      nodes' ← inner_write nodes (to_size_t (pos + i)) (key_ kv);
      write_pivots ix begin_offset step_offset pos idxs' nodes'
  end.

(** A loop whose body is one call that updates the array. *)
Fixpoint for_each (body : Z -> list (option Z) -> option (list (option Z)))
    (idxs : list Z) (nodes : list (option Z)) : option (list (option Z)) :=
  match idxs with
  | [] => Some nodes
  | i :: idxs' => nodes' ← body i nodes; for_each body idxs' nodes'
  end.

Fixpoint construct_inner_layers_internal (fuel : nat) (ix : KAryIndex)
    (begin_offset end_offset base_pos dst_pos curr_layer : Z)
    (nodes : list (option Z)) : option (list (option Z)) :=
  match fuel with
  | O => None
  | S fuel' =>
      if end_offset <? begin_offset then Some nodes
      else
        let k := k_ ix in
        let step_offset := to_size_t (to_int (end_offset - begin_offset)) / k in
        nodes ← write_pivots ix begin_offset step_offset (base_pos + dst_pos)
                  (seqZ 0 (k - 1)) nodes;
        if num_layers_ ix =? to_size_t (curr_layer + 1) then Some nodes
        else
          let new_base_pos := to_size_t ((base_pos + 1) * k - 1) in
          let new_dst_pos := to_size_t (dst_pos * k) in
          let next_layer := to_size_t (curr_layer + 1) in
          nodes ← construct_inner_layers_internal fuel' ix
                    begin_offset (to_int (to_size_t (begin_offset + step_offset - 1)))
                    new_base_pos new_dst_pos next_layer nodes;
          nodes ← for_each (fun i =>
                    construct_inner_layers_internal fuel' ix
                      (to_int (to_size_t (begin_offset + step_offset * i + 1)))
                      (to_int (to_size_t (begin_offset + step_offset * (i + 1) - 1)))
                      new_base_pos (to_size_t (new_dst_pos + i * (k - 1))) next_layer)
                    (seqZ 1 (k - 2)) nodes;
          construct_inner_layers_internal fuel' ix
            (to_int (to_size_t (begin_offset + step_offset * (k - 1) + 1)))
            end_offset
            new_base_pos (to_size_t (new_dst_pos + (k - 1) * (k - 1))) next_layer nodes
  end.

(** [construct_inner_layers], run on the freshly allocated array [nodes].
    The [ASSERT (num_layers_ != 0)] holds at its only call site. *)
Definition construct_inner_layers (ix : KAryIndex) (nodes : list (option Z))
    : option (list (option Z)) :=
  let k := k_ ix in
  let begin_offset := 0 in
  let end_offset := to_size_t (size_ ix - 1) in
  let step_offset := to_size_t (end_offset - begin_offset) / k in
  nodes ← write_pivots ix begin_offset step_offset 0 (seqZ 0 (k - 1)) nodes;
  if num_layers_ ix =? 1 then Some nodes
  else
    let base_pos := to_size_t (k - 1) in
    let next_layer := 1 in
    let fuel := Z.to_nat (num_layers_ ix) in
    nodes ← construct_inner_layers_internal fuel ix
              (to_int begin_offset) (to_int (to_size_t (begin_offset + step_offset - 1)))
              base_pos 0 next_layer nodes;
    nodes ← for_each (fun i =>
              construct_inner_layers_internal fuel ix
                (to_int (to_size_t (begin_offset + step_offset * i + 1)))
                (to_int (to_size_t (begin_offset + step_offset * (i + 1) - 1)))
                base_pos (to_size_t (i * (k - 1))) next_layer)
              (seqZ 1 (k - 2)) nodes;
    construct_inner_layers_internal fuel ix
      (to_int (to_size_t (begin_offset + step_offset * (k - 1) + 1)))
      (to_int end_offset)
      base_pos (to_size_t ((k - 1) * (k - 1))) next_layer nodes.

(** *** Rebuild *)

(** Modelled from the spec: [base_reorganize] belongs to the base class,
    which is not part of the sources at hand. [reorganize] reads
    [this->size_] and [this->container_] right after the call, so the call
    stores the sorted projection of the table (section 4.2) and its length
    in these two members. *)
Definition base_reorganize (t : DataTable) (ix : KAryIndex) : KAryIndex :=
  let c := project_sorted t in
  set_container ix c (Z.of_nat (length c)).

(** [std::pow(k_, num_layers_) - 1], which the source computes in [double]
    and converts to [size_t]; the embedding takes the exact integer.  The
    two agree for [k_ >= 1] and [k_^num_layers_ <= 2^53], where every
    value of the computation is an integer that [double] represents; the
    properties of [reorganize] are stated within this range (beyond it the
    [double] value is rounded, and from [2^64] on its conversion to
    [size_t] is undefined). *)
Definition inner_node_size (ix : KAryIndex) : Z :=
  k_ ix ^ num_layers_ ix - 1.

Definition reorganize (t : DataTable) (ix : KAryIndex) : option (status * KAryIndex) :=
  let ix := base_reorganize t ix in
  match ASSERT (inner_node_size ix <? size_ ix) "exceed maximum layers" with
  | AssertionFailed msg => Some (AssertionFailed msg, ix)
  | Completed =>
      first ← container_at ix 0;
      last ← container_at ix (to_size_t (size_ ix - 1));
      let ix := set_key_range ix (key_ first) (key_ last) in
      if negb (num_layers_ ix =? 0) then
        let inner_size := inner_node_size ix in
        nodes ← construct_inner_layers ix (replicate (Z.to_nat inner_size) None);
        Some (Completed, set_inner_nodes ix nodes)
      else Some (Completed, set_inner_nodes ix [])
  end.

(** *** Point lookup *)

(** Binary search over the snapshot positions [offset_begin .. offset_end];
    the answer [size_] means that the key was not found. *)
Fixpoint find_internal (fuel : nat) (ix : KAryIndex)
    (key offset_begin offset_end : Z) : option Z :=
  match fuel with
  | O => None
  | S fuel' =>
      if offset_end <? offset_begin then Some (size_ ix)
      else
        let offset_lookup := to_int (offset_begin + offset_end) `quot` 2 in
        kv ← container_at ix offset_lookup;
        let key_lookup := key_ kv in
        if key =? key_lookup then Some (to_size_t offset_lookup)
        else if key_lookup <? key
             then find_internal fuel' ix key (to_int (offset_lookup + 1)) offset_end
             else find_internal fuel' ix key offset_begin (to_int (offset_lookup - 1))
  end.

(** The loops [for (...; i < k_ - 1; ++i) if (test(inner_nodes_[pos + i]))
    return ...]: the first [i] of [idxs] whose pivot passes the test, if
    there is one. *)
Fixpoint first_pivot (test : Z -> bool) (nodes : list (option Z)) (pos : Z)
    (idxs : list Z) : option (option Z) :=
  match idxs with
  | [] => Some None
  | i :: idxs' =>
      pivot ← inner_at nodes (to_size_t (pos + i));
      if test pivot then Some (Some i) else first_pivot test nodes pos idxs'
  end.

(** [if (key == inner_nodes_[pos + i])] *)
Definition first_equal (ix : KAryIndex) (key pos : Z) (idxs : list Z) : option (option Z) :=
  first_pivot (Z.eqb key) (inner_nodes_ ix) pos idxs.

(** [if (key < inner_nodes_[pos + i])] *)
Definition first_above (ix : KAryIndex) (key pos : Z) (idxs : list Z) : option (option Z) :=
  first_pivot (Z.ltb key) (inner_nodes_ ix) pos idxs.

Fixpoint find_inner_layers_internal (fuel : nat) (ix : KAryIndex)
    (key begin_offset end_offset base_pos dst_pos curr_layer : Z) : option (Z * Z) :=
  if num_layers_ ix =? curr_layer then Some (begin_offset, end_offset)
  else
    match fuel with
    | O => None
    | S fuel' =>
        let k := k_ ix in
        let step_offset := to_size_t (to_int (end_offset - begin_offset)) / k in
        hit ← first_equal ix key (base_pos + dst_pos) (seqZ 0 (k - 1));
        match hit with
        | Some i =>
            let p := to_int (to_size_t (begin_offset + step_offset * (i + 1))) in
            Some (p, p)
        | None =>
            let new_base_pos := to_size_t ((base_pos + 1) * k - 1) in
            let new_dst_pos := to_size_t (dst_pos * k) in
            let next_layer := to_size_t (curr_layer + 1) in
            pivot ← inner_at (inner_nodes_ ix) (to_size_t (base_pos + dst_pos));
            if key <? pivot then
              find_inner_layers_internal fuel' ix key
                begin_offset (to_int (to_size_t (begin_offset + step_offset - 1)))
                new_base_pos new_dst_pos next_layer
            else
              above ← first_above ix key (base_pos + dst_pos) (seqZ 1 (k - 2));
              match above with
              | Some i =>
                  find_inner_layers_internal fuel' ix key
                    (to_int (to_size_t (begin_offset + step_offset * i + 1)))
                    (to_int (to_size_t (begin_offset + step_offset * (i + 1) - 1)))
                    new_base_pos (to_size_t (new_dst_pos + i * (k - 1))) next_layer
              | None =>
                  find_inner_layers_internal fuel' ix key
                    (to_int (to_size_t (begin_offset + step_offset * (k - 1) + 1)))
                    end_offset
                    new_base_pos (to_size_t (new_dst_pos + (k - 1) * (k - 1))) next_layer
              end
        end
    end.

Definition find_inner_layers (ix : KAryIndex) (key : Z) : option (Z * Z) :=
  if num_layers_ ix =? 0 then Some (0, to_int (size_ ix))
  else
    let k := k_ ix in
    let begin_offset := 0 in
    let end_offset := to_int (to_size_t (size_ ix - 1)) in
    let step_offset := to_size_t (to_int (end_offset - begin_offset)) / k in
    hit ← first_equal ix key 0 (seqZ 0 (k - 1));
    match hit with
    | Some i =>
        let p := to_int (to_size_t (begin_offset + step_offset * (i + 1))) in
        Some (p, p)
    | None =>
        let base_pos := to_size_t (k - 1) in
        let next_layer := 1 in
        let fuel := Z.to_nat (num_layers_ ix) in
        pivot ← inner_at (inner_nodes_ ix) 0;
        if key <? pivot then
          find_inner_layers_internal fuel ix key
            begin_offset (to_int (to_size_t (begin_offset + step_offset - 1)))
            base_pos 0 next_layer
        else
          above ← first_above ix key 0 (seqZ 1 (k - 2));
          match above with
          | Some i =>
              find_inner_layers_internal fuel ix key
                (to_int (to_size_t (begin_offset + step_offset * i + 1)))
                (to_int (to_size_t (begin_offset + step_offset * (i + 1) - 1)))
                base_pos (to_size_t (i * (k - 1))) next_layer
          | None =>
              find_inner_layers_internal fuel ix key
                (to_int (to_size_t (begin_offset + step_offset * (k - 1) + 1)))
                end_offset
                base_pos (to_size_t ((k - 1) * (k - 1))) next_layer
          end
    end.

(** The loop [for (i = 0; i < size_; ++i) values.push_back(container_[i].value_)]. *)
Fixpoint push_all (ix : KAryIndex) (idxs : list Z) (values : list Z) : option (list Z) :=
  match idxs with
  | [] => Some values
  | i :: idxs' =>
      kv ← container_at ix i;
      push_all ix idxs' (values ++ [value_ kv])
  end.

(** The loop under [// move left]. *)
Fixpoint move_left (fuel : nat) (ix : KAryIndex) (key offset_find_lhs : Z)
    (values : list Z) : option (list Z) :=
  match fuel with
  | O => None
  | S fuel' =>
      if 0 <=? offset_find_lhs then
        kv ← container_at ix offset_find_lhs;
        if key_ kv =? key
        then move_left fuel' ix key (to_int (offset_find_lhs - 1)) (values ++ [value_ kv])
        else Some values
      else Some values
  end.

(** The loop under [// move right]; the comparison with [size_ - 1] is
    made in [size_t]. *)
Fixpoint move_right (fuel : nat) (ix : KAryIndex) (key offset_find_rhs : Z)
    (values : list Z) : option (list Z) :=
  match fuel with
  | O => None
  | S fuel' =>
      if to_size_t offset_find_rhs <=? to_size_t (size_ ix - 1) then
        kv ← container_at ix offset_find_rhs;
        if key_ kv =? key
        then move_right fuel' ix key (to_int (offset_find_rhs + 1)) (values ++ [value_ kv])
        else Some values
      else Some values
  end.

(** [find(key, values)]: the result is the content of [values] afterwards. *)
Definition find (ix : KAryIndex) (key : Z) (values : list Z) : option (list Z) :=
  if size_ ix =? 0 then Some values
  else if (key_max_ ix <? key) || (key <? key_min_ ix) then Some values
  else if key_max_ ix =? key_min_ ix then
    if key_max_ ix =? key
    then push_all ix (seqZ 0 (size_ ix)) values
    else Some values
  else
    let fuel := S (S (Z.to_nat (size_ ix))) in
    offset_range ← find_inner_layers ix key;
    offset_find ←
      (if offset_range.1 =? offset_range.2
       then Some (to_size_t offset_range.1)
       else find_internal fuel ix key offset_range.1 offset_range.2);
    if offset_find =? size_ ix then Some values
    else
      kv ← container_at ix offset_find;
      let values := values ++ [value_ kv] in
      values ← move_left fuel ix key (to_int (to_size_t (offset_find - 1))) values;
      move_right fuel ix key (to_int (to_size_t (offset_find + 1))) values.

(** *** Range lookup *)

(** [find_range(lhs_key, rhs_key, values)]: after the [assert] and the two
    early returns the body of the source is empty. *)
Definition find_range (ix : KAryIndex) (lhs_key rhs_key : Z) (values : list Z)
    : status * list Z :=
  match ASSERT (lhs_key <? rhs_key) "lhs_key < rhs_key" with
  | AssertionFailed msg => (AssertionFailed msg, values)
  | Completed =>
      if size_ ix =? 0 then (Completed, values)
      else if (key_max_ ix <? lhs_key) || (rhs_key <? key_min_ ix) then (Completed, values)
      else (Completed, values)
  end.

End KAry.

(** ** The recursive partition of the specification (section 4.3) *)

Module Partition.

(** Section 4.3 of the specification, written from its text and not from
    the code.  [build(lo, hi, base, slot, depth)] takes
    [step = (hi - lo) / k], assigns [I[base + slot + i] = C[lo + step*(i+1)].key]
    for [i] in [[0, k-1)], returns if [depth + 1 == L], and otherwise
    recurses with [new_base = (base + 1)*k - 1], [new_slot = slot*k] and
    [depth + 1] into the [k] child ranges.  The result lists the
    assignments in the order in which they are made, as pairs of a cell of
    [I] and a position of [C].

    The child ranges have inclusive ends, as section 4.4 lists them: child
    0 is [lo .. lo + step - 1], child [i] is
    [lo + step*i + 1 .. lo + step*(i+1) - 1] and child [k - 1] is
    [lo + step*(k-1) + 1 .. hi]; the sibling group of child [i] starts at
    slot [new_slot + i*(k-1)] (sections 3 and 4.4).  [fuel] bounds the
    depth of the recursion. *)
Fixpoint build (fuel : nat) (k L lo hi base slot depth : Z) : list (Z * Z) :=
  match fuel with
  | O => []
  | S fuel' =>
      let step := (hi - lo) / k in
      let pivots :=
        (fun i => (base + slot + i, lo + step * (i + 1))) <$> seqZ 0 (k - 1) in
      if depth + 1 =? L then pivots
      else
        let new_base := (base + 1) * k - 1 in
        let new_slot := slot * k in
        pivots
        ++ build fuel' k L lo (lo + step - 1) new_base new_slot (depth + 1)
        ++ mjoin ((fun i =>
                     build fuel' k L (lo + step * i + 1) (lo + step * (i + 1) - 1)
                       new_base (new_slot + i * (k - 1)) (depth + 1))
                  <$> seqZ 1 (k - 2))
        ++ build fuel' k L (lo + step * (k - 1) + 1) hi
             new_base (new_slot + (k - 1) * (k - 1)) (depth + 1)
  end.

(** One assignment [I[j] = C[p].key], recorded as the position [p] in cell
    [j] of an array of positions. *)
Definition assign (cells : list (option Z)) (a : Z * Z) : list (option Z) :=
  if bool_decide (0 <= a.1) then <[Z.to_nat a.1 := Some a.2]> cells else cells.

(** The positions behind the [k^L - 1] cells of [I] after the initial call
    [build(0, N - 1, 0, 0, 0)]: cell [j] holds the position [p] of the last
    assignment to [I[j]], or [None] if there is none. *)
Definition positions (k L N : Z) : list (option Z) :=
  foldl assign (replicate (Z.to_nat (k ^ L - 1)) None)
    (build (Z.to_nat L) k L 0 (N - 1) 0 0 0).

(** The position [p] that section 4.3 gives for cell [j]. *)
Definition position (k L N j : Z) : option Z :=
  if bool_decide (0 <= j) then mjoin (positions k L N !! Z.to_nat j) else None.

End Partition.

(** ** The pseudo-random generator ([src/playground/fast_random.h]) *)

Module Random.

(** Arithmetic in [unsigned long] (64 bits), [unsigned int] and [uint32_t]
    (32 bits) and [uint16_t] (16 bits). *)
Definition to_ulong (z : Z) : Z := z `mod` 2 ^ 64.
Definition to_uint (z : Z) : Z := z `mod` 2 ^ 32.
Definition to_uint16 (z : Z) : Z := z `mod` 2 ^ 16.

Global Arguments to_ulong : simpl never.
Global Arguments to_uint : simpl never.
Global Arguments to_uint16 : simpl never.

Record FastRandom := { seed_ : Z }.

Definition multiplier : Z := 0x5DEECE66D.
Definition increment : Z := 0xB.
Definition seed_mask : Z := Z.shiftl 1 48 - 1.

(** [set_seed0]: [seed_ = (seed ^ 0x5DEECE66DL) & ((1L << 48) - 1)]. *)
Definition set_seed0 (seed : Z) : FastRandom :=
  {| seed_ := Z.land (Z.lxor seed multiplier) seed_mask |}.

(** The constructors [FastRandom()] and [FastRandom(seed)]. *)
Definition new_random (seed : Z) : FastRandom := set_seed0 seed.
Definition default_random : FastRandom := new_random 0.

Definition get_seed (r : FastRandom) : Z := seed_ r.
Definition set_seed (seed : Z) : FastRandom := {| seed_ := seed |}.

(** [next(bits)]: the state advances by one step of the linear congruential
    recurrence and its top [bits] bits are returned.  The shift count
    [48 - bits] is computed in [unsigned int]; a count of 64 or more is
    undefined behaviour. *)
Definition next_bits (bits : Z) (r : FastRandom) : option (Z * FastRandom) :=
  let seed := Z.land (to_ulong (to_ulong (seed_ r * multiplier) + increment)) seed_mask in
  let count := to_uint (48 - bits) in
  if bool_decide (count < 64) then Some (Z.shiftr seed count, {| seed_ := seed |})
  else None.

(** [next()]: two draws of 32 bits.  C++ leaves the order of the two calls
    open; the left operand is drawn first here. *)
Definition next (r : FastRandom) : option (Z * FastRandom) :=
  '(hi, r1) ← next_bits 32 r;
  '(lo, r2) ← next_bits 32 r1;
  Some (to_ulong (to_ulong (Z.shiftl hi 32) + lo), r2).

Definition next_u32 (r : FastRandom) : option (Z * FastRandom) :=
  '(x, r1) ← next_bits 32 r; Some (to_uint x, r1).

Definition next_u16 (r : FastRandom) : option (Z * FastRandom) :=
  '(x, r1) ← next_bits 16 r; Some (to_uint16 x, r1).

(** [next_char]: a [char] is represented by its byte, in [0, 256). *)
Definition next_char (r : FastRandom) : option (Z * FastRandom) :=
  '(x, r1) ← next_bits 8 r; Some (x `mod` 256, r1).

(** The array [readables]: 64 characters and the terminating NUL. *)
Definition readables : list ascii :=
  list_ascii_of_string
    "0123456789@ABCDEFGHIJKLMNOPQRSTUVWXYZ_abcdefghijklmnopqrstuvwxyz"
  ++ [Ascii.zero].

(** [next_readable_char]: reading past the array is undefined behaviour. *)
Definition next_readable_char (r : FastRandom) : option (ascii * FastRandom) :=
  '(x, r1) ← next_bits 6 r;
  c ← readables !! Z.to_nat x;
  Some (c, r1).

(** The loop [for (size_t i = 0; i < len; i++) s[i] = draw();] with [n]
    iterations left. *)
Fixpoint fill_string {A} (draw : FastRandom -> option (A * FastRandom))
    (n : nat) (i : nat) (s : list A) (r : FastRandom) : option (list A * FastRandom) :=
  match n with
  | O => Some (s, r)
  | S n =>
      '(c, r1) ← draw r;
      fill_string draw n (S i) (<[i := c]> s) r1
  end.

(** [next_string(len)] and [next_readable_string(len)]: [std::string s(len, 0)]
    is filled from left to right. *)
Definition next_string (len : Z) (r : FastRandom) : option (list Z * FastRandom) :=
  fill_string next_char (Z.to_nat len) 0 (replicate (Z.to_nat len) 0) r.

Definition next_readable_string (len : Z) (r : FastRandom)
    : option (list ascii * FastRandom) :=
  fill_string next_readable_char (Z.to_nat len) 0
    (replicate (Z.to_nat len) Ascii.zero) r.

End Random.

(** ** The key source of the benchmark ([BatchKeys] in [src/src/main.cxx]) *)

Module Keys.
Import Random.

(** The globals [global_curr_key] (an atomic counter) and [global_max_key]. *)
Record Globals := {
  global_curr_key : Z;
  global_max_key : Z
}.

Record BatchKeys := {
  rand_gen_ : FastRandom;
  thread_id_ : Z;
  local_curr_key_ : Z;
  local_max_key_ : Z
}.

Definition batch_key_count_ : Z := Z.shiftl 1 10.

Definition new_batch_keys (thread_id : Z) : BatchKeys :=
  {| rand_gen_ := new_random thread_id;
     thread_id_ := thread_id;
     local_curr_key_ := 0;
     local_max_key_ := 0 |}.

Definition set_global_curr_key (g : Globals) (v : Z) : Globals :=
  {| global_curr_key := v; global_max_key := global_max_key g |}.

Definition set_local_keys (b : BatchKeys) (curr max : Z) : BatchKeys :=
  {| rand_gen_ := rand_gen_ b;
     thread_id_ := thread_id_ b;
     local_curr_key_ := curr;
     local_max_key_ := max |}.

Definition set_rand_gen (b : BatchKeys) (r : FastRandom) : BatchKeys :=
  {| rand_gen_ := r;
     thread_id_ := thread_id_ b;
     local_curr_key_ := local_curr_key_ b;
     local_max_key_ := local_max_key_ b |}.

(** [get_insert_key]: the returned key, the globals and the object after
    the call.  [fetch_add] returns the old value of the counter; the only
    access to shared state is this one atomic operation. *)
Definition get_insert_key (g : Globals) (b : BatchKeys)
    : option (Z * Globals * BatchKeys) :=
  if global_max_key g =? 0 then
    let '(g1, b1) :=
      if local_curr_key_ b =? local_max_key_ b then
        let key := global_curr_key g in
        (set_global_curr_key g (to_ulong (key + batch_key_count_)),
         set_local_keys b key (to_ulong (key + batch_key_count_)))
      else (g, b) in
    let retKey := local_curr_key_ b1 in
    Some (retKey, g1, set_local_keys b1 (to_ulong (retKey + 1)) (local_max_key_ b1))
  else
    '(x, r) ← next (rand_gen_ b);
    Some (x `mod` global_max_key g, g, set_rand_gen b r).

(** [get_random_key]: a remainder by zero is undefined behaviour. *)
Definition get_random_key (g : Globals) (b : BatchKeys) : option (Z * BatchKeys) :=
  if global_max_key g =? 0 then
    '(x, r) ← next (rand_gen_ b);
    if global_curr_key g =? 0 then None
    else Some (x `mod` global_curr_key g, set_rand_gen b r)
  else
    '(x, r) ← next (rand_gen_ b);
    Some (x `mod` global_max_key g, set_rand_gen b r).

(** The loading loop of [run_workload]:
    [for (i = 0; i < init_key_count_; ++i) key = batch_keys.get_insert_key();]
    with the keys in the order they are drawn. *)
Fixpoint load_keys (n : nat) (g : Globals) (b : BatchKeys)
    : option (list Z * Globals * BatchKeys) :=
  match n with
  | O => Some ([], g, b)
  | S n =>
      '(key, g1, b1) ← get_insert_key g b;
      '(keys, g2, b2) ← load_keys n g1 b1;
      Some (key :: keys, g2, b2)
  end.

(** Several [BatchKeys] objects, one per thread, share the globals.  A
    schedule lists the objects in the order of their calls of
    [get_insert_key]; the calls interleave at the atomic [fetch_add]. *)
Fixpoint run_schedule (schedule : list nat) (g : Globals) (bs : list BatchKeys)
    : option (list Z * Globals * list BatchKeys) :=
  match schedule with
  | [] => Some ([], g, bs)
  | i :: schedule =>
      b ← bs !! i;
      '(key, g1, b1) ← get_insert_key g b;
      '(keys, g2, bs2) ← run_schedule schedule g1 (<[i := b1]> bs);
      Some (key :: keys, g2, bs2)
  end.

End Keys.

(** * Properties *)

(** ** Machine integers in range *)

Module MachineIntFacts.

Lemma to_int_id z : - 2 ^ 31 <= z < 2 ^ 31 -> to_int z = z.
Proof.
  intros Hz. unfold to_int.
  rewrite Z.mod_small by lia. lia.
Qed.

Lemma to_size_t_id z : 0 <= z < 2 ^ 64 -> to_size_t z = z.
Proof. intros Hz. unfold to_size_t. apply Z.mod_small. lia. Qed.

(** Converting a [size_t] value to [int] keeps the low 32 bits. *)
Lemma to_int_to_size_t z : to_int (to_size_t z) = to_int z.
Proof.
  unfold to_int, to_size_t.
  rewrite (Z.mod_eq z (2 ^ 64)) by lia.
  replace (z - 2 ^ 64 * (z `div` 2 ^ 64) + 2 ^ 31)
    with (z + 2 ^ 31 + (- (2 ^ 32 * (z `div` 2 ^ 64))) * 2 ^ 32) by lia.
  rewrite Z_mod_plus_full. reflexivity.
Qed.

Lemma to_size_t_nonneg z : 0 <= to_size_t z.
Proof. unfold to_size_t. apply Z.mod_pos_bound. lia. Qed.

End MachineIntFacts.
Import MachineIntFacts.
Import Table KAry.

(** ** The geometry of the implicit tree

    A node of the implicit tree is a range [lo .. hi] of snapshot positions
    together with the place [base + dst] of its [k - 1] pivots in the
    inner-node array. The definitions below are the index computations of
    [construct_inner_layers_internal] and [find_inner_layers_internal]
    without the machine conversions. *)

Module Layout.
Section Geometry.

Variable k : Z.
Hypothesis k_ge_2 : 2 <= k.

Definition step_of (lo hi : Z) : Z := (hi - lo) / k.

(** The position whose key is pivot [i] of the node. *)
Definition pivot_pos (lo hi i : Z) : Z := lo + step_of lo hi * (i + 1).

(** The range of child [c], for [0 <= c < k]. *)
Definition child_lo (lo hi c : Z) : Z :=
if c =? 0 then lo else lo + step_of lo hi * c + 1.

Definition child_hi (lo hi c : Z) : Z :=
if c =? k - 1 then hi else lo + step_of lo hi * (c + 1) - 1.

Definition next_base (base : Z) : Z := (base + 1) * k - 1.

Definition child_dst (dst c : Z) : Z := dst * k + c * (k - 1).

(** The first array position after [r] more layers. *)
Fixpoint iter_base (r : nat) (base : Z) : Z :=
match r with
| O => base
| S r' => iter_base r' (next_base base)
end.

(** The cells that a subtree of [r] layers owns: [width] cells from
  [base + dst] in its first layer, and [k] times as many, [k] times as
  far from the start, in each layer below. *)
Fixpoint foot (r : nat) (base dst width j : Z) : Prop :=
match r with
| O => False
| S r' => base + dst <= j < base + dst + width
          \/ foot r' (next_base base) (dst * k) (width * k) j
end.

(** A range large enough for [r] layers of pivots. *)
Definition roomy (r : nat) (lo hi : Z) : Prop :=
k ^ Z.of_nat r <= hi - lo + 3 /\ (k = 2 -> 2 ^ Z.of_nat r <= hi - lo + 2).

Lemma step_of_bounds lo hi :
lo <= hi -> 0 <= step_of lo hi /\ step_of lo hi * k <= hi - lo < step_of lo hi * k + k.
Proof.
intros Hr. unfold step_of.
pose proof (Z.div_pos (hi - lo) k ltac:(lia) ltac:(lia)).
pose proof (Z.mul_div_le (hi - lo) k ltac:(lia)).
pose proof (Z.mul_succ_div_gt (hi - lo) k ltac:(lia)).
lia.
Qed.

Lemma step_mul_le s c : 0 <= s -> 0 <= c <= k -> 0 <= s * c <= s * k.
Proof. intros Hs Hc. split; [apply Z.mul_nonneg_nonneg | apply Z.mul_le_mono_nonneg_l]; lia. Qed.

Lemma step_mul_mono s c c' : 0 <= s -> c <= c' -> s * c <= s * c'.
Proof. intros Hs Hc. apply Z.mul_le_mono_nonneg_l; lia. Qed.

Lemma pivot_pos_bounds lo hi i :
lo <= hi -> 0 <= i < k - 1 -> lo <= pivot_pos lo hi i <= hi.
Proof.
intros Hr Hi. unfold pivot_pos.
destruct (step_of_bounds lo hi Hr) as [Hs Hk].
pose proof (step_mul_le (step_of lo hi) (i + 1) Hs ltac:(lia)).
lia.
Qed.

Lemma child_bounds lo hi c :
lo <= hi -> 0 <= c < k ->
lo <= child_lo lo hi c /\ child_hi lo hi c <= hi
/\ child_lo lo hi c <= child_hi lo hi c + 2.
Proof.
intros Hr Hc. unfold child_lo, child_hi.
destruct (step_of_bounds lo hi Hr) as [Hs Hk].
pose proof (step_mul_le (step_of lo hi) c Hs ltac:(lia)).
pose proof (step_mul_le (step_of lo hi) (c + 1) Hs ltac:(lia)).
pose proof (step_mul_mono (step_of lo hi) c (c + 1) Hs ltac:(lia)).
destruct (Z.eqb_spec c 0), (Z.eqb_spec c (k - 1)); lia.
Qed.

Lemma pow_k_pos (r : nat) : 1 <= k ^ Z.of_nat r.
Proof. pose proof (Z.pow_pos_nonneg k (Z.of_nat r) ltac:(lia) ltac:(lia)). lia. Qed.

Lemma pow_k_succ (r : nat) : k ^ Z.of_nat (S r) = k * k ^ Z.of_nat r.
Proof. rewrite Nat2Z.inj_succ, Z.pow_succ_r; lia. Qed.

Lemma roomy_nonempty r lo hi : roomy (S r) lo hi -> lo <= hi.
Proof.
intros [H3 H2]. rewrite pow_k_succ in H3.
pose proof (pow_k_pos r) as Hp.
destruct (decide (k = 2)) as [Hk2|Hne].
- specialize (H2 Hk2). rewrite <- Hk2, pow_k_succ, Hk2 in H2. lia.
- assert (3 * 1 <= k * k ^ Z.of_nat r) by (apply Z.mul_le_mono_nonneg; lia). lia.
Qed.

(** With room for [r + 1] layers the pivots are at least [k^r - 1]
  positions apart. *)
Lemma roomy_step r lo hi :
roomy (S r) lo hi -> k ^ Z.of_nat r - 1 <= step_of lo hi.
Proof.
intros Hroom. pose proof (roomy_nonempty _ _ _ Hroom) as Hr.
destruct Hroom as [H3 H2]. rewrite pow_k_succ in H3.
destruct (step_of_bounds lo hi Hr) as [Hs Hk].
pose proof (pow_k_pos r) as Hp.
set (P := k ^ Z.of_nat r) in *. set (s := step_of lo hi) in *.
destruct (decide (P - 1 <= s)) as [|Hlt]; [done|exfalso].
assert (s + 2 <= P) as Hs2 by lia.
assert ((s + 2) * k <= P * k) by (apply Z.mul_le_mono_nonneg_r; lia).
destruct (decide (k = 2)) as [Hk2|Hne].
- specialize (H2 Hk2). rewrite <- Hk2, pow_k_succ in H2. fold P in H2.
  rewrite Hk2 in H, H2, Hk. lia.
- lia.
Qed.

Lemma roomy_child r lo hi c :
roomy (S r) lo hi -> 0 <= c < k ->
roomy r (child_lo lo hi c) (child_hi lo hi c).
Proof.
intros Hroom Hc. pose proof (roomy_nonempty _ _ _ Hroom) as Hr.
pose proof (roomy_step _ _ _ Hroom) as Hstep.
destruct (step_of_bounds lo hi Hr) as [Hs Hk].
pose proof (step_mul_le (step_of lo hi) c Hs ltac:(lia)).
pose proof (step_mul_mono (step_of lo hi) c (k - 1) Hs ltac:(lia)).
unfold roomy, child_lo, child_hi.
set (P := k ^ Z.of_nat r) in *. set (s := step_of lo hi) in *.
split.
- destruct (Z.eqb_spec c 0), (Z.eqb_spec c (k - 1)); lia.
- intros Hk2. rewrite <- Hk2 at 1. fold P.
  assert (c = 0 \/ c = 1) as [-> | ->] by lia.
  + rewrite Z.eqb_refl. destruct (Z.eqb_spec 0 (k - 1)); lia.
  + destruct (Z.eqb_spec 1 0); [lia|]. destruct (Z.eqb_spec 1 (k - 1)); lia.
Qed.

(** *** The cells of a subtree *)

Lemma next_base_ge base : 0 <= base -> base <= next_base base.
Proof. intros Hb. unfold next_base. nia. Qed.

Lemma iter_base_ge r : forall base, 0 <= base -> base <= iter_base r base.
Proof.
induction r as [|r IH]; intros base Hb; simpl; [lia|].
pose proof (next_base_ge base Hb). specialize (IH (next_base base)). lia.
Qed.

Lemma iter_base_succ_ge r base : 0 <= base -> next_base base <= iter_base (S r) base.
Proof.
intros Hb. cbn [iter_base]. apply iter_base_ge.
pose proof (next_base_ge base Hb). lia.
Qed.

Lemma iter_base_pow r : forall base, iter_base r base + 1 = (base + 1) * k ^ Z.of_nat r.
Proof.
induction r as [|r IH]; intros base.
- simpl. lia.
- cbn [iter_base]. rewrite IH, pow_k_succ. unfold next_base. ring.
Qed.

Lemma foot_ge_base r : forall base dst width j,
0 <= base -> 0 <= dst -> foot r base dst width j -> base <= j.
Proof.
induction r as [|r IH]; intros base dst width j Hb Hd; simpl; [tauto|].
intros [Hown | Hdeep]; [lia|].
pose proof (next_base_ge base Hb).
apply IH in Hdeep; [lia | lia | nia].
Qed.

(** A subtree that stays inside its layer stays inside the array. *)
Lemma foot_lt_end r : forall base dst width j,
0 <= base -> 0 <= dst -> dst + width <= (base + 1) * (k - 1) ->
foot r base dst width j -> j < iter_base r base.
Proof.
induction r as [|r IH]; intros base dst width j Hb Hd Hin; simpl; [tauto|].
pose proof (next_base_ge base Hb).
intros [Hown | Hdeep].
- pose proof (iter_base_ge r (next_base base) ltac:(lia)).
  unfold next_base in *. lia.
- assert ((dst + width) * k <= (base + 1) * (k - 1) * k)
    by (apply Z.mul_le_mono_nonneg_r; lia).
  apply IH in Hdeep; [done | lia | nia |].
  unfold next_base. lia.
Qed.

Lemma foot_sub r : forall base dst width off width' j,
0 <= off -> off + width' <= width ->
foot r base (dst + off) width' j -> foot r base dst width j.
Proof.
induction r as [|r IH]; intros base dst width off width' j Hoff Hw; simpl; [tauto|].
intros [Hown | Hdeep]; [left; lia | right].
apply (IH _ _ _ (off * k) (width' * k)); [nia | nia |].
replace (dst * k + off * k) with ((dst + off) * k) by ring. exact Hdeep.
Qed.

(** Two subtrees of the same layer that share a cell overlap in that
  layer already. *)
Lemma foot_overlap r : forall base d1 w1 d2 w2 j,
0 <= base -> 0 <= d1 -> 0 <= d2 ->
d1 + w1 <= (base + 1) * (k - 1) -> d2 + w2 <= (base + 1) * (k - 1) ->
foot r base d1 w1 j -> foot r base d2 w2 j ->
d1 < d2 + w2 /\ d2 < d1 + w1.
Proof.
induction r as [|r IH]; intros base d1 w1 d2 w2 j Hb H1 H2 Hin1 Hin2; simpl; [tauto|].
pose proof (next_base_ge base Hb) as Hnb.
assert (forall d, 0 <= d -> 0 <= d * k) as Hdk by (intros; nia).
intros [Hown1 | Hdeep1] [Hown2 | Hdeep2].
- lia.
- apply foot_ge_base in Hdeep2; [|lia|auto]. unfold next_base in *. lia.
- apply foot_ge_base in Hdeep1; [|lia|auto]. unfold next_base in *. lia.
- assert ((d1 + w1) * k <= (base + 1) * (k - 1) * k) as Hin1'
    by (apply Z.mul_le_mono_nonneg_r; lia).
  assert ((d2 + w2) * k <= (base + 1) * (k - 1) * k) as Hin2'
    by (apply Z.mul_le_mono_nonneg_r; lia).
  destruct (IH (next_base base) (d1 * k) (w1 * k) (d2 * k) (w2 * k) j) as [Ha Hb'];
    [lia | auto | auto | unfold next_base; lia | unfold next_base; lia | done | done |].
  split; apply (Z.mul_lt_mono_pos_r k); lia.
Qed.

(** A block of [m] adjacent subtrees is the union of the subtrees. *)
Lemma foot_split r : forall base dst width m j,
0 < width -> 0 <= m ->
foot r base dst (m * width) j ->
exists c, 0 <= c < m /\ foot r base (dst + c * width) width j.
Proof.
induction r as [|r IH]; intros base dst width m j Hw Hm; simpl; [tauto|].
intros [Hown | Hdeep].
- exists ((j - base - dst) / width).
  pose proof (Z.mul_div_le (j - base - dst) width Hw).
  pose proof (Z.mul_succ_div_gt (j - base - dst) width Hw).
  pose proof (Z.div_pos (j - base - dst) width ltac:(lia) Hw).
  split; [split; [lia|nia] | left; lia].
- replace (m * width * k) with (m * (width * k)) in Hdeep by ring.
  apply IH in Hdeep as (c & Hc & Hfoot); [|nia|lia].
  exists c. split; [done | right].
  replace ((dst + c * width) * k) with (dst * k + c * (width * k)) by ring.
  exact Hfoot.
Qed.

(** The subtree of the root owns the whole array. *)
Lemma foot_cover r : forall base j,
0 <= base -> base <= j < iter_base r base ->
foot r base 0 ((base + 1) * (k - 1)) j.
Proof.
induction r as [|r IH]; intros base j Hb Hj; simpl in *; [lia|].
pose proof (next_base_ge base Hb) as Hnb.
destruct (decide (j < next_base base)) as [Hlt | Hge].
- left. unfold next_base in *. lia.
- right. specialize (IH (next_base base) j ltac:(lia) ltac:(lia)).
  replace ((base + 1) * (k - 1) * k) with ((next_base base + 1) * (k - 1))
    by (unfold next_base; ring).
  exact IH.
Qed.

End Geometry.
End Layout.

(** ** Construction of the inner layers *)

Module Construct.
Import Layout.

(** The pivots of one node are in place. *)
Definition node_ok (ix : KAryIndex) (nodes : list (option Z))
    (lo hi base dst : Z) : Prop :=
  forall i, 0 <= i < k_ ix - 1 ->
    exists kv, container_at ix (pivot_pos (k_ ix) lo hi i) = Some kv
               /\ inner_at nodes (base + dst + i) = Some (key_ kv).

(** The pivots of a subtree of [r] layers are in place. *)
Fixpoint tree_ok (r : nat) (ix : KAryIndex) (nodes : list (option Z))
    (lo hi base dst : Z) : Prop :=
  match r with
  | O => True
  | S r' =>
      node_ok ix nodes lo hi base dst
      /\ forall c, 0 <= c < k_ ix ->
           tree_ok r' ix nodes (child_lo (k_ ix) lo hi c) (child_hi (k_ ix) lo hi c)
             (next_base (k_ ix) base) (child_dst (k_ ix) dst c)
  end.

(** *** Array accesses *)

Lemma container_at_Some ix idx :
  0 <= idx < Z.of_nat (length (container_ ix)) -> is_Some (container_at ix idx).
Proof.
  intros Hidx. unfold container_at.
  rewrite bool_decide_eq_true_2 by lia.
  apply lookup_lt_is_Some. lia.
Qed.

Lemma container_at_range ix idx kv :
  container_at ix idx = Some kv -> 0 <= idx < Z.of_nat (length (container_ ix)).
Proof.
  unfold container_at. case_bool_decide; [|done].
  intros Hl. apply lookup_lt_Some in Hl. lia.
Qed.

Lemma inner_write_spec nodes idx v :
  0 <= idx < Z.of_nat (length nodes) ->
  exists nodes', inner_write nodes idx v = Some nodes'
    /\ length nodes' = length nodes
    /\ inner_at nodes' idx = Some v
    /\ forall j, j <> idx -> inner_at nodes' j = inner_at nodes j.
Proof.
  intros Hidx. unfold inner_write. rewrite bool_decide_eq_true_2 by done.
  eexists. split; [done|]. split; [apply length_insert|]. split.
  - unfold inner_at. rewrite bool_decide_eq_true_2 by lia.
    rewrite list_lookup_insert_eq by lia. done.
  - intros j Hj. unfold inner_at. case_bool_decide; [|done].
    rewrite list_lookup_insert_ne by lia. done.
Qed.

Lemma inner_at_range nodes idx v :
  inner_at nodes idx = Some v -> 0 <= idx < Z.of_nat (length nodes).
Proof.
  unfold inner_at. case_bool_decide; [|done].
  destruct (nodes !! Z.to_nat idx) eqn:Hl; [|done].
  intros _. apply lookup_lt_Some in Hl. lia.
Qed.

(** *** Loops *)

Lemma for_each_app body l1 l2 nodes :
  for_each body (l1 ++ l2) nodes = for_each body l1 nodes ≫= for_each body l2.
Proof.
  revert nodes. induction l1 as [|i l1 IH]; intros nodes; simpl; [done|].
  destruct (body i nodes); simpl; [apply IH | done].
Qed.

Lemma for_each_ext body body' l nodes :
  (forall i nodes, i ∈ l -> body i nodes = body' i nodes) ->
  for_each body l nodes = for_each body' l nodes.
Proof.
  revert nodes. induction l as [|i l IH]; intros nodes Hext; simpl; [done|].
  rewrite Hext by left.
  destruct (body' i nodes); simpl; [|done].
  apply IH. intros. apply Hext. by right.
Qed.

(** A loop over [a, a + 1, ..., a + n - 1] maintains an invariant. *)
Lemma for_each_invariant (Inv : Z -> list (option Z) -> Prop) body n :
  forall a nodes,
  Inv a nodes ->
  (forall c nodes, a <= c < a + Z.of_nat n -> Inv c nodes ->
     exists nodes', body c nodes = Some nodes' /\ Inv (c + 1) nodes') ->
  exists nodes', for_each body (seqZ a (Z.of_nat n)) nodes = Some nodes'
                 /\ Inv (a + Z.of_nat n) nodes'.
Proof.
  induction n as [|n IH]; intros a nodes Hinv Hbody.
  - rewrite seqZ_nil by lia. simpl. exists nodes. by rewrite Z.add_0_r.
  - rewrite seqZ_cons by lia. simpl.
    destruct (Hbody a nodes ltac:(lia) Hinv) as (nodes1 & -> & Hinv1). simpl.
    replace (Z.pred (Z.of_nat (S n))) with (Z.of_nat n) by lia.
    destruct (IH (Z.succ a) nodes1) as (nodes2 & Heq & Hinv2).
    + by replace (Z.succ a) with (a + 1) by lia.
    + intros c nodes' Hc. apply Hbody. lia.
    + exists nodes2. split; [done|].
      by replace (a + Z.of_nat (S n)) with (Z.succ a + Z.of_nat n) by lia.
Qed.

Section Spec.

Variable ix : KAryIndex.
Hypothesis k_ge_2 : 2 <= k_ ix.
Hypothesis size_eq : size_ ix = Z.of_nat (length (container_ ix)).
Hypothesis size_small : size_ ix <= 2 ^ 30.

Local Abbreviation k := (k_ ix).
Local Abbreviation L := (num_layers_ ix).
Local Abbreviation N := (size_ ix).

Lemma write_pivots_spec lo step pos : forall idxs nodes,
  NoDup idxs ->
  Z.of_nat (length nodes) <= 2 ^ 31 ->
  (forall i, i ∈ idxs ->
     0 <= lo + step * (i + 1) < N /\ 0 <= pos + i < Z.of_nat (length nodes)) ->
  exists nodes', write_pivots ix lo step pos idxs nodes = Some nodes'
    /\ length nodes' = length nodes
    /\ (forall j, (forall i, i ∈ idxs -> j <> pos + i) ->
           inner_at nodes' j = inner_at nodes j)
    /\ (forall i, i ∈ idxs ->
           exists kv, container_at ix (lo + step * (i + 1)) = Some kv
                      /\ inner_at nodes' (pos + i) = Some (key_ kv)).
Proof.
  induction idxs as [|i idxs IH]; intros nodes Hnd Hlen Hin; simpl.
  - exists nodes. split; [done|]. split; [done|]. split; [done|].
    intros i Hi. by apply elem_of_nil in Hi.
  - apply NoDup_cons in Hnd as [Hni Hnd].
    destruct (Hin i ltac:(left)) as [Hpos Hcell].
    rewrite (to_size_t_id (lo + step * (i + 1))), (to_size_t_id (pos + i)) by lia.
    destruct (container_at_Some ix (lo + step * (i + 1)) ltac:(lia)) as [kv Hkv].
    rewrite Hkv. simpl.
    destruct (inner_write_spec nodes (pos + i) (key_ kv) Hcell)
      as (nodes1 & -> & Hlen1 & Hat1 & Hframe1). simpl.
    destruct (IH nodes1 Hnd ltac:(lia)) as (nodes2 & -> & Hlen2 & Hframe2 & Hat2).
    { intros i' Hi'. rewrite Hlen1. apply Hin. by right. }
    exists nodes2. split; [done|]. split; [lia|]. split.
    + intros j Hj. rewrite Hframe2, Hframe1; [done | |].
      * apply Hj. left.
      * intros i' Hi'. apply Hj. by right.
    + intros i' [-> | Hi']%elem_of_cons.
      * exists kv. split; [done|]. rewrite Hframe2; [done|].
        intros i' Hi' Heq. assert (i' = i) as -> by lia. done.
      * by apply Hat2.
Qed.

(** The recursive call for child [c] of a node. *)
Definition child_call (fuel : nat) (lo hi base dst layer c : Z)
    (nodes : list (option Z)) : option (list (option Z)) :=
  construct_inner_layers_internal fuel ix
    (child_lo k lo hi c) (child_hi k lo hi c)
    (next_base k base) (child_dst k dst c) (layer + 1) nodes.

Lemma seqZ_children : seqZ 0 k = 0 :: seqZ 1 (k - 2) ++ [k - 1].
Proof.
  rewrite seqZ_cons by lia. f_equal.
  replace (Z.pred k) with ((k - 2) + 1) by lia.
  rewrite seqZ_app by lia.
  replace (Z.succ 0) with 1 by lia. f_equal.
  rewrite seqZ_cons, seqZ_nil by lia. f_equal. lia.
Qed.

(** Within the range of [int], one call of
    [construct_inner_layers_internal] writes the pivots of the node and
    then visits the [k] children from left to right. *)
Lemma construct_inner_layers_internal_unfold fuel lo hi base dst layer nodes :
  0 <= lo -> lo <= hi -> hi < 2 ^ 30 ->
  0 <= base -> 0 <= dst -> 0 <= layer < 2 ^ 30 ->
  (L <> layer + 1 -> (base + 1) * k + dst * k + k * k <= 2 ^ 32) ->
  construct_inner_layers_internal (S fuel) ix lo hi base dst layer nodes =
    write_pivots ix lo (step_of k lo hi) (base + dst) (seqZ 0 (k - 1)) nodes
    ≫= fun nodes1 =>
         if L =? layer + 1 then Some nodes1
         else for_each (child_call fuel lo hi base dst layer) (seqZ 0 k) nodes1.
Proof.
  intros Hlo Hhi Hmax Hbase Hdst Hlayer Hfit.
  cbn [construct_inner_layers_internal].
  rewrite (proj2 (Z.ltb_ge hi lo)) by lia.
  rewrite (to_int_id (hi - lo)), (to_size_t_id (hi - lo)) by lia.
  fold (step_of k lo hi).
  destruct (step_of_bounds k k_ge_2 lo hi Hhi) as [Hs Hsk].
  set (s := step_of k lo hi) in *.
  destruct (write_pivots _ _ _ _ _ _) as [nodes1|]; simpl; [|done].
  rewrite (to_size_t_id (layer + 1)) by lia.
  destruct (Z.eqb_spec L (layer + 1)) as [|Hne]; [done|].
  specialize (Hfit Hne).
  assert (0 <= (base + 1) * k /\ 0 <= dst * k /\ 0 <= k * k) as (Hbk & Hdk & Hkk) by nia.
  assert (0 <= (k - 1) * (k - 1) <= k * k) as Hk1 by nia.
  pose proof (step_mul_le k s (k - 1) Hs ltac:(lia)) as Hsl.
  rewrite (to_size_t_id ((base + 1) * k - 1)), (to_size_t_id (dst * k)) by lia.
  rewrite !to_int_to_size_t.
  rewrite (to_int_id (lo + s - 1)), (to_int_id (lo + s * (k - 1) + 1)) by lia.
  rewrite (to_size_t_id (dst * k + (k - 1) * (k - 1))) by lia.
  assert (forall nodes', child_call fuel lo hi base dst layer 0 nodes' =
            construct_inner_layers_internal fuel ix lo (lo + s - 1)
              ((base + 1) * k - 1) (dst * k) (layer + 1) nodes') as Hfirst.
  { intros nodes'. unfold child_call, child_lo, child_hi, child_dst, next_base.
    rewrite Z.eqb_refl, (proj2 (Z.eqb_neq 0 (k - 1))) by lia.
    fold s. f_equal; lia. }
  assert (forall nodes', child_call fuel lo hi base dst layer (k - 1) nodes' =
            construct_inner_layers_internal fuel ix (lo + s * (k - 1) + 1) hi
              ((base + 1) * k - 1) (dst * k + (k - 1) * (k - 1)) (layer + 1) nodes')
    as Hlast.
  { intros nodes'. unfold child_call, child_lo, child_hi, child_dst, next_base.
    rewrite Z.eqb_refl, (proj2 (Z.eqb_neq (k - 1) 0)) by lia.
    fold s. done. }
  rewrite seqZ_children. cbn [for_each].
  rewrite Hfirst.
  destruct (construct_inner_layers_internal fuel ix lo _ _ _ _ nodes1) as [nodes2|];
    simpl; [|done].
  rewrite for_each_app.
  rewrite (for_each_ext _ (child_call fuel lo hi base dst layer) (seqZ 1 (k - 2))).
  2:{ intros i nodes' [Hi1 Hi2]%elem_of_seqZ.
      pose proof (step_mul_le k s i Hs ltac:(lia)).
      pose proof (step_mul_le k s (i + 1) Hs ltac:(lia)).
      pose proof (step_mul_mono s i (k - 1) Hs ltac:(lia)).
      pose proof (step_mul_mono s (i + 1) (k - 1) Hs ltac:(lia)).
      assert (0 <= i * (k - 1) <= k * k) by nia.
      rewrite !to_int_to_size_t.
      rewrite (to_int_id (lo + s * i + 1)), (to_int_id (lo + s * (i + 1) - 1)) by lia.
      rewrite (to_size_t_id (dst * k + i * (k - 1))) by lia.
      unfold child_call, child_lo, child_hi, child_dst, next_base.
      rewrite (proj2 (Z.eqb_neq i 0)), (proj2 (Z.eqb_neq i (k - 1))) by lia.
      done. }
  destruct (for_each _ (seqZ 1 (k - 2)) nodes2) as [nodes3|]; simpl; [|done].
  rewrite Hlast.
  by destruct (construct_inner_layers_internal _ _ _ _ _ _ _ _).
Qed.

(** [tree_ok] only looks at the cells of the subtree. *)
Lemma tree_ok_frame r : forall nodes nodes' lo hi base dst,
  0 <= base -> 0 <= dst ->
  (forall j, foot k r base dst (k - 1) j -> inner_at nodes' j = inner_at nodes j) ->
  tree_ok r ix nodes lo hi base dst -> tree_ok r ix nodes' lo hi base dst.
Proof.
  induction r as [|r IH]; intros nodes nodes' lo hi base dst Hb Hd Hsame; simpl; [done|].
  intros [Hnode Hkids]. split.
  - intros i Hi. destruct (Hnode i Hi) as (kv & Hkv & Hat).
    exists kv. split; [done|]. rewrite Hsame; [done|]. simpl. left. lia.
  - intros c Hc. apply (IH nodes); [| |  | by apply Hkids].
    + pose proof (next_base_ge k k_ge_2 base Hb). lia.
    + unfold child_dst. nia.
    + intros j Hj. apply Hsame. simpl. right.
      apply (foot_sub k k_ge_2 r _ _ _ (c * (k - 1)) (k - 1)); [nia | nia | done].
Qed.

(** The children of a node own disjoint cells, below the node's own. *)
Lemma child_dst_in_layer base dst c :
  0 <= base -> 0 <= dst -> dst + (k - 1) <= (base + 1) * (k - 1) -> 0 <= c < k ->
  0 <= child_dst k dst c
  /\ child_dst k dst c + (k - 1) <= (next_base k base + 1) * (k - 1).
Proof.
  intros Hb Hd Hin Hc. unfold child_dst, next_base.
  assert ((dst + (k - 1)) * k <= (base + 1) * (k - 1) * k)
    by (apply Z.mul_le_mono_nonneg_r; lia).
  assert (0 <= c * (k - 1) /\ (c + 1) * (k - 1) <= k * (k - 1)) as [? ?].
  { split; [nia|]. apply Z.mul_le_mono_nonneg_r; lia. }
  assert (0 <= dst * k) by nia.
  lia.
Qed.

Lemma child_foot_disjoint r base dst c c' j :
  0 <= base -> 0 <= dst -> dst + (k - 1) <= (base + 1) * (k - 1) ->
  0 <= c < k -> 0 <= c' < k -> c <> c' ->
  foot k r (next_base k base) (child_dst k dst c) (k - 1) j ->
  foot k r (next_base k base) (child_dst k dst c') (k - 1) j -> False.
Proof.
  intros Hb Hd Hin Hc Hc' Hne H1 H2.
  destruct (child_dst_in_layer base dst c Hb Hd Hin Hc) as [Hd1 Hin1].
  destruct (child_dst_in_layer base dst c' Hb Hd Hin Hc') as [Hd2 Hin2].
  assert (0 <= next_base k base) as Hnb
    by (pose proof (next_base_ge k k_ge_2 base Hb); lia).
  destruct (foot_overlap k k_ge_2 r _ _ _ _ _ j Hnb Hd1 Hd2 Hin1 Hin2 H1 H2)
    as [Ha Hb'].
  unfold child_dst in Ha, Hb'.
  assert (c < c' + 1) by (apply (Z.mul_lt_mono_pos_r (k - 1)); lia).
  assert (c' < c + 1) by (apply (Z.mul_lt_mono_pos_r (k - 1)); lia).
  lia.
Qed.

Lemma child_foot_sub r base dst c j :
  0 <= c < k ->
  foot k r (next_base k base) (child_dst k dst c) (k - 1) j ->
  foot k r (next_base k base) (dst * k) ((k - 1) * k) j.
Proof.
  intros Hc. apply (foot_sub k k_ge_2 r _ _ _ (c * (k - 1)) (k - 1)); nia.
Qed.

(** The construction of a subtree of [r + 1] layers over a range with
    enough room succeeds, writes all pivots of the subtree and touches
    no other cell. *)
Lemma construct_inner_layers_internal_spec r :
  forall fuel lo hi base dst layer nodes,
  (r <= fuel)%nat ->
  layer + Z.of_nat (S r) = L -> 0 <= layer -> L < 2 ^ 30 ->
  roomy k (S r) lo hi -> 0 <= lo -> hi < N ->
  0 <= base -> 0 <= dst -> dst + (k - 1) <= (base + 1) * (k - 1) ->
  Z.of_nat (length nodes) = iter_base k (S r) base ->
  Z.of_nat (length nodes) <= 2 ^ 30 ->
  exists nodes',
    construct_inner_layers_internal (S fuel) ix lo hi base dst layer nodes = Some nodes'
    /\ length nodes' = length nodes
    /\ (forall j, ~ foot k (S r) base dst (k - 1) j ->
           inner_at nodes' j = inner_at nodes j)
    /\ tree_ok (S r) ix nodes' lo hi base dst.
Proof.
  induction r as [|r IH];
    intros fuel lo hi base dst layer nodes Hfuel HL Hlayer HLmax Hroom Hlo Hhi
           Hb Hd Hin Hlen Hlenmax.
  all: pose proof (roomy_nonempty k k_ge_2 _ _ _ Hroom) as Hne.
  all: pose proof (next_base_ge k k_ge_2 base Hb) as Hnb.
  all: assert (base + dst + (k - 1) <= next_base k base) as Hown
         by (unfold next_base in *; lia).
  all: assert (next_base k base <= Z.of_nat (length nodes)) as Hcells
         by (rewrite Hlen; by apply (iter_base_succ_ge k k_ge_2)).
  all: destruct (write_pivots_spec lo (step_of k lo hi) (base + dst)
                   (seqZ 0 (k - 1)) nodes)
         as (nodes1 & Hw & Hlen1 & Hframe1 & Hpiv1);
         [ apply NoDup_seqZ | lia
         | intros i [Hi0 Hi1]%elem_of_seqZ;
           pose proof (pivot_pos_bounds k k_ge_2 lo hi i Hne ltac:(lia)) as Hp;
           unfold pivot_pos in Hp; lia
         | ].
  all: assert (node_ok ix nodes1 lo hi base dst) as Hnode1
         by (intros i Hi; destruct (Hpiv1 i) as (kv & Hkv & Hat);
             [ apply elem_of_seqZ; lia
             | exists kv; split; [exact Hkv | exact Hat] ]).
  all: assert (forall j, ~ (base + dst <= j < base + dst + (k - 1)) ->
                 inner_at nodes1 j = inner_at nodes j) as Hout1
         by (intros j Hj; apply Hframe1; intros i [Hi0 Hi1]%elem_of_seqZ; lia).
  - (* the last layer *)
    rewrite construct_inner_layers_internal_unfold; [|lia..].
    rewrite Hw. simpl.
    rewrite (proj2 (Z.eqb_eq L (layer + 1))) by lia.
    exists nodes1. split; [done|]. split; [done|]. split.
    + intros j Hj. apply Hout1. simpl in Hj. tauto.
    + simpl. split; [done|]. done.
  - (* a layer with children *)
    destruct fuel as [|fuel]; [lia|].
    assert (next_base k (next_base k base) <= Z.of_nat (length nodes)) as Hcells2.
    { rewrite Hlen. change (iter_base k (S (S r)) base)
        with (iter_base k (S r) (next_base k base)).
      apply (iter_base_succ_ge k k_ge_2). lia. }
    assert ((base + 1) * k + dst * k + k * k <= 2 ^ 32) as Hfit.
    { assert ((dst + (k - 1)) * k <= (base + 1) * (k - 1) * k)
        by (apply Z.mul_le_mono_nonneg_r; lia).
      unfold next_base in Hcells2. nia. }
    rewrite construct_inner_layers_internal_unfold; [|lia..].
    rewrite Hw. simpl.
    rewrite (proj2 (Z.eqb_neq L (layer + 1))) by lia.
    set (Inv := fun (c : Z) (nd : list (option Z)) =>
      length nd = length nodes
      /\ (forall j, ~ foot k (S (S r)) base dst (k - 1) j ->
             inner_at nd j = inner_at nodes j)
      /\ node_ok ix nd lo hi base dst
      /\ (forall c', 0 <= c' < c ->
             tree_ok (S r) ix nd (child_lo k lo hi c') (child_hi k lo hi c')
               (next_base k base) (child_dst k dst c'))).
    destruct (for_each_invariant Inv (child_call (S fuel) lo hi base dst layer)
                (Z.to_nat k) 0 nodes1) as (nodes2 & Hrun & Hinv2).
    { (* the invariant holds before the first child *)
      split; [done|]. split; [|split; [done|intros c' Hc'; lia]].
      intros j Hj. apply Hout1. intros Hown'. apply Hj. by left. }
    { (* each child keeps it *)
      intros c nd Hc (Hlenc & Hframec & Hnodec & Hkidsc).
      rewrite Z2Nat.id in Hc by lia.
      destruct (child_bounds k k_ge_2 lo hi c Hne ltac:(lia)) as (Hclo & Hchi & _).
      destruct (child_dst_in_layer base dst c Hb Hd Hin ltac:(lia)) as [Hcd Hcin].
      destruct (IH fuel (child_lo k lo hi c) (child_hi k lo hi c)
                  (next_base k base) (child_dst k dst c) (layer + 1) nd)
        as (nd' & Hcall & Hlen' & Hframe' & Htree');
        [ lia | lia | lia | lia | apply (roomy_child k k_ge_2); [done|lia]
        | lia | lia | lia | done | done | by rewrite Hlenc, Hlen | lia | ].
      exists nd'. split; [exact Hcall|].
      assert (forall j, foot k (S r) (next_base k base) (child_dst k dst c) (k - 1) j ->
                foot k (S (S r)) base dst (k - 1) j) as Hsub.
      { intros j Hj. right. by apply (child_foot_sub _ _ _ c). }
      split; [lia|]. split; [|split].
      - intros j Hj. rewrite Hframe', Hframec; [done | done |].
        intros Hj'. apply Hj. by apply Hsub.
      - intros i Hi. destruct (Hnodec i Hi) as (kv & Hkv & Hat).
        exists kv. split; [done|]. rewrite Hframe'; [done|].
        intros Hj. apply (foot_ge_base k k_ge_2) in Hj; lia.
      - intros c' Hc'. destruct (decide (c' = c)) as [->|Hcc]; [done|].
        apply (tree_ok_frame (S r) nd); [lia | | | apply Hkidsc; lia].
        + apply (child_dst_in_layer base dst c'); [done..|lia].
        + intros j Hj. apply Hframe'. intros Hj'.
          apply (child_foot_disjoint (S r) base dst c c' j); [done..|lia|lia|done|done|done]. }
    rewrite Z2Nat.id in Hrun, Hinv2 by lia.
    destruct Hinv2 as (Hlen2 & Hframe2 & Hnode2 & Hkids2).
    exists nodes2. split; [exact Hrun|]. split; [lia|]. split; [done|].
    split; [done|]. intros c Hc. apply Hkids2. lia.
Qed.

(** [construct_inner_layers] treats the root like any other node. *)
Lemma construct_inner_layers_root nodes :
  1 <= N -> 0 <= L < 2 ^ 30 -> (L <> 1 -> k * k <= 2 ^ 31) ->
  construct_inner_layers ix nodes =
  construct_inner_layers_internal (S (Z.to_nat L)) ix 0 (N - 1) 0 0 0 nodes.
Proof.
  intros HN HL Hkk.
  rewrite construct_inner_layers_internal_unfold; [|try lia..].
  2:{ intros Hne. assert (k <= k * k) by nia. lia. }
  unfold construct_inner_layers.
  rewrite (to_size_t_id (N - 1)) by lia.
  rewrite Z.sub_0_r, (to_size_t_id (N - 1)) by lia.
  destruct (step_of_bounds k k_ge_2 0 (N - 1) ltac:(lia)) as [Hs Hsk].
  replace ((N - 1) `div` k) with (step_of k 0 (N - 1))
    by (unfold step_of; f_equal; lia).
  set (s := step_of k 0 (N - 1)) in *.
  change (0 + 0) with 0. change (0 + 1) with 1.
  destruct (write_pivots _ _ _ _ _ _) as [nodes1|]; simpl; [|done].
  destruct (Z.eqb_spec L 1) as [|Hne]; [done|].
  specialize (Hkk Hne).
  assert (0 <= (k - 1) * (k - 1) <= k * k) as Hk1 by nia.
  pose proof (step_mul_le k s (k - 1) Hs ltac:(lia)) as Hsl.
  rewrite !to_int_to_size_t.
  rewrite (to_int_id 0), (to_int_id (N - 1)), (to_int_id (0 + s - 1)),
    (to_int_id (0 + s * (k - 1) + 1)) by lia.
  rewrite (to_size_t_id (k - 1)), (to_size_t_id ((k - 1) * (k - 1))) by lia.
  assert (forall nodes', child_call (Z.to_nat L) 0 (N - 1) 0 0 0 0 nodes' =
            construct_inner_layers_internal (Z.to_nat L) ix 0 (0 + s - 1)
              (k - 1) 0 1 nodes') as Hfirst.
  { intros nodes'. unfold child_call, child_lo, child_hi, child_dst, next_base.
    rewrite Z.eqb_refl, (proj2 (Z.eqb_neq 0 (k - 1))) by lia.
    fold s. f_equal; lia. }
  assert (forall nodes', child_call (Z.to_nat L) 0 (N - 1) 0 0 0 (k - 1) nodes' =
            construct_inner_layers_internal (Z.to_nat L) ix (0 + s * (k - 1) + 1) (N - 1)
              (k - 1) ((k - 1) * (k - 1)) 1 nodes') as Hlast.
  { intros nodes'. unfold child_call, child_lo, child_hi, child_dst, next_base.
    rewrite Z.eqb_refl, (proj2 (Z.eqb_neq (k - 1) 0)) by lia.
    fold s. f_equal; lia. }
  rewrite seqZ_children. cbn [for_each].
  rewrite Hfirst.
  destruct (construct_inner_layers_internal _ ix 0 _ _ _ _ nodes1) as [nodes2|];
    simpl; [|done].
  rewrite for_each_app.
  rewrite (for_each_ext _ (child_call (Z.to_nat L) 0 (N - 1) 0 0 0) (seqZ 1 (k - 2))).
  2:{ intros i nodes' [Hi1 Hi2]%elem_of_seqZ.
      pose proof (step_mul_le k s i Hs ltac:(lia)).
      pose proof (step_mul_le k s (i + 1) Hs ltac:(lia)).
      pose proof (step_mul_mono s i (k - 1) Hs ltac:(lia)).
      pose proof (step_mul_mono s (i + 1) (k - 1) Hs ltac:(lia)).
      assert (0 <= i * (k - 1) <= k * k) by nia.
      rewrite !to_int_to_size_t.
      rewrite (to_int_id (0 + s * i + 1)), (to_int_id (0 + s * (i + 1) - 1)) by lia.
      rewrite (to_size_t_id (i * (k - 1))) by lia.
      unfold child_call, child_lo, child_hi, child_dst, next_base.
      rewrite (proj2 (Z.eqb_neq i 0)), (proj2 (Z.eqb_neq i (k - 1))) by lia.
      fold s. f_equal; lia. }
  destruct (for_each _ (seqZ 1 (k - 2)) nodes2) as [nodes3|]; simpl; [|done].
  rewrite Hlast.
  by destruct (construct_inner_layers_internal _ _ _ _ _ _ _ _).
Qed.

Lemma layers_small : 0 <= L -> k ^ L <= 2 ^ 30 -> L <= 30.
Proof.
  intros HL Hpow.
  destruct (decide (L <= 30)) as [|Hbig]; [done|exfalso].
  pose proof (Z.pow_le_mono_l 2 k L ltac:(lia)).
  pose proof (Z.pow_le_mono_r 2 31 L ltac:(lia) ltac:(lia)).
  change (2 ^ 31) with 2147483648 in *. change (2 ^ 30) with 1073741824 in *. lia.
Qed.

Lemma square_le_pow : 2 <= L -> k * k <= k ^ L.
Proof.
  intros HL. pose proof (Z.pow_le_mono_r k 2 L ltac:(lia) HL).
  replace (k * k) with (k ^ 2) by lia. done.
Qed.

(** The construction run by [reorganize]: with [k^L - 1 < N] it
    succeeds and puts every pivot of the tree in place. *)
Lemma construct_inner_layers_spec nodes :
  1 <= L -> k ^ L - 1 < N ->
  Z.of_nat (length nodes) = k ^ L - 1 ->
  exists nodes',
    construct_inner_layers ix nodes = Some nodes'
    /\ length nodes' = length nodes
    /\ tree_ok (Z.to_nat L) ix nodes' 0 (N - 1) 0 0.
Proof.
  intros HL Hfit Hlen.
  pose proof (layers_small ltac:(lia) ltac:(lia)) as HL30.
  assert (2 <= k ^ L) as Hpow2.
  { pose proof (Z.pow_le_mono_r k 1 L ltac:(lia) ltac:(lia)) as Hp.
    rewrite Z.pow_1_r in Hp. lia. }
  rewrite construct_inner_layers_root; [|lia|lia|].
  2:{ intros Hne. pose proof (square_le_pow ltac:(lia)). lia. }
  destruct (Z.to_nat L) as [|r] eqn:Hr; [lia|].
  assert (Z.of_nat (S r) = L) as HSr by lia.
  destruct (construct_inner_layers_internal_spec r (S r) 0 (N - 1) 0 0 0 nodes)
    as (nodes' & Hrun & Hlen' & _ & Htree); try lia.
  - split.
    + rewrite HSr. lia.
    + intros Hk2. rewrite HSr. rewrite Hk2 in Hfit. lia.
  - rewrite Hlen. pose proof (iter_base_pow k (S r) 0) as Hp.
    rewrite HSr in Hp. lia.
  - exists nodes'. done.
Qed.

(** Every cell of a subtree is the pivot cell of one node of the
    subtree, whose snapshot position does not depend on the keys. *)
Lemma tree_covers r : forall lo hi base dst j,
  foot k r base dst (k - 1) j ->
  exists p, forall ix' nodes,
    k_ ix' = k -> tree_ok r ix' nodes lo hi base dst ->
    exists kv, container_at ix' p = Some kv /\ inner_at nodes j = Some (key_ kv).
Proof.
  induction r as [|r IH]; intros lo hi base dst j; simpl; [tauto|].
  intros [Hown | Hdeep].
  - exists (pivot_pos k lo hi (j - (base + dst))).
    intros ix' nodes Hk' [Hnode _].
    destruct (Hnode (j - (base + dst))) as (kv & Hkv & Hat); [lia|].
    exists kv. rewrite Hk' in Hkv. split; [done|].
    by replace (base + dst + (j - (base + dst))) with j in Hat by lia.
  - replace ((k - 1) * k) with (k * (k - 1)) in Hdeep by lia.
    apply (foot_split k k_ge_2 r _ (dst * k) (k - 1) k j) in Hdeep
      as (c & Hc & Hfoot); [|lia..].
    destruct (IH (child_lo k lo hi c) (child_hi k lo hi c)
                (next_base k base) (child_dst k dst c) j Hfoot) as (p & Hp).
    exists p. intros ix' nodes Hk' [_ Hkids].
    apply Hp; [done|]. specialize (Hkids c). rewrite Hk' in Hkids. by apply Hkids.
Qed.

End Spec.

End Construct.

(** ** Point lookup *)

Module Lookup.
Import Layout Construct.

(** The scan of the pivots of a node. *)
Lemma first_pivot_spec test nodes pos (pk : Z -> Z) n : forall a,
  (forall i, a <= i < a + Z.of_nat n ->
     inner_at nodes (to_size_t (pos + i)) = Some (pk i)) ->
  match first_pivot test nodes pos (seqZ a (Z.of_nat n)) with
  | Some (Some c) =>
      a <= c < a + Z.of_nat n /\ test (pk c) = true
      /\ forall i, a <= i < c -> test (pk i) = false
  | Some None => forall i, a <= i < a + Z.of_nat n -> test (pk i) = false
  | None => False
  end.
Proof.
  induction n as [|n IH]; intros a Hcells.
  - rewrite seqZ_nil by lia. simpl. intros i Hi. lia.
  - rewrite seqZ_cons by lia. simpl.
    rewrite (Hcells a) by lia. simpl.
    destruct (test (pk a)) eqn:Htest.
    + split; [lia|]. split; [done|]. intros i Hi. lia.
    + replace (Z.pred (Z.of_nat (S n))) with (Z.of_nat n) by lia.
      specialize (IH (Z.succ a)).
      destruct (first_pivot test nodes pos (seqZ (Z.succ a) (Z.of_nat n)))
        as [[c|]|].
      * destruct IH as (Hc & Hpass & Hfail); [intros i Hi; apply Hcells; lia|].
        split; [lia|]. split; [done|].
        intros i Hi. destruct (decide (i = a)) as [->|]; [done|]. apply Hfail. lia.
      * intros i Hi. destruct (decide (i = a)) as [->|]; [done|].
        apply IH; [intros i' Hi'; apply Hcells; lia | lia].
      * apply IH. intros i Hi. apply Hcells. lia.
Qed.

(** The values at the snapshot positions [a], [a + 1], ..., [b - 1]. *)
Definition slice_values (ix : KAryIndex) (a b : Z) : list Z :=
  omap (fun q => value_ <$> container_at ix q) (seqZ a (b - a)).

Lemma slice_values_empty ix a b : b <= a -> slice_values ix a b = [].
Proof. intros Hab. unfold slice_values. by rewrite seqZ_nil by lia. Qed.

Lemma slice_values_first ix a b kv :
  a < b -> container_at ix a = Some kv ->
  slice_values ix a b = value_ kv :: slice_values ix (a + 1) b.
Proof.
  intros Hab Hkv. unfold slice_values.
  rewrite seqZ_cons by lia. simpl. rewrite Hkv. simpl.
  replace (Z.succ a) with (a + 1) by lia.
  by replace (Z.pred (b - a)) with (b - (a + 1)) by lia.
Qed.

Lemma slice_values_last ix a b kv :
  a <= b -> container_at ix b = Some kv ->
  slice_values ix a (b + 1) = slice_values ix a b ++ [value_ kv].
Proof.
  intros Hab Hkv. unfold slice_values.
  replace (b + 1 - a) with ((b - a) + 1) by lia.
  rewrite seqZ_app by lia. rewrite omap_app. f_equal.
  replace (a + (b - a)) with b by lia.
  rewrite seqZ_cons, seqZ_nil by lia. simpl. by rewrite Hkv.
Qed.


Section Spec.

Variable ix : KAryIndex.
Hypothesis k_ge_2 : 2 <= k_ ix.
Hypothesis k_small : k_ ix <= 2 ^ 30.
Hypothesis size_eq : size_ ix = Z.of_nat (length (container_ ix)).
Hypothesis size_small : size_ ix <= 2 ^ 30.
Hypothesis nodes_small : Z.of_nat (length (inner_nodes_ ix)) <= 2 ^ 30.
Hypothesis sorted : forall i j kvi kvj,
  i <= j -> container_at ix i = Some kvi -> container_at ix j = Some kvj ->
  key_ kvi <= key_ kvj.

Local Abbreviation k := (k_ ix).
Local Abbreviation L := (num_layers_ ix).
Local Abbreviation N := (size_ ix).

(** Every position left of [lo] holds a smaller key and every position
    right of [hi] a larger one: the key can only be in [lo .. hi]. *)
Definition localised (key lo hi : Z) : Prop :=
  (forall q kv, container_at ix q = Some kv -> q < lo -> key_ kv < key)
  /\ (forall q kv, container_at ix q = Some kv -> hi < q -> key < key_ kv).

(** The key at position [p] is [key]. *)
Definition key_at (p key : Z) : Prop :=
  exists kv, container_at ix p = Some kv /\ key_ kv = key.

(** What the descent returns: the position of a pivot equal to the key,
    or a leaf range that confines the key. *)
Definition descent_result (key a b : Z) : Prop :=
  (a = b /\ key_at a key)
  \/ (0 <= a /\ b < N /\ a <= b + 1 /\ localised key a b).

Lemma container_at_in_range p :
  0 <= p < N -> exists kv, container_at ix p = Some kv.
Proof. intros Hp. apply container_at_Some. lia. Qed.

Lemma size_t_product_small x y :
  0 <= x <= 2 ^ 30 + 1 -> 0 <= y <= 2 ^ 30 -> 0 <= x * y <= 2 ^ 61.
Proof.
  intros Hx Hy. split; [nia|].
  pose proof (Z.mul_le_mono_nonneg x (2 ^ 30 + 1) y (2 ^ 30) ltac:(lia) ltac:(lia)
                ltac:(lia) ltac:(lia)) as Hm.
  change ((2 ^ 30 + 1) * 2 ^ 30) with 1152921505680588800 in Hm.
  change (2 ^ 61) with 2305843009213693952. lia.
Qed.

(** The descent through a subtree of [r] layers whose pivots are in
    place ends at a pivot equal to the key or at a leaf range that
    confines the key. *)
Lemma find_inner_layers_internal_spec key r :
  forall fuel lo hi base dst layer,
  (r <= fuel)%nat ->
  layer + Z.of_nat r = L -> 0 <= layer -> L < 2 ^ 30 ->
  (r <> 0%nat -> roomy k r lo hi /\ 0 <= base /\ 0 <= dst) ->
  0 <= lo -> hi < N -> lo <= hi + 1 ->
  tree_ok r ix (inner_nodes_ ix) lo hi base dst ->
  localised key lo hi ->
  exists a b,
    find_inner_layers_internal fuel ix key lo hi base dst layer = Some (a, b)
    /\ descent_result key a b.
Proof.
  induction r as [|r IH];
    intros fuel lo hi base dst layer Hfuel HL Hlayer HLmax Hroom Hlo Hhi Hle Htree Hloc.
  - exists lo, hi. split.
    + destruct fuel; simpl; by rewrite (proj2 (Z.eqb_eq L layer)) by lia.
    + right. done.
  - destruct fuel as [|fuel]; [lia|].
    destruct (Hroom ltac:(done)) as (Hroomy & Hb & Hd). clear Hroom.
    pose proof (roomy_nonempty k k_ge_2 _ _ _ Hroomy) as Hne.
    destruct (step_of_bounds k k_ge_2 lo hi Hne) as [Hs Hsk].
    destruct Htree as [Hnode Hkids]. destruct Hloc as [Hleft Hright].
    (* the pivots of the node *)
    set (pk := fun i => match container_at ix (pivot_pos k lo hi i) with
                        | Some kv => key_ kv | None => 0 end).
    assert (forall i, 0 <= i < k - 1 ->
              exists kv, container_at ix (pivot_pos k lo hi i) = Some kv
                /\ key_ kv = pk i
                /\ inner_at (inner_nodes_ ix) (base + dst + i) = Some (pk i)) as Hpk.
    { intros i Hi. destruct (Hnode i Hi) as (kv & Hkv & Hat).
      exists kv. unfold pk. rewrite Hkv. done. }
    assert (forall i q kv, 0 <= i < k - 1 -> container_at ix q = Some kv ->
              (q <= pivot_pos k lo hi i -> key_ kv <= pk i)
              /\ (pivot_pos k lo hi i <= q -> pk i <= key_ kv)) as Hord.
    { intros i q kv Hi Hq. destruct (Hpk i Hi) as (kvp & Hkvp & <- & _).
      split; intros Hqp; [apply (sorted q (pivot_pos k lo hi i)) |
                          apply (sorted (pivot_pos k lo hi i) q)]; done. }
    assert (0 <= base + dst + (k - 1) <= 2 ^ 30) as Hcell.
    { destruct (Hpk (k - 2) ltac:(lia)) as (_ & _ & _ & Hat).
      apply inner_at_range in Hat. lia. }
    assert (forall i, 0 <= i < 0 + Z.of_nat (Z.to_nat (k - 1)) ->
              inner_at (inner_nodes_ ix) (to_size_t (base + dst + i)) = Some (pk i))
      as Hcells.
    { intros i Hi. rewrite to_size_t_id by lia.
      destruct (Hpk i ltac:(lia)) as (_ & _ & _ & Hat). done. }
    (* the recursive calls *)
    assert (forall c lo' hi', 0 <= c < k ->
              lo' = child_lo k lo hi c -> hi' = child_hi k lo hi c ->
              lo' <= hi' + 1 -> localised key lo' hi' ->
              exists a b,
                find_inner_layers_internal fuel ix key lo' hi'
                  ((base + 1) * k - 1) (dst * k + c * (k - 1)) (layer + 1) = Some (a, b)
                /\ descent_result key a b) as Hdescend.
    { intros c lo' hi' Hc -> -> Hle' Hloc'.
      destruct (child_bounds k k_ge_2 lo hi c Hne Hc) as (Hclo & Hchi & _).
      apply IH; [lia|lia|lia|lia| |lia|lia|done| |done].
      - intros Hr. split; [|nia].
        destruct r as [|r]; [done|]. by apply (roomy_child k k_ge_2).
      - by apply Hkids. }
    cbn [find_inner_layers_internal].
    rewrite (proj2 (Z.eqb_neq L layer)) by lia.
    rewrite (to_int_id (hi - lo)), (to_size_t_id (hi - lo)) by lia.
    fold (step_of k lo hi). set (s := step_of k lo hi) in *.
    pose proof (step_mul_le k s (k - 1) Hs ltac:(lia)) as Hsl.
    pose proof (size_t_product_small (base + 1) k ltac:(lia) ltac:(lia)) as Hbk.
    pose proof (size_t_product_small dst k ltac:(lia) ltac:(lia)) as Hdk.
    pose proof (size_t_product_small (k - 1) (k - 1) ltac:(lia) ltac:(lia)) as Hkk.
    change (2 ^ 61) with 2305843009213693952 in *.
    rewrite (to_size_t_id ((base + 1) * k - 1)), (to_size_t_id (dst * k)),
      (to_size_t_id (layer + 1)), (to_size_t_id (dst * k + (k - 1) * (k - 1))) by lia.
    rewrite !to_int_to_size_t.
    rewrite (to_int_id (lo + s - 1)), (to_int_id (lo + s * (k - 1) + 1)) by lia.
    unfold first_equal, first_above.
    pose proof (first_pivot_spec (Z.eqb key) (inner_nodes_ ix) (base + dst) pk
                  (Z.to_nat (k - 1)) 0 Hcells) as Heq.
    rewrite Z2Nat.id in Heq by lia.
    destruct (first_pivot (Z.eqb key) _ _ (seqZ 0 (k - 1))) as [[c|]|]; [| |done].
    + (* the key is pivot [c] *)
      destruct Heq as (Hc & Hhit%Z.eqb_eq & _). simpl.
      pose proof (pivot_pos_bounds k k_ge_2 lo hi c Hne ltac:(lia)) as Hp.
      unfold pivot_pos in Hp. fold s in Hp.
      rewrite to_int_to_size_t, (to_int_id (lo + s * (c + 1))) by lia.
      eexists _, _. split; [done|]. left. split; [done|].
      destruct (Hpk c ltac:(lia)) as (kv & Hkv & Hkey & _).
      exists kv. split; [exact Hkv | lia].
    + (* no pivot is the key *)
      simpl.
      assert (forall i, 0 <= i < k - 1 -> pk i <> key) as Hmiss.
      { intros i Hi. specialize (Heq i ltac:(lia)). apply Z.eqb_neq in Heq. lia. }
      rewrite (to_size_t_id (base + dst)) by lia.
      destruct (Hpk 0 ltac:(lia)) as (kv0 & Hkv0 & Hkey0 & Hat0).
      rewrite Z.add_0_r in Hat0. rewrite Hat0. simpl.
      destruct (Z.ltb_spec key (pk 0)) as [Hlt0 | Hge0].
      * (* leftmost child *)
        replace (dst * k) with (dst * k + 0 * (k - 1)) by lia.
        apply (Hdescend 0); [lia| | |lia|].
        -- unfold child_lo. by rewrite Z.eqb_refl.
        -- unfold child_hi. rewrite (proj2 (Z.eqb_neq 0 (k - 1))) by lia.
           fold s. lia.
        -- split; [done|]. intros q kv Hq Hgt.
           destruct (Hord 0 q kv ltac:(lia) Hq) as [_ Hup].
           unfold pivot_pos in Hup. fold s in Hup. specialize (Hup ltac:(lia)). lia.
      * assert (forall i, 1 <= i < 1 + Z.of_nat (Z.to_nat (k - 2)) ->
                  inner_at (inner_nodes_ ix) (to_size_t (base + dst + i)) = Some (pk i))
          as Hcells'.
        { intros i Hi. apply Hcells. lia. }
        pose proof (first_pivot_spec (Z.ltb key) (inner_nodes_ ix) (base + dst) pk
                      (Z.to_nat (k - 2)) 1 Hcells') as Habove.
        rewrite Z2Nat.id in Habove by lia.
        destruct (first_pivot (Z.ltb key) _ _ (seqZ 1 (k - 2))) as [[c|]|]; [| |done].
        -- (* a middle child *)
           destruct Habove as (Hc & Hlt%Z.ltb_lt & Hbelow). simpl.
           assert (pk (c - 1) < key) as Hprev.
           { pose proof (Hmiss (c - 1) ltac:(lia)) as Hm.
             destruct (decide (c = 1)) as [Hc1|Hc1].
             - replace (c - 1) with 0 in * by lia. lia.
             - specialize (Hbelow (c - 1) ltac:(lia)). apply Z.ltb_ge in Hbelow. lia. }
           assert (1 <= s) as Hs1.
           { destruct (decide (s = 0)) as [Hs0|]; [exfalso|lia].
             assert (pk (c - 1) = pk c); [|lia].
             unfold pk, pivot_pos. fold s. by rewrite Hs0, !Z.mul_0_l. }
           pose proof (step_mul_le k s c Hs ltac:(lia)).
           pose proof (step_mul_le k s (c + 1) Hs ltac:(lia)).
           pose proof (step_mul_mono s c (k - 1) Hs ltac:(lia)).
           pose proof (step_mul_mono s (c + 1) (k - 1) Hs ltac:(lia)).
           pose proof (size_t_product_small c (k - 1) ltac:(lia) ltac:(lia)).
           rewrite !to_int_to_size_t.
           rewrite (to_int_id (lo + s * c + 1)), (to_int_id (lo + s * (c + 1) - 1)),
             (to_size_t_id (dst * k + c * (k - 1))) by lia.
           apply (Hdescend c); [lia| | |lia|].
           ++ unfold child_lo. by rewrite (proj2 (Z.eqb_neq c 0)) by lia.
           ++ unfold child_hi. by rewrite (proj2 (Z.eqb_neq c (k - 1))) by lia.
           ++ split; intros q kv Hq Hcmp.
              ** destruct (Hord (c - 1) q kv ltac:(lia) Hq) as [Hdown _].
                 unfold pivot_pos in Hdown. fold s in Hdown.
                 replace (c - 1 + 1) with c in Hdown by lia.
                 specialize (Hdown ltac:(lia)). lia.
              ** destruct (Hord c q kv ltac:(lia) Hq) as [_ Hup].
                 unfold pivot_pos in Hup. fold s in Hup.
                 specialize (Hup ltac:(lia)). lia.
        -- (* rightmost child *)
           simpl.
           assert (pk (k - 2) < key) as Hprev.
           { pose proof (Hmiss (k - 2) ltac:(lia)).
             destruct (decide (k = 2)) as [Hk2|Hk2].
             - replace (k - 2) with 0 in * by lia. lia.
             - specialize (Habove (k - 2) ltac:(lia)). apply Z.ltb_ge in Habove. lia. }
           apply (Hdescend (k - 1)); [lia| | |lia|].
           ++ unfold child_lo. by rewrite (proj2 (Z.eqb_neq (k - 1) 0)) by lia.
           ++ unfold child_hi. by rewrite Z.eqb_refl.
           ++ split; [|done]. intros q kv Hq Hcmp.
              destruct (Hord (k - 2) q kv ltac:(lia) Hq) as [Hdown _].
              unfold pivot_pos in Hdown. fold s in Hdown.
              replace (k - 2 + 1) with (k - 1) in Hdown by lia.
              specialize (Hdown ltac:(lia)). lia.
Qed.

(** [find_inner_layers] treats the root like any other node. *)
Lemma find_inner_layers_root key :
  1 <= N -> 1 <= L < 2 ^ 30 ->
  find_inner_layers ix key =
  find_inner_layers_internal (S (Z.to_nat L)) ix key 0 (N - 1) 0 0 0.
Proof.
  intros HN HL. unfold find_inner_layers. cbn [find_inner_layers_internal].
  rewrite (proj2 (Z.eqb_neq L 0)) by lia.
  rewrite to_int_to_size_t, (to_int_id (N - 1)) by lia.
  rewrite Z.sub_0_r, (to_int_id (N - 1)), (to_size_t_id (N - 1)) by lia.
  change (0 + 0) with 0. change (0 * k) with 0. change (0 + 1) with 1.
  rewrite (to_size_t_id 0), (to_size_t_id 1) by lia.
  replace ((0 + 1) * k - 1) with (k - 1) by lia.
  destruct (first_equal ix key 0 (seqZ 0 (k - 1))) as [[c|]|]; simpl; [done| |done].
  destruct (inner_at (inner_nodes_ ix) 0) as [pivot|]; simpl; [|done].
  replace (1 * k - 1) with (k - 1) by lia.
  destruct (key <? pivot); [done|].
  destruct (first_above ix key 0 (seqZ 1 (k - 2))) as [[c|]|]; simpl; done.
Qed.

(** *** Binary search *)

Lemma find_internal_spec key kmax :
  1 <= N -> key_at (N - 1) kmax -> key <= kmax ->
  forall fuel a b,
  (Z.to_nat (b - a + 1) < fuel)%nat ->
  0 <= a -> b <= N -> localised key a b ->
  exists r, find_internal fuel ix key a b = Some r
    /\ ((r = N /\ forall p, ~ key_at p key) \/ (0 <= r < N /\ key_at r key)).
Proof.
  intros HN (kvmax & Hkvmax & Hkmax) Hle.
  induction fuel as [|fuel IH]; intros a b Hfuel Ha Hb [Hleft Hright]; [lia|].
  cbn [find_internal].
  destruct (Z.ltb_spec b a) as [Hempty | Hrange].
  - exists N. split; [done|]. left. split; [done|].
    intros p (kv & Hkv & Hkey).
    destruct (decide (p < a)) as [Hp|Hp].
    + specialize (Hleft p kv Hkv Hp). lia.
    + specialize (Hright p kv Hkv ltac:(lia)). lia.
  - assert (a < N) as HaN.
    { destruct (decide (a < N)); [done|exfalso].
      specialize (Hleft (N - 1) kvmax Hkvmax ltac:(lia)). lia. }
    rewrite (to_int_id (a + b)) by lia.
    rewrite Z.quot_div_nonneg by lia.
    pose proof (Z.mul_div_le (a + b) 2 ltac:(lia)).
    pose proof (Z.mul_succ_div_gt (a + b) 2 ltac:(lia)).
    set (mid := (a + b) `div` 2) in *.
    destruct (container_at_in_range mid ltac:(lia)) as [kv Hkv].
    rewrite Hkv. simpl.
    destruct (Z.eqb_spec key (key_ kv)) as [Heq | Hneq].
    + exists mid. rewrite to_size_t_id by lia. split; [done|]. right.
      split; [lia|]. by exists kv.
    + destruct (Z.ltb_spec (key_ kv) key) as [Hlt | Hge].
      * rewrite (to_int_id (mid + 1)) by lia.
        apply IH; [lia | lia | lia |]. split; [|done].
        intros q kvq Hq Hcmp.
        pose proof (sorted q mid kvq kv ltac:(lia) Hq Hkv). lia.
      * rewrite (to_int_id (mid - 1)) by lia.
        apply IH; [lia | lia | lia |]. split; [done|].
        intros q kvq Hq Hcmp.
        pose proof (sorted mid q kv kvq ltac:(lia) Hkv Hq). lia.
Qed.

(** *** The scan of the neighbours *)

Lemma move_left_run key a : forall fuel q values,
  (Z.to_nat (q - a + 1) < fuel)%nat ->
  0 <= a <= q + 1 -> q < N ->
  (forall p, a <= p <= q -> key_at p key) ->
  (a = 0 \/ ~ key_at (a - 1) key) ->
  move_left fuel ix key q values = Some (values ++ reverse (slice_values ix a (q + 1))).
Proof.
  induction fuel as [|fuel IH]; intros q values Hfuel Ha Hq Hrun Hstop; [lia|].
  cbn [move_left].
  destruct (Z.leb_spec 0 q) as [Hq0 | Hq0].
  - destruct (container_at_in_range q ltac:(lia)) as [kv Hkv].
    rewrite Hkv. simpl.
    destruct (decide (a <= q)) as [Hin | Hout].
    + destruct (Hrun q ltac:(lia)) as (kv' & Hkv' & Hkey).
      assert (kv' = kv) as -> by congruence.
      rewrite (proj2 (Z.eqb_eq _ _) Hkey).
      rewrite (to_int_id (q - 1)) by lia.
      rewrite (IH (q - 1)); [|lia|lia|lia|intros p Hp; apply Hrun; lia|done].
      replace (q - 1 + 1) with q by lia.
      rewrite (slice_values_last ix a q kv) by (done || lia).
      rewrite reverse_app. simpl. by rewrite <- app_assoc.
    + destruct Hstop as [Hzero | Hstop]; [lia|].
      replace (a - 1) with q in Hstop by lia.
      destruct (Z.eqb_spec (key_ kv) key) as [Heq | Hneq].
      * exfalso. apply Hstop. by exists kv.
      * rewrite slice_values_empty by lia. simpl. by rewrite app_nil_r.
  - rewrite slice_values_empty by lia. simpl. by rewrite app_nil_r.
Qed.

Lemma move_right_run key b : forall fuel q values,
  (Z.to_nat (b - q + 1) < fuel)%nat ->
  0 <= q <= b + 1 -> b < N -> 1 <= N ->
  (forall p, q <= p <= b -> key_at p key) ->
  (b = N - 1 \/ ~ key_at (b + 1) key) ->
  move_right fuel ix key q values = Some (values ++ slice_values ix q (b + 1)).
Proof.
  induction fuel as [|fuel IH]; intros q values Hfuel Hqb Hb HN Hrun Hstop; [lia|].
  cbn [move_right].
  rewrite (to_size_t_id q), (to_size_t_id (N - 1)) by lia.
  destruct (Z.leb_spec q (N - 1)) as [Hq | Hq].
  - destruct (container_at_in_range q ltac:(lia)) as [kv Hkv].
    rewrite Hkv. simpl.
    destruct (decide (q <= b)) as [Hin | Hout].
    + destruct (Hrun q ltac:(lia)) as (kv' & Hkv' & Hkey).
      assert (kv' = kv) as -> by congruence.
      rewrite (proj2 (Z.eqb_eq _ _) Hkey).
      rewrite (to_int_id (q + 1)) by lia.
      rewrite (IH (q + 1)); [|lia|lia|lia|lia|intros p Hp; apply Hrun; lia|done].
      rewrite (slice_values_first ix q (b + 1) kv) by (done || lia).
      by rewrite <- app_assoc.
    + destruct Hstop as [Hlast | Hstop]; [lia|].
      replace (b + 1) with q in Hstop by lia.
      destruct (Z.eqb_spec (key_ kv) key) as [Heq | Hneq].
      * exfalso. apply Hstop. by exists kv.
      * rewrite slice_values_empty by lia. by rewrite app_nil_r.
  - rewrite slice_values_empty by lia. by rewrite app_nil_r.
Qed.

Lemma move_left_total key : forall fuel q values,
  (Z.to_nat (q + 1) < fuel)%nat -> -1 <= q < N ->
  is_Some (move_left fuel ix key q values).
Proof.
  induction fuel as [|fuel IH]; intros q values Hfuel Hq; [lia|].
  cbn [move_left].
  destruct (Z.leb_spec 0 q) as [Hq0 | Hq0]; [|done].
  destruct (container_at_in_range q ltac:(lia)) as [kv Hkv].
  rewrite Hkv. simpl.
  destruct (key_ kv =? key); [|done].
  rewrite (to_int_id (q - 1)) by lia. apply IH; lia.
Qed.

Lemma move_right_total key : forall fuel q values,
  (Z.to_nat (N - q) < fuel)%nat -> 0 <= q <= N -> 1 <= N ->
  is_Some (move_right fuel ix key q values).
Proof.
  induction fuel as [|fuel IH]; intros q values Hfuel Hq HN; [lia|].
  cbn [move_right].
  rewrite (to_size_t_id q), (to_size_t_id (N - 1)) by lia.
  destruct (Z.leb_spec q (N - 1)) as [Hq0 | Hq0]; [|done].
  destruct (container_at_in_range q ltac:(lia)) as [kv Hkv].
  rewrite Hkv. simpl.
  destruct (key_ kv =? key); [|done].
  rewrite (to_int_id (q + 1)) by lia. apply IH; lia.
Qed.

Lemma push_all_spec n : forall a values,
  0 <= a -> a + Z.of_nat n <= N ->
  push_all ix (seqZ a (Z.of_nat n)) values
  = Some (values ++ slice_values ix a (a + Z.of_nat n)).
Proof.
  induction n as [|n IH]; intros a values Ha Hn.
  - rewrite seqZ_nil by lia. rewrite slice_values_empty by lia.
    simpl. by rewrite app_nil_r.
  - rewrite seqZ_cons by lia. simpl.
    destruct (container_at_in_range a ltac:(lia)) as [kv Hkv].
    rewrite Hkv. simpl.
    replace (Z.pred (Z.of_nat (S n))) with (Z.of_nat n) by lia.
    rewrite IH by lia.
    rewrite (slice_values_first ix a _ kv) by (done || lia).
    rewrite <- app_assoc. simpl.
    replace (Z.succ a) with (a + 1) by lia.
    by replace (a + 1 + Z.of_nat n) with (a + Z.of_nat (S n)) by lia.
Qed.

End Spec.

End Lookup.

(** ** The index after a rebuild *)

Module Index.
Import Layout Construct Lookup.

(** The state that [reorganize] establishes: the snapshot is sorted and
    holds more entries than there are inner nodes, the key range is that
    of the snapshot, and the inner nodes are what the construction makes
    of the snapshot. Positions fit the [int] variables of the source with
    room for the sum in the binary search. *)
Record index_ok (ix : KAryIndex) : Prop := {
  ok_k : 2 <= k_ ix;
  ok_layers : 0 <= num_layers_ ix;
  ok_size : size_ ix = Z.of_nat (length (container_ ix));
  ok_fits : inner_node_size ix < size_ ix;
  ok_small : size_ ix <= 2 ^ 30;
  ok_sorted : forall i j kvi kvj,
    i <= j -> container_at ix i = Some kvi -> container_at ix j = Some kvj ->
    key_ kvi <= key_ kvj;
  ok_min : key_at ix 0 (key_min_ ix);
  ok_max : key_at ix (size_ ix - 1) (key_max_ ix);
  ok_inner : num_layers_ ix <> 0 ->
    construct_inner_layers ix (replicate (Z.to_nat (inner_node_size ix)) None)
    = Some (inner_nodes_ ix)
}.

Section Facts.

Variable ix : KAryIndex.
Hypothesis Hok : index_ok ix.

Local Abbreviation k := (k_ ix).
Local Abbreviation L := (num_layers_ ix).
Local Abbreviation N := (size_ ix).

Lemma pow_layers_pos : 1 <= k ^ L.
Proof.
  destruct Hok.
  pose proof (Z.pow_pos_nonneg k L ltac:(lia) ltac:(lia)). lia.
Qed.

Lemma size_pos : 1 <= N.
Proof. pose proof pow_layers_pos. destruct Hok. unfold inner_node_size in *. lia. Qed.

Lemma layers_le_30 : L <= 30.
Proof.
  destruct Hok. unfold inner_node_size in *.
  apply (layers_small ix); lia.
Qed.

Lemma fanout_small : 1 <= L -> k <= 2 ^ 30.
Proof.
  intros HL. destruct Hok. unfold inner_node_size in *.
  pose proof (Z.pow_le_mono_r k 1 L ltac:(lia) ltac:(lia)) as Hp.
  rewrite Z.pow_1_r in Hp. lia.
Qed.

Lemma inner_nodes_ok :
  1 <= L ->
  Z.of_nat (length (inner_nodes_ ix)) = inner_node_size ix
  /\ tree_ok (Z.to_nat L) ix (inner_nodes_ ix) 0 (N - 1) 0 0.
Proof.
  intros HL. pose proof pow_layers_pos as Hpow. destruct Hok.
  unfold inner_node_size in *.
  destruct (construct_inner_layers_spec ix ok_k0 ok_size0 ok_small0
              (replicate (Z.to_nat (k ^ L - 1)) None))
    as (nodes & Hrun & Hlen & Htree); [lia | lia | |].
  { rewrite length_replicate. lia. }
  rewrite ok_inner0 in Hrun by lia. injection Hrun as <-.
  split; [|done]. rewrite Hlen, length_replicate. lia.
Qed.

Lemma root_localised key : localised ix key 0 N.
Proof.
  destruct Hok. split; intros q kv Hq Hcmp; apply container_at_range in Hq; lia.
Qed.

Lemma root_localised' key : localised ix key 0 (N - 1).
Proof.
  destruct Hok. split; intros q kv Hq Hcmp; apply container_at_range in Hq; lia.
Qed.

(** The descent of [find] succeeds; it yields the whole snapshot (and one
    position more) without inner layers, and otherwise a pivot position
    or a leaf range. *)
Lemma find_inner_layers_ok key :
  exists a b, find_inner_layers ix key = Some (a, b)
    /\ ((L = 0 /\ a = 0 /\ b = N) \/ (1 <= L /\ descent_result ix key a b)).
Proof.
  pose proof size_pos as HN. pose proof layers_le_30 as HL30.
  destruct (decide (L = 0)) as [HL0 | HL0].
  - exists 0, N. unfold find_inner_layers.
    rewrite (proj2 (Z.eqb_eq L 0)) by done.
    destruct Hok. rewrite to_int_id by lia. split; [done|]. left. done.
  - assert (1 <= L) as HL by (destruct Hok; lia).
    destruct (inner_nodes_ok HL) as [Hlen Htree].
    pose proof (fanout_small HL) as Hk.
    pose proof pow_layers_pos as Hpow.
    destruct Hok. unfold inner_node_size in *.
    rewrite (find_inner_layers_root ix ok_small0); [|lia|lia].
    destruct (find_inner_layers_internal_spec ix ok_k0 Hk ok_size0 ok_small0
                ltac:(lia) ok_sorted0 key (Z.to_nat L) (S (Z.to_nat L))
                0 (N - 1) 0 0 0) as (a & b & Hrun & Hres);
      [lia | lia | lia | lia | | lia | lia | lia | done | apply root_localised' |].
    + intros _. split; [|lia]. split.
      * rewrite Z2Nat.id by lia. lia.
      * intros Hk2. rewrite Z2Nat.id by lia. rewrite Hk2 in ok_fits0. lia.
    + exists a, b. split; [done|]. right. done.
Qed.

(** What [find] does once the anchor position is known. *)
Lemma find_unfold key values :
  key_min_ ix <= key <= key_max_ ix -> key_max_ ix <> key_min_ ix ->
  find ix key values =
    offset_range ← find_inner_layers ix key;
    offset_find ←
      (if offset_range.1 =? offset_range.2
       then Some (to_size_t offset_range.1)
       else find_internal (S (S (Z.to_nat N))) ix key offset_range.1 offset_range.2);
    if offset_find =? N then Some values
    else
      kv ← container_at ix offset_find;
      values ← move_left (S (S (Z.to_nat N))) ix key
                 (to_int (to_size_t (offset_find - 1))) (values ++ [value_ kv]);
      move_right (S (S (Z.to_nat N))) ix key (to_int (to_size_t (offset_find + 1))) values.
Proof.
  intros Hrange Hne. pose proof size_pos as HN. unfold find.
  rewrite (proj2 (Z.eqb_neq N 0)) by lia.
  rewrite (proj2 (Z.ltb_ge (key_max_ ix) key)), (proj2 (Z.ltb_ge key (key_min_ ix))) by lia.
  simpl. by rewrite (proj2 (Z.eqb_neq (key_max_ ix) (key_min_ ix))) by done.
Qed.

(** The anchor: the descent and the binary search of [find] end at a
    position of the snapshot, or at [size_] for "not found". *)
Lemma find_anchor key :
  key_min_ ix <= key <= key_max_ ix ->
  exists a b r,
    find_inner_layers ix key = Some (a, b)
    /\ (if a =? b then Some (to_size_t a)
        else find_internal (S (S (Z.to_nat N))) ix key a b) = Some r
    /\ (r = N /\ (forall p, ~ key_at ix p key)
        \/ 0 <= r < N /\ ((forall p, key_at ix p key -> p = r) \/ key_at ix r key)).
Proof.
  intros Hrange. pose proof size_pos as HN.
  destruct (find_inner_layers_ok key) as (a & b & Hrun & Hres).
  exists a, b. destruct Hok.
  assert (forall a b, 0 <= a -> b <= N -> a <> b -> localised ix key a b ->
            exists r, (if a =? b then Some (to_size_t a)
                       else find_internal (S (S (Z.to_nat N))) ix key a b) = Some r
              /\ (r = N /\ (forall p, ~ key_at ix p key)
                  \/ 0 <= r < N /\ ((forall p, key_at ix p key -> p = r)
                                    \/ key_at ix r key))) as Hsearch.
  { intros a' b' Ha' Hb' Hne Hloc.
    rewrite (proj2 (Z.eqb_neq a' b')) by done.
    destruct (find_internal_spec ix ok_size0 ok_small0 ok_sorted0 key (key_max_ ix)
                HN ok_max0 ltac:(lia) (S (S (Z.to_nat N))) a' b')
      as (r & Hr & Hcase); [lia | lia | lia | done |].
    exists r. split; [done|]. destruct Hcase as [?|[? ?]]; [by left | right; eauto]. }
  destruct Hres as [(HL0 & -> & ->) | (HL & [(-> & Hkey) | (Ha & Hb & Hab & Hloc)])].
  - destruct (Hsearch 0 N) as (r & Hr & Hcase);
      [lia | lia | lia | apply root_localised |]. by exists r.
  - rewrite Z.eqb_refl. exists b.
    destruct Hkey as (kv & Hkv & Hkey).
    pose proof (container_at_range _ _ _ Hkv) as Hb.
    rewrite to_size_t_id by lia. split; [done|]. split; [done|].
    right. split; [lia|]. right. by exists kv.
  - destruct (decide (a = b)) as [->|Hne].
    + rewrite Z.eqb_refl. exists b. rewrite to_size_t_id by lia.
      split; [done|]. split; [done|]. right. split; [lia|]. left.
      intros p (kv & Hkv & Hkey). destruct Hloc as [Hleft Hright].
      destruct (decide (p < b)) as [Hp|Hp]; [specialize (Hleft p kv Hkv Hp); lia|].
      destruct (decide (b < p)) as [Hp'|Hp']; [specialize (Hright p kv Hkv Hp'); lia|].
      lia.
    + destruct (Hsearch a b) as (r & Hr & Hcase); [lia | lia | done | done |].
      by exists r.
Qed.

(** [find] never leaves the arrays. *)
Lemma find_total key values : is_Some (find ix key values).
Proof.
  pose proof size_pos as HN.
  destruct (decide (key_min_ ix <= key <= key_max_ ix)) as [Hrange | Hout].
  2:{ unfold find. rewrite (proj2 (Z.eqb_neq N 0)) by lia.
      destruct (Z.ltb_spec (key_max_ ix) key), (Z.ltb_spec key (key_min_ ix));
        simpl; try done. lia. }
  destruct (decide (key_max_ ix = key_min_ ix)) as [Heq | Hne].
  { unfold find. rewrite (proj2 (Z.eqb_neq N 0)) by lia.
    rewrite (proj2 (Z.ltb_ge (key_max_ ix) key)), (proj2 (Z.ltb_ge key (key_min_ ix)))
      by lia. simpl.
    rewrite (proj2 (Z.eqb_eq _ _) Heq).
    destruct (key_max_ ix =? key); [|done].
    rewrite <- (Z2Nat.id N) at 1 by lia. destruct Hok.
    rewrite push_all_spec; [done|done|lia|lia]. }
  rewrite find_unfold by done.
  destruct (find_anchor key Hrange) as (a & b & r & -> & Hanchor & Hcase).
  cbn [mbind option_bind fst snd]. rewrite Hanchor.
  cbn [mbind option_bind]. destruct Hok.
  destruct Hcase as [[-> _] | [Hr _]].
  - by rewrite Z.eqb_refl.
  - rewrite (proj2 (Z.eqb_neq r N)) by lia.
    destruct (container_at_in_range ix ok_size0 r Hr) as [kv ->].
    cbn [mbind option_bind].
    rewrite !to_int_to_size_t, (to_int_id (r - 1)), (to_int_id (r + 1)) by lia.
    destruct (move_left_total ix ok_size0 ok_small0 key (S (S (Z.to_nat N))) (r - 1)
                (values ++ [value_ kv])) as [values' ->]; [lia|lia|].
    cbn [mbind option_bind]. apply move_right_total; [done|done|lia|lia|lia].
Qed.

(** The output of [find] for a key that occupies the positions
    [a .. b]: the value at the anchor [p], then the values left of it from
    [p - 1] down to [a], then the values right of it from [p + 1] up to
    [b]. *)
Lemma find_run key a b values :
  0 <= a <= b -> b < N ->
  (forall p kv, container_at ix p = Some kv -> (key_ kv = key <-> a <= p <= b)) ->
  exists p kv,
    a <= p <= b /\ container_at ix p = Some kv
    /\ find ix key values
       = Some (values ++ value_ kv :: reverse (slice_values ix a p)
                      ++ slice_values ix (p + 1) (b + 1)).
Proof.
  intros Hab Hb Hrun. pose proof size_pos as HN.
  pose proof Hok as [Hk HL Hsize Hfits Hsmall Hsorted Hmin Hmax Hinner].
  assert (forall p, a <= p <= b -> key_at ix p key) as Hrun_in.
  { intros p Hp. destruct (container_at_in_range ix Hsize p ltac:(lia)) as [kv Hkv].
    exists kv. split; [done|]. by apply (Hrun p kv Hkv). }
  assert (forall p, key_at ix p key -> a <= p <= b) as Hrun_only.
  { intros p (kv & Hkv & Hkey). by apply (Hrun p kv Hkv). }
  destruct (Hrun_in a ltac:(lia)) as (kva & Hkva & Hkeya).
  destruct Hmin as (kv0 & Hkv0 & Hkey0). destruct Hmax as (kvn & Hkvn & Hkeyn).
  assert (key_min_ ix <= key <= key_max_ ix) as Hrange.
  { pose proof (Hsorted 0 a kv0 kva ltac:(lia) Hkv0 Hkva).
    pose proof (Hsorted a (N - 1) kva kvn ltac:(lia) Hkva Hkvn). lia. }
  destruct (decide (key_max_ ix = key_min_ ix)) as [Heq | Hne].
  - (* all keys are equal *)
    assert (a = 0) as ->.
    { assert (a <= 0 <= b); [|lia]. apply Hrun_only. exists kv0. split; [done|lia]. }
    assert (b = N - 1) as ->.
    { assert (0 <= N - 1 <= b); [|lia]. apply Hrun_only. exists kvn. split; [done|lia]. }
    exists 0, kv0. split; [lia|]. split; [done|].
    unfold find. rewrite (proj2 (Z.eqb_neq N 0)) by lia.
    rewrite (proj2 (Z.ltb_ge (key_max_ ix) key)), (proj2 (Z.ltb_ge key (key_min_ ix)))
      by lia. simpl.
    rewrite (proj2 (Z.eqb_eq _ _) Heq).
    rewrite (proj2 (Z.eqb_eq (key_max_ ix) key)) by lia.
    rewrite <- (Z2Nat.id N) at 1 by lia.
    rewrite push_all_spec; [|done|lia|lia].
    rewrite Z2Nat.id by lia.
    rewrite (slice_values_first ix 0 (0 + N) kv0) by (done || lia).
    by replace (N - 1 + 1) with (0 + N) by lia.
  - rewrite find_unfold by done.
    destruct (find_anchor key Hrange) as (x & y & r & -> & Hanchor & Hcase).
    cbn [mbind option_bind fst snd]. rewrite Hanchor.
    cbn [mbind option_bind].
    destruct Hcase as [[_ Hnone] | [Hr Hat]].
    { exfalso. apply (Hnone a). by exists kva. }
    assert (key_at ix r key) as Hkeyr.
    { destruct Hat as [Honly | Hkeyr]; [|done].
      rewrite <- (Honly a); by exists kva. }
    pose proof (Hrun_only r Hkeyr) as Hrab.
    destruct Hkeyr as (kv & Hkv & Hkey).
    exists r, kv. split; [done|]. split; [done|].
    rewrite (proj2 (Z.eqb_neq r N)) by lia.
    rewrite Hkv. cbn [mbind option_bind].
    rewrite !to_int_to_size_t, (to_int_id (r - 1)), (to_int_id (r + 1)) by lia.
    rewrite (move_left_run ix Hsize Hsmall key a); [|lia|lia|lia| |].
    + cbn [mbind option_bind].
      rewrite (move_right_run ix Hsize Hsmall key b); [|lia|lia|lia|lia| |].
      * replace (r - 1 + 1) with r by lia.
        by rewrite <- !app_assoc.
      * intros p Hp. apply Hrun_in. lia.
      * destruct (decide (b = N - 1)) as [|Hbn]; [by left | right].
        intros Hnext%Hrun_only. lia.
    + intros p Hp. apply Hrun_in. lia.
    + destruct (decide (a = 0)) as [|Ha0]; [by left | right].
      intros Hprev%Hrun_only. lia.
Qed.

(** *** A key that equals a pivot *)



End Facts.

End Index.

(** ** Rebuild *)

Module Rebuild.
Import Layout Construct Lookup Index.

(** *** The sorted projection *)

Definition key_le (x y : KeyValuePair) : Prop := key_ x <= key_ y.

Lemma insert_sorted_Forall (P : KeyValuePair -> Prop) e l :
  P e -> Forall P l -> Forall P (insert_sorted e l).
Proof.
  intros He Hl. induction Hl as [|x l Hx Hl IH]; simpl.
  - by constructor.
  - destruct (key_ e <? key_ x); repeat constructor; done.
Qed.

Lemma insert_sorted_sorted e l :
  StronglySorted key_le l -> StronglySorted key_le (insert_sorted e l).
Proof.
  induction 1 as [|x l Hsorted IH Hall]; simpl.
  - repeat constructor.
  - destruct (Z.ltb_spec (key_ e) (key_ x)) as [Hlt | Hge].
    + constructor; [by constructor|]. constructor; [unfold key_le; lia|].
      eapply Forall_impl; [exact Hall|]. unfold key_le. intros y Hy. lia.
    + constructor; [done|]. apply insert_sorted_Forall; [|done]. unfold key_le. lia.
Qed.

Lemma insert_sorted_length e l : length (insert_sorted e l) = S (length l).
Proof.
  induction l as [|x l IH]; simpl; [done|].
  destruct (key_ e <? key_ x); simpl; by rewrite ?IH.
Qed.

Lemma project_sorted_sorted t : StronglySorted key_le (project_sorted t).
Proof.
  unfold project_sorted.
  assert (forall acc, StronglySorted key_le acc ->
            StronglySorted key_le (fold_left (fun acc e => insert_sorted e acc) t acc))
    as Hgen.
  { induction t as [|e t IH]; intros acc Hacc; simpl; [done|].
    apply IH. by apply insert_sorted_sorted. }
  apply Hgen. constructor.
Qed.

Lemma project_sorted_length t : length (project_sorted t) = length t.
Proof.
  unfold project_sorted.
  assert (forall acc, length (fold_left (fun acc e => insert_sorted e acc) t acc)
                      = (length t + length acc)%nat) as Hgen.
  { induction t as [|e t IH]; intros acc; simpl; [done|].
    rewrite IH, insert_sorted_length. lia. }
  rewrite Hgen. simpl. lia.
Qed.

Lemma sorted_lookup (l : list KeyValuePair) :
  StronglySorted key_le l ->
  forall i j x y, (i <= j)%nat -> l !! i = Some x -> l !! j = Some y -> key_ x <= key_ y.
Proof.
  induction 1 as [|z l Hsorted IH Hall]; intros i j x y Hij Hi Hj; [done|].
  destruct i as [|i], j as [|j]; simpl in *; try lia.
  - assert (x = y) as -> by congruence. lia.
  - injection Hi as ->. rewrite Forall_forall in Hall.
    apply (Hall y). by eapply list_elem_of_lookup_2.
  - apply (IH i j); [lia|done|done].
Qed.

(** *** The construction reads the snapshot and the configuration only *)

Definition same_snapshot (ix ix' : KAryIndex) : Prop :=
  container_ ix = container_ ix' /\ k_ ix = k_ ix'
  /\ num_layers_ ix = num_layers_ ix' /\ size_ ix = size_ ix'.

Lemma write_pivots_same ix ix' lo step pos idxs : forall nodes,
  same_snapshot ix ix' ->
  write_pivots ix lo step pos idxs nodes = write_pivots ix' lo step pos idxs nodes.
Proof.
  intros nodes (Hc & _). revert nodes.
  induction idxs as [|i idxs IH]; intros nodes; simpl; [done|].
  unfold container_at. rewrite Hc.
  destruct (if bool_decide _ then _ else _) as [kv|]; simpl; [|done].
  destruct (inner_write _ _ _); simpl; [apply IH | done].
Qed.

Lemma construct_inner_layers_internal_same ix ix' fuel :
  same_snapshot ix ix' ->
  forall lo hi base dst layer nodes,
  construct_inner_layers_internal fuel ix lo hi base dst layer nodes
  = construct_inner_layers_internal fuel ix' lo hi base dst layer nodes.
Proof.
  intros Hsame. pose proof Hsame as (Hc & Hk & HL & HN).
  induction fuel as [|fuel IH]; intros lo hi base dst layer nodes; simpl; [done|].
  destruct (hi <? lo); [done|].
  rewrite (write_pivots_same ix ix') by done. rewrite Hk, HL.
  destruct (write_pivots _ _ _ _ _ _) as [nodes1|]; simpl; [|done].
  destruct (_ =? _); [done|].
  rewrite IH. destruct (construct_inner_layers_internal _ _ _ _ _ _ _ _); simpl; [|done].
  rewrite (for_each_ext _ _ _ _ (fun i nd _ => IH _ _ _ _ _ nd)).
  destruct (for_each _ _ _); simpl; [apply IH | done].
Qed.

Lemma construct_inner_layers_same ix ix' nodes :
  same_snapshot ix ix' ->
  construct_inner_layers ix nodes = construct_inner_layers ix' nodes.
Proof.
  intros Hsame. pose proof Hsame as (Hc & Hk & HL & HN).
  unfold construct_inner_layers.
  rewrite (write_pivots_same ix ix') by done. rewrite Hk, HL, HN.
  destruct (write_pivots _ _ _ _ _ _) as [nodes1|]; simpl; [|done].
  destruct (_ =? _); [done|].
  rewrite (construct_inner_layers_internal_same ix ix') by done.
  destruct (construct_inner_layers_internal _ _ _ _ _ _ _ _); simpl; [|done].
  rewrite (for_each_ext _ _ _ _
             (fun i nd _ => construct_inner_layers_internal_same ix ix' _ Hsame _ _ _ _ _ nd)).
  destruct (for_each _ _ _); simpl; [|done].
  by apply construct_inner_layers_internal_same.
Qed.

(** *** The state after [reorganize] *)

(** A completed [reorganize] went through these steps. *)
Lemma reorganize_completed t ix0 ix :
  reorganize t ix0 = Some (Completed, ix) ->
  let ix1 := base_reorganize t ix0 in
  inner_node_size ix1 < size_ ix1
  /\ exists first last,
       container_at ix1 0 = Some first
       /\ container_at ix1 (to_size_t (size_ ix1 - 1)) = Some last
       /\ let ix2 := set_key_range ix1 (key_ first) (key_ last) in
          (num_layers_ ix0 = 0 /\ ix = set_inner_nodes ix2 [])
          \/ (num_layers_ ix0 <> 0
              /\ exists nodes,
                   construct_inner_layers ix2
                     (replicate (Z.to_nat (inner_node_size ix2)) None) = Some nodes
                   /\ ix = set_inner_nodes ix2 nodes).
Proof.
  intros Hrun ix1. unfold reorganize in Hrun. fold ix1 in Hrun.
  unfold ASSERT in Hrun.
  destruct (Z.ltb_spec (inner_node_size ix1) (size_ ix1)) as [Hfits|]; [|done].
  split; [done|].
  destruct (container_at ix1 0) as [first|]; [|done].
  destruct (container_at ix1 (to_size_t (size_ ix1 - 1))) as [last|]; [|done].
  exists first, last. split; [done|]. split; [done|].
  cbn [mbind option_bind] in Hrun. intros ix2. fold ix2 in Hrun.
  change (num_layers_ ix2) with (num_layers_ ix0) in Hrun.
  destruct (Z.eqb_spec (num_layers_ ix0) 0) as [HL|HL]; cbn [negb] in Hrun.
  - left. split; [done|]. by injection Hrun as <-.
  - right. split; [done|].
    destruct (construct_inner_layers ix2 _) as [nodes|]; [|done].
    exists nodes. split; [done|]. by injection Hrun as <-.
Qed.

(** [reorganize] leaves the index in the state that the lookups rely on. *)
Lemma reorganize_ok t ix0 ix :
  2 <= k_ ix0 -> 0 <= num_layers_ ix0 -> Z.of_nat (length t) <= 2 ^ 30 ->
  reorganize t ix0 = Some (Completed, ix) -> index_ok ix.
Proof.
  intros Hk HL Hsmall Hrun.
  destruct (reorganize_completed t ix0 ix Hrun) as (Hfits & first & last & Hfirst & Hlast & Hix).
  unfold base_reorganize, inner_node_size in *. cbn in Hfits, Hfirst, Hlast.
  pose proof (Z.pow_pos_nonneg (k_ ix0) (num_layers_ ix0) ltac:(lia) HL) as Hpow.
  pose proof (project_sorted_length t) as Hlen.
  rewrite to_size_t_id in Hlast by lia.
  assert (forall nodes,
            (num_layers_ ix0 <> 0 ->
             construct_inner_layers
               (set_key_range
                  (set_container ix0 (project_sorted t)
                     (Z.of_nat (length (project_sorted t))))
                  (key_ first) (key_ last))
               (replicate (Z.to_nat (k_ ix0 ^ num_layers_ ix0 - 1)) None) = Some nodes) ->
            index_ok
              (set_inner_nodes
                 (set_key_range
                    (set_container ix0 (project_sorted t)
                       (Z.of_nat (length (project_sorted t))))
                    (key_ first) (key_ last)) nodes)) as Hgen.
  { intros nodes Hinner. constructor; cbn; try done; try lia.
    - intros i j kvi kvj Hij Hi Hj. unfold container_at in Hi, Hj. cbn in Hi, Hj.
      repeat case_bool_decide; try done.
      apply (sorted_lookup _ (project_sorted_sorted t) (Z.to_nat i) (Z.to_nat j));
        [lia | done | done].
    - by exists first.
    - by exists last.
    - intros HL0. rewrite <- (Hinner HL0). unfold inner_node_size. cbn.
      by apply construct_inner_layers_same. }
  destruct Hix as [(HL0 & ->) | (HL0 & nodes & Hnodes & ->)]; apply Hgen; [done|].
  intros _. exact Hnodes.
Qed.

(** A failed validation leaves the object as [base_reorganize] made it. *)
Lemma reorganize_rejected t ix0 :
  Z.of_nat (length t) <= inner_node_size ix0 ->
  reorganize t ix0
  = Some (AssertionFailed "exceed maximum layers", base_reorganize t ix0).
Proof.
  intros Hfew. unfold reorganize, ASSERT.
  replace (inner_node_size (base_reorganize t ix0) <? size_ (base_reorganize t ix0))
    with false; [done|].
  symmetry. apply Z.ltb_ge. unfold base_reorganize, inner_node_size in *. cbn.
  rewrite project_sorted_length. lia.
Qed.


Lemma reorganize_keeps_config t ix0 ix st :
  reorganize t ix0 = Some (st, ix) ->
  k_ ix = k_ ix0 /\ num_layers_ ix = num_layers_ ix0.
Proof.
  destruct st as [|msg].
  - intros Hrun.
    destruct (reorganize_completed t ix0 ix Hrun)
      as (_ & first & last & _ & _ & [(_ & ->) | (_ & nodes & _ & ->)]); done.
  - unfold reorganize, ASSERT. destruct (_ <? _).
    + destruct (container_at _ 0); [|done]. destruct (container_at _ _); [|done].
      cbn [mbind option_bind]. destruct (negb _); [|done].
      by destruct (construct_inner_layers _ _).
    + by intros [= _ <-].
Qed.

End Rebuild.

(** * Scenarios *)

Module Scenarios.
Import Lookup Index Rebuild.

(** A table holding [keys] in insertion order; the value of a tuple is its
    1-based insertion index. *)
Definition table_of (keys : list Z) : DataTable :=
  imap (fun i key => {| key_ := key; value_ := Z.of_nat i + 1 |}) keys.

(** The index object after [construct(table, L, k)] and one [reorganize]. *)
Definition rebuilt (num_layers k : Z) (keys : list Z) : KAryIndex :=
  match reorganize (table_of keys) (new_index num_layers k).2 with
  | Some (_, ix) => ix
  | None => (new_index num_layers k).2
  end.

(** Whether the entries with key [key] are exactly those at the positions
    [a .. b]. *)
Definition is_run (ix : KAryIndex) (key a b : Z) : bool :=
  forallb (fun q => match container_at ix q with
                    | Some kv => Bool.eqb (key_ kv =? key) ((a <=? q) && (q <=? b))
                    | None => true
                    end)
          (seqZ 0 (Z.of_nat (length (container_ ix)))).


(** S1: [k = 2], [L = 3], keys 1 .. 15. *)
Definition S1_index : KAryIndex := Eval vm_compute in rebuilt 3 2 (seqZ 1 15).

(** S2: [k = 3], [L = 2], keys 1 .. 26. *)
Definition S2_index : KAryIndex := Eval vm_compute in rebuilt 2 3 (seqZ 1 26).

(** S3: [k = 4], [L = 2], keys 10, 20, ..., 200. *)
Definition S3_index : KAryIndex :=
  Eval vm_compute in rebuilt 2 4 ((fun x => 10 * x) <$> seqZ 1 20).

(** S4: [k = 2], [L = 2], keys inserted in the order 3, 1, 3, 2, 3, 4, 3, 5. *)
Definition S4_keys : list Z := [3; 1; 3; 2; 3; 4; 3; 5].
Definition S4_index : KAryIndex := Eval vm_compute in rebuilt 2 2 S4_keys.

(** S5: [k = 3], [L = 0], the single key 42. *)
Definition S5_index : KAryIndex := Eval vm_compute in rebuilt 0 3 [42].

(** S6: [k = 3], [L = 1], keys 1 .. 10. *)
Definition S6_index : KAryIndex := Eval vm_compute in rebuilt 1 3 (seqZ 1 10).

(** Four distinct keys under [k = 2], [L = 2], and the same snapshot
    without inner layers. *)
Definition four_keys : list Z := [10; 20; 30; 40].
Definition four_index : KAryIndex := Eval vm_compute in rebuilt 2 2 four_keys.
Definition four_index_flat : KAryIndex := Eval vm_compute in rebuilt 0 2 four_keys.

Example S1_lookups :
  inner_nodes_ S1_index = Some <$> [8; 4; 12; 2; 6; 10; 14]
  /\ (fun key => find S1_index key []) <$> [8; 1; 15; 0; 16]
     = [Some [8]; Some [1]; Some [15]; Some []; Some []].
Proof. split; reflexivity. Qed.

Example S2_lookups :
  (fun key => find S2_index key []) <$> [13; 27] = [Some [13]; Some []].
Proof. reflexivity. Qed.

Example S3_lookups :
  (fun key => find S3_index key []) <$> [25; 100; 5] = [Some []; Some [10]; Some []].
Proof. reflexivity. Qed.

Example S5_lookups :
  (fun key => find S5_index key []) <$> [42; 41] = [Some [1]; Some []].
Proof. reflexivity. Qed.

Example S6_lookups :
  inner_nodes_ S6_index = [Some 4; Some 7]
  /\ find_inner_layers S6_index 4 = Some (3, 3)
  /\ find S6_index 4 [] = Some [4].
Proof. repeat split; reflexivity. Qed.


Lemma S2_rebuilt :
  reorganize (table_of (seqZ 1 26)) (new_index 2 3).2 = Some (Completed, S2_index).
Proof. vm_compute. reflexivity. Qed.

Lemma S4_rebuilt :
  reorganize (table_of S4_keys) (new_index 2 2).2 = Some (Completed, S4_index).
Proof. vm_compute. reflexivity. Qed.

Lemma S6_rebuilt :
  reorganize (table_of (seqZ 1 10)) (new_index 1 3).2 = Some (Completed, S6_index).
Proof. vm_compute. reflexivity. Qed.

Lemma four_rebuilt :
  reorganize (table_of four_keys) (new_index 2 2).2 = Some (Completed, four_index).
Proof. vm_compute. reflexivity. Qed.


End Scenarios.

(** * The properties of the specification *)

Module Claims.
Import Layout Construct Lookup Index Rebuild Scenarios.

(** ** Point lookup: order and content of the output *)




(** C2: the code at the failing input. No entry of the snapshot has key
    35, yet [find(35)] emits the value 4 of key 40: the descent ends in the
    leaf range [3 .. 3], and [find] takes a range of equal ends for a pivot
    hit without comparing the key. *)
Lemma find_absent_key_emits_value :
  reorganize (table_of four_keys) (new_index 2 2).2 = Some (Completed, four_index)
  /\ Forall (fun kv => key_ kv <> 35) (container_ four_index)
  /\ find_inner_layers four_index 35 = Some (3, 3)
  /\ container_at four_index 3 = Some {| key_ := 40; value_ := 4 |}
  /\ find four_index 35 [] = Some [4].
Proof.
  split; [exact four_rebuilt|]. split; [|repeat split; reflexivity].
  repeat constructor; cbn; lia.
Qed.

(** C4: the code at the failing input. Over the same snapshot, the index
    with [k = 2], [L = 2] answers [find(35)] with the value 4, the index
    without inner layers with nothing. *)
Lemma find_differs_from_binary_search :
  container_ four_index = container_ four_index_flat
  /\ num_layers_ four_index = 2 /\ num_layers_ four_index_flat = 0
  /\ find four_index 35 [] = Some [4]
  /\ find four_index_flat 35 [] = Some [].
Proof. repeat split; reflexivity. Qed.

(** C9: the code at the failing input. Without inner layers the descent
    returns the pair [(0, size_)], not [(0, size_ - 1)]: for a snapshot of
    two entries it is [(0, 2)], and the binary search starts at the middle
    of [0 .. 2]. *)
Lemma find_inner_layers_without_layers :
  (forall ix key,
     find_inner_layers
       {| num_layers_ := 0; k_ := k_ ix; size_ := size_ ix; container_ := container_ ix;
          key_min_ := key_min_ ix; key_max_ := key_max_ ix;
          inner_nodes_ := inner_nodes_ ix |} key
     = Some (0, to_int (size_ ix)))
  /\ size_ (rebuilt 0 2 [1; 2]) = 2
  /\ find_inner_layers (rebuilt 0 2 [1; 2]) 1 = Some (0, 2).
Proof. repeat split; reflexivity. Qed.



(** C10, amended: on a rebuilt index over at most [2^30] entries
    ([k >= 2], [k^L - 1 < N <= 2^30], sorted snapshot of [N >= 1] entries)
    [find] returns a result for every key: no read of [container_] is
    outside [0 .. N - 1], no read of [inner_nodes_] is outside
    [0 .. k^L - 2] or hits a cell that was not written, and the recursion
    ends within the supplied fuel. *)
Theorem find_stays_in_bounds ix key values :
  index_ok ix ->
  size_ ix = Z.of_nat (length (container_ ix))
  /\ (1 <= num_layers_ ix ->
      Z.of_nat (length (inner_nodes_ ix)) = k_ ix ^ num_layers_ ix - 1)
  /\ exists out, find ix key values = Some out.
Proof.
  intros Hok. split; [by destruct Hok|]. split.
  - intros HL. by destruct (inner_nodes_ok ix Hok HL).
  - by apply find_total.
Qed.

Lemma find_stays_in_bounds_witness :
  size_ S2_index = Z.of_nat (length (container_ S2_index))
  /\ (1 <= num_layers_ S2_index ->
      Z.of_nat (length (inner_nodes_ S2_index))
      = k_ S2_index ^ num_layers_ S2_index - 1)
  /\ exists out, find S2_index 13 [] = Some out.
Proof.
  apply (find_stays_in_bounds S2_index 13 []).
  apply (reorganize_ok (table_of (seqZ 1 26)) (new_index 2 3).2);
    [vm_compute; discriminate .. | exact S2_rebuilt].
Defined.

(** ** Rebuild *)

(** C6, as stated, fails: with [k = 2] and [L = 2] the rebuild needs four
    tuples. A rebuild over one tuple is rejected and leaves a snapshot of
    one entry; after one more insert the next rebuild is rejected as well,
    and the snapshot and the size it leaves are those of the new table. *)
Lemma reorganize_error_changes_snapshot :
  let t1 := table_of [5] in
  let t2 := insert_tuple t1 6 2 in
  exists msg ix1 ix2,
    reorganize t1 (new_index 2 2).2 = Some (AssertionFailed msg, ix1)
    /\ size_approx t2 <= inner_node_size ix1
    /\ reorganize t2 ix1 = Some (AssertionFailed msg, ix2)
    /\ size_ ix1 = 1 /\ size_ ix2 = 2
    /\ container_ ix2 <> container_ ix1.
Proof.
  intros t1 t2.
  eexists _, _, _. split; [vm_compute; reflexivity|].
  split; [vm_compute; discriminate|].
  split; [vm_compute; reflexivity|].
  split; [reflexivity|]. split; [reflexivity|]. discriminate.
Qed.

(** C6, amended: if [reorganize] is invoked when [k^L - 1 >= N], with
    [k >= 2], [L >= 0] and [k^L <= 2^53] (so that the [double] value of
    [std::pow(k_, num_layers_) - 1] is the exact integer), the error is
    reported to the caller, and the inner-node array, [key_min] and
    [key_max] are left unchanged; the snapshot and the size are those of
    the table at the time of the call. *)
Theorem reorganize_error_keeps_pivots_and_key_range t ix0 :
  2 <= k_ ix0 -> 0 <= num_layers_ ix0 -> k_ ix0 ^ num_layers_ ix0 <= 2 ^ 53 ->
  size_approx t <= inner_node_size ix0 ->
  exists ix1,
    reorganize t ix0 = Some (AssertionFailed "exceed maximum layers", ix1)
    /\ inner_nodes_ ix1 = inner_nodes_ ix0
    /\ key_min_ ix1 = key_min_ ix0 /\ key_max_ ix1 = key_max_ ix0
    /\ container_ ix1 = project_sorted t /\ size_ ix1 = size_approx t.
Proof.
  intros _ _ _ Hfew. exists (base_reorganize t ix0).
  split; [by apply reorganize_rejected|].
  unfold base_reorganize, size_approx. cbn. by rewrite project_sorted_length.
Qed.

Lemma reorganize_error_keeps_pivots_and_key_range_witness :
  exists ix1,
    reorganize (table_of [1; 2; 3]) (new_index 2 2).2
    = Some (AssertionFailed "exceed maximum layers", ix1)
    /\ inner_nodes_ ix1 = inner_nodes_ (new_index 2 2).2
    /\ key_min_ ix1 = key_min_ (new_index 2 2).2
    /\ key_max_ ix1 = key_max_ (new_index 2 2).2
    /\ container_ ix1 = project_sorted (table_of [1; 2; 3])
    /\ size_ ix1 = size_approx (table_of [1; 2; 3]).
Proof.
  apply (reorganize_error_keeps_pivots_and_key_range (table_of [1; 2; 3]) (new_index 2 2).2).
  - vm_compute. discriminate.
  - vm_compute. discriminate.
  - vm_compute. discriminate.
  - vm_compute. discriminate.
Defined.



(** ** Range lookup *)

(** C3: the code at the failing input. [find_range] never touches
    [values]; in scenario S2 the keys 5 .. 9 are at the positions 4 .. 8
    with the values 5 .. 9, and [find_range(5, 9)] emits nothing. *)
Lemma find_range_emits_nothing :
  (forall ix lhs_key rhs_key values,
     (find_range ix lhs_key rhs_key values).2 = values)
  /\ is_run S2_index 5 4 4 = true /\ is_run S2_index 9 8 8 = true
  /\ slice_values S2_index 4 9 = [5; 6; 7; 8; 9]
  /\ find_range S2_index 5 9 [] = (Completed, []).
Proof.
  split; [|repeat split; reflexivity].
  intros ix lhs_key rhs_key values. unfold find_range, ASSERT.
  destruct (lhs_key <? rhs_key); [|done].
  destruct (size_ ix =? 0); [done|]. by destruct (_ || _).
Qed.

End Claims.

(** * Further properties of the index *)

Module IndexFacts.
Import Layout Construct Lookup Index Rebuild.

(** ** Slices of the snapshot *)

Lemma slice_values_split ix a p b kv :
  a <= p -> p <= b -> container_at ix p = Some kv ->
  slice_values ix a (b + 1)
  = slice_values ix a p ++ value_ kv :: slice_values ix (p + 1) (b + 1).
Proof.
  intros Hap Hpb Hkv. unfold slice_values.
  replace (b + 1 - a) with ((p - a) + (b + 1 - p)) by lia.
  rewrite seqZ_app by lia. rewrite omap_app. f_equal.
  replace (a + (p - a)) with p by lia.
  rewrite seqZ_cons by lia. simpl. rewrite Hkv. simpl.
  replace (Z.succ p) with (p + 1) by lia.
  by replace (Z.pred (b + 1 - p)) with (b + 1 - (p + 1)) by lia.
Qed.

Lemma slice_values_length ix n : forall a,
  size_ ix = Z.of_nat (length (container_ ix)) ->
  0 <= a -> a + Z.of_nat n <= size_ ix ->
  length (slice_values ix a (a + Z.of_nat n)) = n.
Proof.
  induction n as [|n IH]; intros a Hsize Ha Hn.
  - by rewrite slice_values_empty by lia.
  - destruct (container_at_in_range ix Hsize a ltac:(lia)) as [kv Hkv].
    rewrite (slice_values_first ix a _ kv) by (done || lia). simpl. f_equal.
    replace (a + Z.of_nat (S n)) with (a + 1 + Z.of_nat n) by lia.
    apply IH; [done | lia | lia].
Qed.

(** ** What the loops of [find] append *)

(** [v] is the value of an entry of the snapshot. *)
Definition from_snapshot (ix : KAryIndex) (v : Z) : Prop :=
  exists q kv, container_at ix q = Some kv /\ value_ kv = v.

Lemma push_all_appends ix idxs : forall values out,
  push_all ix idxs values = Some out ->
  exists more, out = values ++ more /\ Forall (from_snapshot ix) more.
Proof.
  induction idxs as [|i idxs IH]; intros values out; simpl.
  - intros [= <-]. exists []. by rewrite app_nil_r.
  - destruct (container_at ix i) as [kv|] eqn:Hkv; [|done]. simpl.
    intros (more & -> & Hmore)%IH.
    exists (value_ kv :: more). rewrite <- app_assoc. split; [done|].
    constructor; [by exists i, kv | done].
Qed.

Lemma move_left_appends ix key fuel : forall q values out,
  move_left fuel ix key q values = Some out ->
  exists more, out = values ++ more /\ Forall (from_snapshot ix) more.
Proof.
  induction fuel as [|fuel IH]; intros q values out; [done|]. cbn [move_left].
  destruct (0 <=? q); [|intros [= <-]; exists []; by rewrite app_nil_r].
  destruct (container_at ix q) as [kv|] eqn:Hkv; [|done]. cbn [mbind option_bind].
  destruct (key_ kv =? key); [|intros [= <-]; exists []; by rewrite app_nil_r].
  intros (more & -> & Hmore)%IH.
  exists (value_ kv :: more). rewrite <- app_assoc. split; [done|].
  constructor; [by exists q, kv | done].
Qed.

Lemma move_right_appends ix key fuel : forall q values out,
  move_right fuel ix key q values = Some out ->
  exists more, out = values ++ more /\ Forall (from_snapshot ix) more.
Proof.
  induction fuel as [|fuel IH]; intros q values out; [done|]. cbn [move_right].
  destruct (_ <=? _); [|intros [= <-]; exists []; by rewrite app_nil_r].
  destruct (container_at ix q) as [kv|] eqn:Hkv; [|done]. cbn [mbind option_bind].
  destruct (key_ kv =? key); [|intros [= <-]; exists []; by rewrite app_nil_r].
  intros (more & -> & Hmore)%IH.
  exists (value_ kv :: more). rewrite <- app_assoc. split; [done|].
  constructor; [by exists q, kv | done].
Qed.

Lemma find_appends ix key values out :
  find ix key values = Some out ->
  exists more, out = values ++ more /\ Forall (from_snapshot ix) more.
Proof.
  assert (exists more : list Z, values = values ++ more /\ Forall (from_snapshot ix) more)
    as Hnone by (exists []; by rewrite app_nil_r).
  unfold find.
  destruct (size_ ix =? 0); [by intros [= <-]|].
  destruct (_ || _); [by intros [= <-]|].
  destruct (key_max_ ix =? key_min_ ix).
  { destruct (key_max_ ix =? key); [apply push_all_appends | by intros [= <-]]. }
  destruct (find_inner_layers ix key) as [[a b]|]; [|done].
  cbn [mbind option_bind fst snd].
  destruct (if a =? b then _ else _) as [r|]; [|done]. cbn [mbind option_bind].
  destruct (r =? size_ ix); [by intros [= <-]|].
  destruct (container_at ix r) as [kv|] eqn:Hkv; [|done]. cbn [mbind option_bind].
  destruct (move_left _ ix key _ _) as [values1|] eqn:Hleft; [|done].
  cbn [mbind option_bind]. intros Hright.
  apply move_left_appends in Hleft as (more1 & -> & Hmore1).
  apply move_right_appends in Hright as (more2 & -> & Hmore2).
  exists (value_ kv :: more1 ++ more2). split.
  - by rewrite <- !app_assoc.
  - constructor; [by exists r, kv|]. by apply Forall_app.
Qed.

Section Facts.

Variable ix : KAryIndex.
Hypothesis Hok : index_ok ix.

Local Abbreviation k := (k_ ix).
Local Abbreviation L := (num_layers_ ix).
Local Abbreviation N := (size_ ix).

(** The cached key range bounds every key of the snapshot. *)
Lemma keys_in_range p kv :
  container_at ix p = Some kv -> key_min_ ix <= key_ kv <= key_max_ ix.
Proof.
  intros Hkv. pose proof (container_at_range _ _ _ Hkv) as Hp.
  destruct Hok as [_ _ Hsize _ _ Hsorted (kv0 & Hkv0 & <-) (kvn & Hkvn & <-) _].
  split; [apply (Hsorted 0 p) | apply (Hsorted p (N - 1))]; done || lia.
Qed.

(** The outcome of [find] for a key that is in the snapshot, up to order. *)
Lemma find_present key a b values :
  0 <= a <= b -> b < N ->
  (forall q kv, container_at ix q = Some kv -> (key_ kv = key <-> a <= q <= b)) ->
  exists more,
    find ix key values = Some (values ++ more)
    /\ more ≡ₚ slice_values ix a (b + 1)
    /\ length more = Z.to_nat (b - a + 1).
Proof.
  intros Hab Hb Hrun.
  destruct (find_run ix Hok key a b values Hab Hb Hrun) as (p & kv & Hp & Hkv & Hfind).
  eexists. split; [exact Hfind|].
  assert (value_ kv :: reverse (slice_values ix a p) ++ slice_values ix (p + 1) (b + 1)
          ≡ₚ slice_values ix a (b + 1)) as Hperm.
  { rewrite (slice_values_split ix a p b kv) by (done || lia).
    rewrite reverse_Permutation. by rewrite <- Permutation_middle. }
  split; [done|]. rewrite Hperm.
  replace (b + 1) with (a + Z.of_nat (Z.to_nat (b - a + 1))) by lia.
  apply slice_values_length; [by destruct Hok | lia | lia].
Qed.




End Facts.

(** ** The construction on any snapshot *)

(** With more entries than inner nodes the construction stays inside both
    arrays and writes every cell, whatever the order of the snapshot. *)
Lemma construct_inner_layers_total ix :
  2 <= k_ ix -> size_ ix = Z.of_nat (length (container_ ix)) -> size_ ix <= 2 ^ 30 ->
  1 <= num_layers_ ix -> inner_node_size ix < size_ ix ->
  exists nodes,
    construct_inner_layers ix (replicate (Z.to_nat (inner_node_size ix)) None) = Some nodes
    /\ Z.of_nat (length nodes) = inner_node_size ix
    /\ forall j, 0 <= j < inner_node_size ix ->
         exists p kv, container_at ix p = Some kv /\ inner_at nodes j = Some (key_ kv).
Proof.
  intros Hk Hsize Hsmall HL Hfits. unfold inner_node_size in *.
  pose proof (Z.pow_pos_nonneg (k_ ix) (num_layers_ ix) ltac:(lia) ltac:(lia)) as Hpow.
  destruct (construct_inner_layers_spec ix Hk Hsize Hsmall
              (replicate (Z.to_nat (k_ ix ^ num_layers_ ix - 1)) None))
    as (nodes & Hrun & Hlen & Htree); [lia | lia | |].
  { rewrite length_replicate. lia. }
  exists nodes. split; [done|]. split.
  { rewrite Hlen, length_replicate. lia. }
  intros j Hj.
  assert (foot (k_ ix) (Z.to_nat (num_layers_ ix)) 0 0 (k_ ix - 1) j) as Hfoot.
  { pose proof (iter_base_pow (k_ ix) (Z.to_nat (num_layers_ ix)) 0) as Hp.
    rewrite Z2Nat.id in Hp by lia.
    pose proof (foot_cover (k_ ix) Hk (Z.to_nat (num_layers_ ix)) 0 j
                  ltac:(lia) ltac:(lia)) as Hcover.
    by replace ((0 + 1) * (k_ ix - 1)) with (k_ ix - 1) in Hcover by lia. }
  destruct (tree_covers ix Hk (Z.to_nat (num_layers_ ix)) 0 (size_ ix - 1) 0 0 j Hfoot)
    as (p & Hp).
  destruct (Hp ix nodes eq_refl Htree) as (kv & Hkv & Hat).
  by exists p, kv.
Qed.

(** [reorganize] over a table with more tuples than inner nodes completes. *)
Lemma reorganize_completes t ix0 :
  2 <= k_ ix0 -> 0 <= num_layers_ ix0 ->
  inner_node_size ix0 < size_approx t -> size_approx t <= 2 ^ 30 ->
  exists ix, reorganize t ix0 = Some (Completed, ix).
Proof.
  intros Hk HL Hfits Hsmall. unfold size_approx in *.
  pose proof (project_sorted_length t) as Hlen.
  assert (0 <= inner_node_size ix0) as Hpos.
  { unfold inner_node_size.
    pose proof (Z.pow_pos_nonneg (k_ ix0) (num_layers_ ix0) ltac:(lia) HL). lia. }
  unfold reorganize, ASSERT.
  set (ix1 := base_reorganize t ix0).
  assert (size_ ix1 = Z.of_nat (length (container_ ix1))) as Hsize1 by done.
  assert (size_ ix1 = Z.of_nat (length t)) as Hsize1' by (cbn; lia).
  change (inner_node_size ix1) with (inner_node_size ix0).
  rewrite (proj2 (Z.ltb_lt _ _)) by lia.
  destruct (container_at_in_range ix1 Hsize1 0 ltac:(lia)) as [first ->].
  rewrite (to_size_t_id (size_ ix1 - 1)) by lia.
  destruct (container_at_in_range ix1 Hsize1 (size_ ix1 - 1) ltac:(lia)) as [last ->].
  cbn [mbind option_bind].
  set (ix2 := set_key_range ix1 (key_ first) (key_ last)).
  change (num_layers_ ix2) with (num_layers_ ix0).
  destruct (Z.eqb_spec (num_layers_ ix0) 0) as [HL0|HL0]; cbn [negb]; [by eexists|].
  destruct (construct_inner_layers_total ix2) as (nodes & -> & _); try done; try lia.
  - change (size_ ix2) with (size_ ix1). lia.
  - change (num_layers_ ix2) with (num_layers_ ix0). lia.
  - change (inner_node_size ix2) with (inner_node_size ix0).
    change (size_ ix2) with (size_ ix1). lia.
  - by eexists.
Qed.

End IndexFacts.

(** ** The layers of the inner-node array *)

Module Layers.
Import Layout Construct Lookup Index.

Section Geometry.

Variable k : Z.
Hypothesis k_ge_2 : 2 <= k.

(** The cells that a subtree owns in its layer number [d], counted from the
    layer of its root. *)
Fixpoint slice (d : nat) (base dst width j : Z) : Prop :=
  match d with
  | O => base + dst <= j < base + dst + width
  | S d' => slice d' (next_base k base) (dst * k) (width * k) j
  end.

(** [cell_at d lo hi base dst j p]: in the subtree over [lo .. hi] placed at
    [base + dst], cell [j] belongs to a node [d] layers below the root of the
    subtree and holds the key of snapshot position [p]. *)
Inductive cell_at : nat -> Z -> Z -> Z -> Z -> Z -> Z -> Prop :=
| cell_here lo hi base dst i :
    0 <= i < k - 1 ->
    cell_at O lo hi base dst (base + dst + i) (pivot_pos k lo hi i)
| cell_below d lo hi base dst c j p :
    0 <= c < k ->
    cell_at d (child_lo k lo hi c) (child_hi k lo hi c)
      (next_base k base) (child_dst k dst c) j p ->
    cell_at (S d) lo hi base dst j p.



Lemma slice_split d : forall base dst width m j,
  0 < width -> 0 <= m ->
  slice d base dst (m * width) j ->
  exists c, 0 <= c < m /\ slice d base (dst + c * width) width j.
Proof.
  induction d as [|d IH]; intros base dst width m j Hw Hm; simpl.
  - intros Hj. exists ((j - base - dst) / width).
    pose proof (Z.mul_div_le (j - base - dst) width Hw).
    pose proof (Z.mul_succ_div_gt (j - base - dst) width Hw).
    pose proof (Z.div_pos (j - base - dst) width ltac:(lia) Hw).
    split; [split; [lia|nia] | lia].
  - intros Hj. replace (m * width * k) with (m * (width * k)) in Hj by ring.
    apply IH in Hj as (c & Hc & Hslice); [|nia|lia].
    exists c. split; [done|].
    by replace ((dst + c * width) * k) with (dst * k + c * (width * k)) by ring.
Qed.



Lemma cell_at_exists d : forall lo hi base dst j,
  slice d base dst (k - 1) j -> exists p, cell_at d lo hi base dst j p.
Proof.
  induction d as [|d IH]; intros lo hi base dst j; simpl.
  - intros Hj. exists (pivot_pos k lo hi (j - (base + dst))).
    replace j with (base + dst + (j - (base + dst))) at 1 by lia.
    constructor. lia.
  - intros Hj. replace ((k - 1) * k) with (k * (k - 1)) in Hj by lia.
    apply slice_split in Hj as (c & Hc & Hslice); [|lia..].
    destruct (IH (child_lo k lo hi c) (child_hi k lo hi c)
                (next_base k base) (child_dst k dst c) j Hslice) as [p Hp].
    exists p. by apply (cell_below d lo hi base dst c).
Qed.



End Geometry.

(** A cell holds the key of the position behind it. *)
Lemma cell_at_tree ix nodes d r lo hi base dst j p :
  cell_at (k_ ix) d lo hi base dst j p -> (d < r)%nat ->
  tree_ok r ix nodes lo hi base dst ->
  exists kv, container_at ix p = Some kv /\ inner_at nodes j = Some (key_ kv).
Proof.
  intros Hcell. revert r.
  induction Hcell as [lo hi base dst i Hi | d lo hi base dst c j p Hc _ IH];
    intros r Hr Htree; (destruct r as [|r]; [lia|]); destruct Htree as [Hnode Hkids].
  - by apply Hnode.
  - apply (IH r); [lia | by apply Hkids].
Qed.


End Layers.

(** ** The partition of the specification and the constructed array *)

Module PartitionFacts.
Import Layout Construct Lookup Index Layers Partition Scenarios.

Section Geometry.

Variable k : Z.
Hypothesis k_ge_2 : 2 <= k.

Lemma foot_slice r : forall base dst width j,
  foot k r base dst width j -> exists d, (d < r)%nat /\ slice k d base dst width j.
Proof.
  induction r as [|r IH]; intros base dst width j; cbn [foot]; [done|].
  intros [Hhere | Hdeep].
  - exists 0%nat. split; [lia | exact Hhere].
  - destruct (IH _ _ _ _ Hdeep) as (d & Hd & Hslice).
    exists (S d). split; [lia | exact Hslice].
Qed.

Lemma mjoin_all_nil {A} (ls : list (list A)) :
  (forall l, l ∈ ls -> l = []) -> mjoin ls = [].
Proof.
  induction ls as [|l ls IH]; intros Hall; [done|].
  change (mjoin (l :: ls)) with (l ++ mjoin ls).
  rewrite (Hall l) by left. rewrite IH; [done|].
  intros l' Hl'. apply Hall. by right.
Qed.

Lemma children_joined {A} (f : Z -> list A) :
  f 0 ++ mjoin (f <$> seqZ 1 (k - 2)) ++ f (k - 1) = mjoin (f <$> seqZ 0 k).
Proof.
  assert (seqZ 0 k = 0 :: seqZ 1 (k - 2) ++ [k - 1]) as ->.
  { rewrite seqZ_cons by lia. f_equal.
    replace (Z.pred k) with ((k - 2) + 1) by lia.
    rewrite seqZ_app by lia.
    replace (Z.succ 0) with 1 by lia. f_equal.
    rewrite seqZ_cons, seqZ_nil by lia. f_equal. lia. }
  rewrite fmap_cons, fmap_app.
  change (mjoin (f 0 :: (f <$> seqZ 1 (k - 2)) ++ (f <$> [k - 1])))
    with (f 0 ++ mjoin ((f <$> seqZ 1 (k - 2)) ++ (f <$> [k - 1]))).
  f_equal. rewrite join_app. f_equal. cbn. by rewrite app_nil_r.
Qed.

(** [build], with the pivots and the child ranges in the terms of the
    geometry of the tree. *)
Lemma build_unfold r L lo hi base slot depth :
  L - depth = Z.of_nat (S r) ->
  build (S r) k L lo hi base slot depth
  = ((fun i => (base + slot + i, pivot_pos k lo hi i)) <$> seqZ 0 (k - 1))
    ++ mjoin ((fun c => build r k L (child_lo k lo hi c) (child_hi k lo hi c)
                          (next_base k base) (child_dst k slot c) (depth + 1))
              <$> seqZ 0 k).
Proof.
  intros Hdepth. cbn [build]. fold (step_of k lo hi).
  destruct (Z.eqb_spec (depth + 1) L) as [Hlast | Hmore].
  - assert (r = 0%nat) as -> by lia.
    rewrite mjoin_all_nil; [by rewrite app_nil_r|].
    by intros l (c & -> & _)%list_elem_of_fmap.
  - f_equal. rewrite <- children_joined.
    unfold child_lo, child_hi, child_dst, next_base.
    rewrite Z.eqb_refl.
    rewrite (proj2 (Z.eqb_neq 0 (k - 1))) by lia.
    rewrite (proj2 (Z.eqb_neq (k - 1) 0)) by lia.
    rewrite Z.eqb_refl.
    replace (lo + step_of k lo hi * (0 + 1) - 1) with (lo + step_of k lo hi - 1) by lia.
    replace (slot * k + 0 * (k - 1)) with (slot * k) by lia.
    do 3 f_equal. apply list_fmap_ext. intros n c Hc.
    apply list_elem_of_lookup_2, elem_of_seqZ in Hc.
    rewrite (proj2 (Z.eqb_neq c 0)), (proj2 (Z.eqb_neq c (k - 1))) by lia.
    reflexivity.
Qed.

(** The assignments of [build] are the cells of the subtree. *)
Lemma build_cell_at r : forall L lo hi base slot depth j p,
  L - depth = Z.of_nat r ->
  (j, p) ∈ build r k L lo hi base slot depth
  <-> exists d, (d < r)%nat /\ cell_at k d lo hi base slot j p.
Proof.
  induction r as [|r IH]; intros L lo hi base slot depth j p Hdepth.
  - cbn [build]. split; [by intros ?%elem_of_nil | intros (d & Hd & _); lia].
  - rewrite build_unfold by done. rewrite elem_of_app. split.
    + intros [(i & Heq & Hi%elem_of_seqZ)%list_elem_of_fmap
             | (l & Hin & (c & -> & Hc%elem_of_seqZ)%list_elem_of_fmap)%list_elem_of_join].
      * injection Heq as -> ->. exists 0%nat. split; [lia|]. constructor. lia.
      * apply IH in Hin as (d & Hd & Hcell); [|lia].
        exists (S d). split; [lia|]. apply (cell_below k d lo hi base slot c); [lia | done].
    + intros (d & Hd & Hcell).
      inversion Hcell as [? ? ? ? i Hi | d' ? ? ? ? c ? ? Hc Hsub]; subst.
      * left. apply list_elem_of_fmap. exists i. split; [done|].
        apply elem_of_seqZ. lia.
      * right. apply list_elem_of_join.
        exists (build r k L (child_lo k lo hi c) (child_hi k lo hi c)
                  (next_base k base) (child_dst k slot c) (depth + 1)).
        split.
        -- apply IH; [lia|]. exists d'. split; [lia | exact Hsub].
        -- apply list_elem_of_fmap. exists c. split; [done|]. apply elem_of_seqZ. lia.
Qed.

End Geometry.

(** *** The array of positions *)

Lemma assign_length cells a : length (assign cells a) = length cells.
Proof. unfold assign. case_bool_decide; [by rewrite length_insert | done]. Qed.

Lemma inner_at_assign_eq cells j p :
  0 <= j < Z.of_nat (length cells) -> inner_at (assign cells (j, p)) j = Some p.
Proof.
  intros Hj. unfold assign, inner_at. cbn [fst snd].
  rewrite !bool_decide_eq_true_2 by lia.
  by rewrite list_lookup_insert_eq by lia.
Qed.

Lemma inner_at_assign_ne cells a j :
  a.1 <> j -> inner_at (assign cells a) j = inner_at cells j.
Proof.
  intros Hne. unfold assign, inner_at.
  case_bool_decide; [|done]. case_bool_decide; [|done].
  by rewrite list_lookup_insert_ne by lia.
Qed.

(** After a sequence of assignments a cell holds the position of one of
    the assignments to it, if there is any. *)
Lemma foldl_assign_cases l : forall cells j,
  0 <= j < Z.of_nat (length cells) ->
  ((forall p, (j, p) ∉ l) /\ inner_at (foldl assign cells l) j = inner_at cells j)
  \/ (exists p, (j, p) ∈ l /\ inner_at (foldl assign cells l) j = Some p).
Proof.
  induction l as [|[j' p'] l IH]; intros cells j Hj; cbn [foldl].
  - left. split; [|done]. intros p. apply not_elem_of_nil.
  - destruct (IH (assign cells (j', p')) j) as [[Hnone Hsame] | (p & Hin & Hat)].
    + by rewrite assign_length.
    + destruct (decide (j' = j)) as [-> | Hne].
      * right. exists p'. split; [by left|].
        rewrite Hsame. by apply inner_at_assign_eq.
      * left. split.
        -- intros p [Heq | Hin]%elem_of_cons; [congruence | by apply (Hnone p)].
        -- rewrite Hsame. by apply inner_at_assign_ne.
    + right. exists p. split; [by right | done].
Qed.

(** Every cell of the array has a position, and the position is that of a
    cell of the tree over [0 .. N - 1]. *)
Lemma position_cell_at k L N j :
  2 <= k -> 1 <= L -> 0 <= j < k ^ L - 1 ->
  exists p d,
    position k L N j = Some p
    /\ (d < Z.to_nat L)%nat /\ cell_at k d 0 (N - 1) 0 0 j p.
Proof.
  intros Hk HL Hj.
  assert (foot k (Z.to_nat L) 0 0 (k - 1) j) as Hfoot.
  { pose proof (iter_base_pow k (Z.to_nat L) 0) as Hp.
    rewrite Z2Nat.id in Hp by lia.
    pose proof (foot_cover k Hk (Z.to_nat L) 0 j ltac:(lia) ltac:(lia)) as Hcover.
    by replace ((0 + 1) * (k - 1)) with (k - 1) in Hcover by lia. }
  apply foot_slice in Hfoot as (d0 & Hd0 & Hslice).
  destruct (cell_at_exists k Hk d0 0 (N - 1) 0 0 j Hslice) as [p0 Hcell0].
  assert ((j, p0) ∈ build (Z.to_nat L) k L 0 (N - 1) 0 0 0) as Hin0.
  { apply (build_cell_at k Hk); [lia|]. by exists d0. }
  destruct (foldl_assign_cases (build (Z.to_nat L) k L 0 (N - 1) 0 0 0)
              (replicate (Z.to_nat (k ^ L - 1)) None) j)
    as [[Hnone _] | (p & Hin & Hat)].
  - rewrite length_replicate. lia.
  - by destruct (Hnone p0).
  - apply (build_cell_at k Hk) in Hin as (d & Hd & Hcell); [|lia].
    exists p, d. split; [exact Hat | done].
Qed.

(** C5, amended: on a rebuilt index with at least one layer ([k >= 2],
    [k^L - 1 < N <= 2^30], sorted snapshot) the inner-node array has
    [k^L - 1] cells, and every cell [j] holds the key of the snapshot
    position [p] that the recursive partition of section 4.3 of the
    specification assigns to [I[j]] ([Partition.position], written from
    the text of the specification); no cell is left unwritten, and each
    pivot is in order with the snapshot: the keys up to [p] are not larger
    and the keys from [p] on are not smaller. *)
Theorem pivots_follow_partition ix :
  index_ok ix -> 1 <= num_layers_ ix ->
  Z.of_nat (length (inner_nodes_ ix)) = k_ ix ^ num_layers_ ix - 1
  /\ forall j, 0 <= j < k_ ix ^ num_layers_ ix - 1 ->
       exists p kv,
         position (k_ ix) (num_layers_ ix) (size_ ix) j = Some p
         /\ container_at ix p = Some kv
         /\ inner_at (inner_nodes_ ix) j = Some (key_ kv)
         /\ forall q kvq, container_at ix q = Some kvq ->
              (q <= p -> key_ kvq <= key_ kv) /\ (p <= q -> key_ kv <= key_ kvq).
Proof.
  intros Hok HL. destruct (inner_nodes_ok ix Hok HL) as [Hlen Htree].
  split; [exact Hlen|]. intros j Hj.
  pose proof Hok as [Hk _ _ _ _ Hsorted _ _ _].
  destruct (position_cell_at (k_ ix) (num_layers_ ix) (size_ ix) j Hk HL Hj)
    as (p & d & Hpos & Hd & Hcell).
  destruct (cell_at_tree ix (inner_nodes_ ix) d _ _ _ _ _ j p Hcell Hd Htree)
    as (kv & Hkv & Hat).
  exists p, kv. split; [done|]. split; [done|]. split; [done|].
  intros q kvq Hq.
  split; intros Hcmp; [apply (Hsorted q p) | apply (Hsorted p q)]; done.
Qed.

Lemma pivots_follow_partition_witness :
  Z.of_nat (length (inner_nodes_ S2_index)) = k_ S2_index ^ num_layers_ S2_index - 1
  /\ forall j, 0 <= j < k_ S2_index ^ num_layers_ S2_index - 1 ->
       exists p kv,
         position (k_ S2_index) (num_layers_ S2_index) (size_ S2_index) j = Some p
         /\ container_at S2_index p = Some kv
         /\ inner_at (inner_nodes_ S2_index) j = Some (key_ kv)
         /\ forall q kvq, container_at S2_index q = Some kvq ->
              (q <= p -> key_ kvq <= key_ kv) /\ (p <= q -> key_ kv <= key_ kvq).
Proof.
  apply (pivots_follow_partition S2_index).
  - apply (Rebuild.reorganize_ok (table_of (seqZ 1 26)) (new_index 2 3).2);
      [vm_compute; discriminate .. | exact S2_rebuilt].
  - vm_compute. discriminate.
Defined.

(** The positions of section 4.3 on the scenarios S6 and S2 of the
    specification, and the pivots that [reorganize] stores. *)
Example partition_positions_S6_S2 :
  positions 3 1 10 = Some <$> [3; 6]
  /\ inner_nodes_ S6_index = Some <$> [4; 7]
  /\ positions 3 2 26 = Some <$> [8; 16; 2; 4; 11; 13; 19; 21]
  /\ inner_nodes_ S2_index = Some <$> [9; 17; 3; 5; 12; 14; 20; 22].
Proof. repeat split; reflexivity. Qed.

End PartitionFacts.

(** ** The entries that match a key *)

Module Matching.
Import Layout Construct Lookup Index IndexFacts.

(** The values of the entries of the snapshot whose key is [key], from left
    to right. *)
Definition matching_values (ix : KAryIndex) (key : Z) : list Z :=
  value_ <$> filter (fun kv => key_ kv = key) (container_ ix).

Lemma filter_none (P : KeyValuePair -> Prop) `{!forall x, Decision (P x)} l :
  (forall i x, l !! i = Some x -> ~ P x) -> filter P l = [].
Proof.
  induction l as [|x l IH]; intros Hnone; [done|].
  rewrite filter_cons_False by (apply (Hnone 0%nat); done).
  apply IH. intros i y Hi. by apply (Hnone (S i)).
Qed.

Lemma filter_block (P : KeyValuePair -> Prop) `{!forall x, Decision (P x)} l :
  forall a b, (a <= b < length l)%nat ->
  (forall i x, l !! i = Some x -> (P x <-> (a <= i <= b)%nat)) ->
  filter P l = take (S b - a) (drop a l).
Proof.
  induction l as [|x l IH]; intros a b Hab Hrun; simpl in Hab; [lia|].
  destruct a as [|a].
  - rewrite filter_cons_True by (apply (Hrun 0%nat); [done | lia]).
    simpl. f_equal. destruct b as [|b].
    + rewrite take_0. apply filter_none.
      intros i y Hi HP. apply (Hrun (S i)) in HP; [lia | done].
    + rewrite (IH 0%nat b); [done | lia |].
      intros i y Hi. rewrite (Hrun (S i) y Hi). lia.
  - rewrite filter_cons_False by (intros HP; apply (Hrun 0%nat) in HP; [lia | done]).
    destruct b as [|b]; [lia|]. simpl.
    rewrite (IH a b); [done | lia |].
    intros i y Hi. rewrite (Hrun (S i) y Hi). lia.
Qed.

Lemma slice_values_take_drop ix n : forall a,
  0 <= a -> a + Z.of_nat n <= Z.of_nat (length (container_ ix)) ->
  slice_values ix a (a + Z.of_nat n)
  = value_ <$> take n (drop (Z.to_nat a) (container_ ix)).
Proof.
  induction n as [|n IH]; intros a Ha Hn.
  - by rewrite slice_values_empty by lia.
  - destruct (container_at_Some ix a ltac:(lia)) as [kv Hkv].
    rewrite (slice_values_first ix a _ kv) by (done || lia).
    unfold container_at in Hkv. rewrite bool_decide_eq_true_2 in Hkv by done.
    rewrite (drop_S _ kv _ Hkv). simpl. f_equal.
    replace (a + Z.of_nat (S n)) with (a + 1 + Z.of_nat n) by lia.
    rewrite IH by lia. by replace (Z.to_nat (a + 1)) with (S (Z.to_nat a)) by lia.
Qed.

(** When the key occupies the positions [a .. b], the matching values are
    the values at these positions. *)
Lemma matching_values_run ix key a b :
  0 <= a <= b -> b < Z.of_nat (length (container_ ix)) ->
  (forall q kv, container_at ix q = Some kv -> (key_ kv = key <-> a <= q <= b)) ->
  matching_values ix key = slice_values ix a (b + 1).
Proof.
  intros Hab Hb Hrun. unfold matching_values.
  rewrite (filter_block _ _ (Z.to_nat a) (Z.to_nat b)); [|lia|].
  - replace (b + 1) with (a + Z.of_nat (S (Z.to_nat b) - Z.to_nat a)) by lia.
    by rewrite slice_values_take_drop by lia.
  - intros i kv Hi. rewrite (Hrun (Z.of_nat i) kv); [lia|].
    unfold container_at. rewrite bool_decide_eq_true_2 by lia.
    by rewrite Nat2Z.id.
Qed.


Section Runs.

Variable ix : KAryIndex.
Hypothesis Hok : index_ok ix.

(** In a sorted snapshot the entries with one key are next to each other. *)
Lemma run_left key : forall n p,
  Z.of_nat n = p -> p < size_ ix -> key_at ix p key ->
  exists a, 0 <= a <= p
    /\ (forall q, a <= q <= p -> key_at ix q key)
    /\ (a = 0 \/ ~ key_at ix (a - 1) key).
Proof.
  pose proof Hok as [_ _ Hsize _ _ _ _ _ _].
  induction n as [|n IH]; intros p Hn Hp Hkey.
  - exists 0. split; [lia|]. split; [|by left].
    intros q Hq. by replace q with p by lia.
  - destruct (container_at_in_range ix Hsize (p - 1) ltac:(lia)) as [kv Hkv].
    destruct (decide (key_ kv = key)) as [Heq | Hneq].
    + destruct (IH (p - 1)) as (a & Ha & Hrun & Hstop); [lia | lia | by exists kv |].
      exists a. split; [lia|]. split; [|done].
      intros q Hq. destruct (decide (q = p)) as [->|]; [done|]. apply Hrun. lia.
    + exists p. split; [lia|]. split.
      * intros q Hq. by replace q with p by lia.
      * right. intros (kv' & Hkv' & Hkey'). congruence.
Qed.

Lemma run_right key : forall n p,
  Z.of_nat n = size_ ix - 1 - p -> 0 <= p -> key_at ix p key ->
  exists b, p <= b < size_ ix
    /\ (forall q, p <= q <= b -> key_at ix q key)
    /\ (b = size_ ix - 1 \/ ~ key_at ix (b + 1) key).
Proof.
  pose proof Hok as [_ _ Hsize _ _ _ _ _ _].
  induction n as [|n IH]; intros p Hn Hp Hkey.
  - exists p. split; [lia|]. split; [|left; lia].
    intros q Hq. by replace q with p by lia.
  - destruct (container_at_in_range ix Hsize (p + 1) ltac:(lia)) as [kv Hkv].
    destruct (decide (key_ kv = key)) as [Heq | Hneq].
    + destruct (IH (p + 1)) as (b & Hb & Hrun & Hstop); [lia | lia | by exists kv |].
      exists b. split; [lia|]. split; [|done].
      intros q Hq. destruct (decide (q = p)) as [->|]; [done|]. apply Hrun. lia.
    + exists p. split; [lia|]. split.
      * intros q Hq. by replace q with p by lia.
      * right. intros (kv' & Hkv' & Hkey'). congruence.
Qed.

Lemma run_exists key p :
  key_at ix p key ->
  exists a b, 0 <= a <= p /\ p <= b < size_ ix
    /\ forall q kv, container_at ix q = Some kv -> (key_ kv = key <-> a <= q <= b).
Proof.
  intros Hkey. pose proof Hkey as (kvp & Hkvp & Hkeyp).
  pose proof (container_at_range _ _ _ Hkvp) as Hp.
  pose proof Hok as [_ _ Hsize _ _ Hsorted _ _ _].
  destruct (run_left key (Z.to_nat p) p ltac:(lia) ltac:(lia) Hkey)
    as (a & Ha & Hruna & Hstopa).
  destruct (run_right key (Z.to_nat (size_ ix - 1 - p)) p ltac:(lia) ltac:(lia) Hkey)
    as (b & Hb & Hrunb & Hstopb).
  exists a, b. split; [done|]. split; [done|].
  intros q kv Hkv. pose proof (container_at_range _ _ _ Hkv) as Hq. split.
  - intros Hkeyq. split.
    + destruct (decide (a <= q)) as [|Hlt]; [done|exfalso].
      destruct Hstopa as [->|Hstopa]; [lia|]. apply Hstopa.
      destruct (container_at_in_range ix Hsize (a - 1) ltac:(lia)) as [kv' Hkv'].
      exists kv'. split; [done|].
      pose proof (Hsorted q (a - 1) kv kv' ltac:(lia) Hkv Hkv').
      pose proof (Hsorted (a - 1) p kv' kvp ltac:(lia) Hkv' Hkvp). lia.
    + destruct (decide (q <= b)) as [|Hgt]; [done|exfalso].
      destruct Hstopb as [->|Hstopb]; [lia|]. apply Hstopb.
      destruct (container_at_in_range ix Hsize (b + 1) ltac:(lia)) as [kv' Hkv'].
      exists kv'. split; [done|].
      pose proof (Hsorted (b + 1) q kv' kv ltac:(lia) Hkv' Hkv).
      pose proof (Hsorted p (b + 1) kvp kv' ltac:(lia) Hkvp Hkv'). lia.
  - intros Hq'. destruct (decide (q <= p)) as [Hqp|Hqp].
    + destruct (Hruna q ltac:(lia)) as (kv' & Hkv' & Hkey'). congruence.
    + destruct (Hrunb q ltac:(lia)) as (kv' & Hkv' & Hkey'). congruence.
Qed.

(** [find] for a key of the snapshot emits the matching values, in some
    order. *)
Lemma find_matching key p values :
  key_at ix p key ->
  exists more,
    find ix key values = Some (values ++ more) /\ more ≡ₚ matching_values ix key.
Proof.
  intros Hkey. pose proof Hok as [_ _ Hsize _ _ _ _ _ _].
  destruct (run_exists key p Hkey) as (a & b & Ha & Hb & Hrun).
  destruct (find_present ix Hok key a b values ltac:(lia) ltac:(lia) Hrun)
    as (more & Hfind & Hperm & _).
  exists more. split; [done|].
  by rewrite (matching_values_run ix key a b) by (done || lia).
Qed.

End Runs.

End Matching.

(** * The pseudo-random generator *)

Module RandomFacts.
Import Random.

Lemma land_seed_mask z : Z.land z seed_mask = z `mod` 2 ^ 48.
Proof. change seed_mask with (Z.ones 48). by rewrite Z.land_ones. Qed.

(** The state after a draw: one step of the recurrence modulo 2^48. *)
Definition step (s : Z) : Z := (s * multiplier + increment) `mod` 2 ^ 48.

Lemma step_range s : 0 <= step s < 2 ^ 48.
Proof. unfold step. apply Z.mod_pos_bound. lia. Qed.

Lemma next_seed s :
  Z.land (to_ulong (to_ulong (s * multiplier) + increment)) seed_mask = step s.
Proof.
  rewrite land_seed_mask. unfold to_ulong, step.
  rewrite Zplus_mod_idemp_l.
  apply Z.mod_mod_divide. exists (2 ^ 16). reflexivity.
Qed.

Lemma next_bits_step bits r :
  0 <= bits <= 48 ->
  next_bits bits r
  = Some (step (seed_ r) / 2 ^ (48 - bits), {| seed_ := step (seed_ r) |}).
Proof.
  intros Hbits. unfold next_bits. rewrite next_seed.
  assert (to_uint (48 - bits) = 48 - bits) as ->.
  { unfold to_uint. apply Z.mod_small. lia. }
  rewrite bool_decide_eq_true_2 by lia.
  by rewrite Z.shiftr_div_pow2 by lia.
Qed.

Lemma next_bits_range bits r :
  0 <= bits <= 48 ->
  exists x r', next_bits bits r = Some (x, r')
    /\ 0 <= x < 2 ^ bits /\ seed_ r' = step (seed_ r).
Proof.
  intros Hbits. rewrite next_bits_step by done.
  eexists _, _. split; [done|]. split; [|done].
  pose proof (step_range (seed_ r)) as Hs.
  assert (0 < 2 ^ (48 - bits)) by (apply Z.pow_pos_nonneg; lia).
  assert (2 ^ 48 = 2 ^ bits * 2 ^ (48 - bits)) as Hpow.
  { rewrite <- Z.pow_add_r by lia. f_equal. lia. }
  split.
  - apply Z.div_pos; lia.
  - apply Z.div_lt_upper_bound; [lia|]. rewrite Z.mul_comm. lia.
Qed.

(** The multiplier is odd, so a step can be undone modulo 2^48. *)
Definition multiplier_inverse : Z := 0xDFE05BCB1365.

Lemma step_undo s :
  0 <= s < 2 ^ 48 -> ((step s - increment) * multiplier_inverse) `mod` 2 ^ 48 = s.
Proof.
  intros Hs. unfold step.
  rewrite <- Z.mul_mod_idemp_l by lia.
  rewrite Zminus_mod_idemp_l.
  replace (s * multiplier + increment - increment) with (s * multiplier) by lia.
  rewrite Z.mul_mod_idemp_l by lia.
  rewrite <- Z.mul_assoc, <- Z.mul_mod_idemp_r by lia.
  replace ((multiplier * multiplier_inverse) `mod` 2 ^ 48) with 1 by reflexivity.
  rewrite Z.mul_1_r. apply Z.mod_small. lia.
Qed.

Lemma step_inj s s' :
  0 <= s < 2 ^ 48 -> 0 <= s' < 2 ^ 48 -> step s = step s' -> s = s'.
Proof.
  intros Hs Hs' Heq.
  rewrite <- (step_undo s Hs), <- (step_undo s' Hs'). by rewrite Heq.
Qed.






(** The filling loop: every cell from [i] on is overwritten by a draw. *)
Lemma fill_string_spec {A} (draw : FastRandom -> option (A * FastRandom))
    (P : A -> Prop) :
  (forall r, exists c r', draw r = Some (c, r') /\ P c) ->
  forall n i s r,
    length s = (i + n)%nat -> Forall P (take i s) ->
    exists s' r', fill_string draw n i s r = Some (s', r')
      /\ length s' = length s /\ Forall P s'.
Proof.
  intros Hdraw. induction n as [|n IH]; intros i s r Hlen Hdone.
  - exists s, r. split; [done|]. split; [done|].
    by rewrite take_ge in Hdone by lia.
  - destruct (Hdraw r) as (c & r1 & Hc & HP).
    cbn [fill_string]. rewrite Hc. cbn [mbind option_bind].
    destruct (IH (S i) (<[i:=c]> s) r1) as (s' & r' & Hfill & Hlen' & HP').
    + rewrite length_insert. lia.
    + rewrite (take_S_r _ _ c) by (apply list_lookup_insert_eq; lia).
      rewrite take_insert_ge by lia.
      apply Forall_app. split; [done|]. by apply Forall_singleton.
    + exists s', r'. split; [done|]. split; [|done].
      by rewrite Hlen', length_insert.
Qed.

Lemma next_readable_char_spec r :
  exists c r', next_readable_char r = Some (c, r') /\ c ∈ take 64 readables.
Proof.
  destruct (next_bits_range 6 r ltac:(lia)) as (x & r1 & Hx & Hrange & _).
  unfold next_readable_char. rewrite Hx. cbn [mbind option_bind].
  destruct (lookup_lt_is_Some_2 readables (Z.to_nat x)) as [c Hc].
  { change (length readables) with 65%nat. lia. }
  exists c, r1. rewrite Hc. split; [done|].
  apply elem_of_take. exists (Z.to_nat x). split; [done | lia].
Qed.

(** [next()] returns from every state. *)
Lemma next_total r : exists x r', next r = Some (x, r') /\ 0 <= x < 2 ^ 64.
Proof.
  destruct (next_bits_range 32 r ltac:(lia)) as (hi & r1 & Hhi & _ & _).
  destruct (next_bits_range 32 r1 ltac:(lia)) as (lo & r2 & Hlo & _ & _).
  unfold next. rewrite Hhi. cbn [mbind option_bind]. rewrite Hlo.
  cbn [mbind option_bind]. eexists _, _. split; [done|].
  unfold to_ulong. apply Z.mod_pos_bound. lia.
Qed.

End RandomFacts.

(** * The key source of the benchmark *)

Module KeysFacts.
Import Random Keys.

Lemma to_ulong_id z : 0 <= z < 2 ^ 64 -> to_ulong z = z.
Proof. intros Hz. unfold to_ulong. by apply Z.mod_small. Qed.

(** [get_insert_key] in the sequential mode ([global_max_key == 0]). *)
Lemma get_insert_key_refill g b :
  global_max_key g = 0 -> local_curr_key_ b = local_max_key_ b ->
  0 <= global_curr_key g -> global_curr_key g + batch_key_count_ < 2 ^ 64 ->
  get_insert_key g b
  = Some (global_curr_key g,
          set_global_curr_key g (global_curr_key g + batch_key_count_),
          set_local_keys b (global_curr_key g + 1)
            (global_curr_key g + batch_key_count_)).
Proof.
  assert (batch_key_count_ = 1024) as Hbatch by reflexivity.
  intros Hmax Heq Hg Hsmall. unfold get_insert_key.
  rewrite Hmax, Heq, !Z.eqb_refl. cbn [local_curr_key_ local_max_key_ set_local_keys].
  rewrite !to_ulong_id by lia. done.
Qed.

Lemma get_insert_key_local g b :
  global_max_key g = 0 -> 0 <= local_curr_key_ b < local_max_key_ b ->
  local_max_key_ b < 2 ^ 64 ->
  get_insert_key g b
  = Some (local_curr_key_ b, g,
          set_local_keys b (local_curr_key_ b + 1) (local_max_key_ b)).
Proof.
  intros Hmax Hlt Hsmall. unfold get_insert_key.
  rewrite Hmax, Z.eqb_refl.
  destruct (Z.eqb_spec (local_curr_key_ b) (local_max_key_ b)) as [|_]; [lia|].
  by rewrite to_ulong_id by lia.
Qed.

(** One object alone draws consecutive keys. *)
Lemma load_keys_consecutive n : forall g b,
  global_max_key g = 0 ->
  local_max_key_ b = global_curr_key g ->
  0 <= local_curr_key_ b <= global_curr_key g ->
  global_curr_key g < local_curr_key_ b + batch_key_count_ ->
  (exists q, global_curr_key g = batch_key_count_ * q) ->
  local_curr_key_ b + Z.of_nat n + batch_key_count_ < 2 ^ 64 ->
  exists g' b',
    load_keys n g b = Some (seqZ (local_curr_key_ b) (Z.of_nat n), g', b')
    /\ global_max_key g' = 0
    /\ local_curr_key_ b' = local_curr_key_ b + Z.of_nat n
    /\ local_curr_key_ b' <= global_curr_key g' < local_curr_key_ b' + batch_key_count_
    /\ exists q, global_curr_key g' = batch_key_count_ * q.
Proof.
  assert (batch_key_count_ = 1024) as Hbatch by reflexivity.
  induction n as [|n IH]; intros g b Hmax Hlm Hlc Hnear Hdiv Hsmall.
  - exists g, b. rewrite seqZ_nil by lia. repeat split; (done || lia).
  - cbn [load_keys].
    destruct (decide (local_curr_key_ b = local_max_key_ b)) as [Heq | Hneq].
    + rewrite get_insert_key_refill by (done || lia).
      cbn [mbind option_bind].
      set (g1 := set_global_curr_key _ _). set (b1 := set_local_keys _ _ _).
      destruct (IH g1 b1) as (g' & b' & Hload & Hmax' & Hlc' & Hnear' & Hdiv');
        subst g1 b1; cbn [global_max_key global_curr_key local_curr_key_
          local_max_key_ set_global_curr_key set_local_keys] in *;
        try (done || lia).
      { destruct Hdiv as [q Hq]. exists (q + 1). lia. }
      exists g', b'. rewrite Hload. cbn [mbind option_bind].
      rewrite (seqZ_cons (local_curr_key_ b)) by lia.
      replace (Z.succ (local_curr_key_ b)) with (global_curr_key g + 1) by lia.
      replace (Z.pred (Z.of_nat (S n))) with (Z.of_nat n) by lia.
      replace (local_curr_key_ b) with (global_curr_key g) at 1 by lia.
      repeat split; (done || lia).
    + rewrite get_insert_key_local by (done || lia).
      cbn [mbind option_bind].
      set (b1 := set_local_keys _ _ _).
      destruct (IH g b1) as (g' & b' & Hload & Hmax' & Hlc' & Hnear' & Hdiv');
        subst b1; cbn [local_curr_key_ local_max_key_ set_local_keys] in *;
        try (done || lia).
      exists g', b'. rewrite Hload. cbn [mbind option_bind].
      rewrite (seqZ_cons (local_curr_key_ b)) by lia.
      replace (Z.succ (local_curr_key_ b)) with (local_curr_key_ b + 1) by lia.
      replace (Z.pred (Z.of_nat (S n))) with (Z.of_nat n) by lia.
      repeat split; (done || lia).
Qed.

(** A key is pending in an object when the object holds it in its batch
    and has not returned it yet. *)
Definition pending (b : BatchKeys) (x : Z) : Prop :=
  local_curr_key_ b <= x < local_max_key_ b.

(** The keys that can still be returned: the pending ones and those not
    yet fetched from the counter. *)
Definition unissued (g : Globals) (bs : list BatchKeys) (x : Z) : Prop :=
  global_curr_key g <= x \/ exists i b, bs !! i = Some b /\ pending b x.

Record batches_ok (g : Globals) (bs : list BatchKeys) : Prop := {
  ok_mode : global_max_key g = 0;
  ok_counter : 0 <= global_curr_key g;
  ok_local : forall i b, bs !! i = Some b ->
    local_curr_key_ b <= local_max_key_ b
    /\ (local_curr_key_ b < local_max_key_ b ->
        0 <= local_curr_key_ b /\ local_max_key_ b <= global_curr_key g);
  ok_disjoint : forall i j b b' x,
    bs !! i = Some b -> bs !! j = Some b' -> pending b x -> pending b' x -> i = j
}.

Lemma lookup_insert_cases (bs : list BatchKeys) i j b1 b' :
  <[i := b1]> bs !! j = Some b' ->
  (j = i /\ b' = b1) \/ (j <> i /\ bs !! j = Some b').
Proof.
  intros Hj. destruct (decide (i = j)) as [<-|Hne].
  - left. apply list_lookup_insert_Some in Hj as [(_ & -> & _) | (? & _)]; done.
  - right. by rewrite list_lookup_insert_ne in Hj.
Qed.

(** One call: the returned key was unissued before the call and is issued
    after it, and the call keeps the objects' batches apart. *)
Lemma get_insert_key_step g bs i b :
  batches_ok g bs -> bs !! i = Some b ->
  global_curr_key g + batch_key_count_ < 2 ^ 64 ->
  exists key g1 b1,
    get_insert_key g b = Some (key, g1, b1)
    /\ batches_ok g1 (<[i := b1]> bs)
    /\ global_curr_key g <= global_curr_key g1 <= global_curr_key g + batch_key_count_
    /\ unissued g bs key
    /\ ~ unissued g1 (<[i := b1]> bs) key
    /\ 0 <= key < global_curr_key g1
    /\ forall x, unissued g1 (<[i := b1]> bs) x -> unissued g bs x.
Proof.
  assert (batch_key_count_ = 1024) as Hbatch by reflexivity.
  intros [Hmode Hcounter Hlocal Hdisjoint] Hi Hsmall.
  destruct (Hlocal i b Hi) as [Hle Hin].
  destruct (decide (local_curr_key_ b = local_max_key_ b)) as [Heq | Hneq].
  - rewrite get_insert_key_refill by (done || lia).
    eexists _, _, _. split; [done|].
    cbn [global_curr_key set_global_curr_key].
    split; [|split; [lia|split; [by left|split; [|split; [lia|]]]]].
    + split; cbn [global_max_key global_curr_key set_global_curr_key]; [done | lia | |].
      * intros j b' [[-> ->] | [Hne Hj]]%lookup_insert_cases;
          cbn [local_curr_key_ local_max_key_ set_local_keys global_curr_key set_global_curr_key]; [lia|].
        destruct (Hlocal j b' Hj) as [? Hin']. split; [done|].
        intros Hlt. specialize (Hin' Hlt). lia.
      * intros j j' b' b'' x
          [[-> ->] | [Hne Hj]]%lookup_insert_cases
          [[-> ->] | [Hne' Hj']]%lookup_insert_cases; unfold pending;
          cbn [local_curr_key_ local_max_key_ set_local_keys global_curr_key set_global_curr_key]; intros Hx Hx';
          [done | | | by eapply Hdisjoint].
        -- destruct (Hlocal j' b'' Hj') as [_ Hin']. lia.
        -- destruct (Hlocal j b' Hj) as [_ Hin']. lia.
    + intros [Hge | (j & b' & [[-> ->] | [Hne Hj]]%lookup_insert_cases & Hx)];
        unfold pending in *; cbn [local_curr_key_ local_max_key_ set_local_keys global_curr_key set_global_curr_key] in *;
        [lia | lia |].
      destruct (Hlocal j b' Hj) as [_ Hin']. lia.
    + intros x [Hge | (j & b' & [[-> ->] | [Hne Hj]]%lookup_insert_cases & Hx)];
        unfold pending in *; cbn [local_curr_key_ local_max_key_ set_local_keys global_curr_key set_global_curr_key] in *.
      * left. lia.
      * left. lia.
      * right. by exists j, b'.
  - specialize (Hin ltac:(lia)).
    rewrite get_insert_key_local by (done || lia).
    eexists _, _, _. split; [done|].
    split; [|split; [lia|split; [|split; [|split; [lia|]]]]].
    + split; [done | done | |].
      * intros j b' [[-> ->] | [Hne Hj]]%lookup_insert_cases;
          cbn [local_curr_key_ local_max_key_ set_local_keys global_curr_key set_global_curr_key]; [lia|].
        by apply (Hlocal j).
      * intros j j' b' b'' x
          [[-> ->] | [Hne Hj]]%lookup_insert_cases
          [[-> ->] | [Hne' Hj']]%lookup_insert_cases; unfold pending;
          cbn [local_curr_key_ local_max_key_ set_local_keys global_curr_key set_global_curr_key]; intros Hx Hx';
          [done | | | by eapply Hdisjoint].
        -- apply (Hdisjoint i j' b b'' x); (done || unfold pending; lia).
        -- apply (Hdisjoint j i b' b x); (done || unfold pending; lia).
    + right. exists i, b. split; [done|]. unfold pending. lia.
    + intros [Hge | (j & b' & [[-> ->] | [Hne Hj]]%lookup_insert_cases & Hx)];
        unfold pending in *; cbn [local_curr_key_ local_max_key_ set_local_keys global_curr_key set_global_curr_key] in *;
        [lia | lia |].
      apply Hne. apply (Hdisjoint j i b' b (local_curr_key_ b)); (done || unfold pending; lia).
    + intros x [Hge | (j & b' & [[-> ->] | [Hne Hj]]%lookup_insert_cases & Hx)];
        unfold pending in *; cbn [local_curr_key_ local_max_key_ set_local_keys global_curr_key set_global_curr_key] in *.
      * by left.
      * right. exists i, b. split; [done|]. unfold pending. lia.
      * right. by exists j, b'.
Qed.

(** Interleaved calls never return a key twice. *)
Lemma run_schedule_spec schedule : forall g bs,
  batches_ok g bs ->
  Forall (fun i => (i < length bs)%nat) schedule ->
  global_curr_key g + batch_key_count_ * Z.of_nat (length schedule) < 2 ^ 64 ->
  exists keys g' bs',
    run_schedule schedule g bs = Some (keys, g', bs')
    /\ length keys = length schedule
    /\ NoDup keys
    /\ Forall (unissued g bs) keys
    /\ Forall (fun x => 0 <= x < global_curr_key g') keys
    /\ global_curr_key g <= global_curr_key g'.
Proof.
  assert (batch_key_count_ = 1024) as Hbatch by reflexivity.
  induction schedule as [|i schedule IH]; intros g bs Hok Hvalid Hsmall.
  - exists [], g, bs. repeat split; (done || constructor || lia).
  - apply Forall_cons in Hvalid as [Hi Hvalid]. cbn [length] in Hsmall.
    destruct (lookup_lt_is_Some_2 bs i Hi) as [b Hb].
    pose proof (ok_counter _ _ Hok) as Hcounter.
    destruct (get_insert_key_step g bs i b Hok Hb ltac:(lia))
      as (key & g1 & b1 & Hget & Hok1 & Hg1 & Hwas & Hnow & Hkey & Hmono).
    destruct (IH g1 (<[i := b1]> bs) Hok1) as
      (keys & g' & bs' & Hrun & Hlen & Hnodup & Hun & Hbelow & Hg').
    { by rewrite length_insert. }
    { lia. }
    exists (key :: keys), g', bs'. cbn [run_schedule].
    rewrite Hb. cbn [mbind option_bind]. rewrite Hget. cbn [mbind option_bind].
    rewrite Hrun. cbn [mbind option_bind].
    split; [done|]. split; [cbn [length]; lia|]. split; [|split; [|split]].
    + constructor; [|done]. intros Hin.
      apply Hnow. by apply (proj1 (Forall_forall _ _) Hun).
    + constructor; [done|]. eapply Forall_impl; [exact Hun | exact Hmono].
    + constructor; [lia | done].
    + lia.
Qed.

Lemma fresh_batches_ok g bs :
  global_max_key g = 0 -> 0 <= global_curr_key g ->
  Forall (fun b => local_curr_key_ b = local_max_key_ b) bs ->
  batches_ok g bs.
Proof.
  intros Hmode Hcounter Hfresh.
  assert (forall i b, bs !! i = Some b -> local_curr_key_ b = local_max_key_ b) as Hall.
  { intros i b Hb. by apply (proj1 (Forall_lookup _ _) Hfresh i). }
  split; [done | done | |].
  - intros i b Hb. specialize (Hall i b Hb). lia.
  - intros i j b b' x Hb _ Hx _. specialize (Hall i b Hb). unfold pending in Hx. lia.
Qed.

End KeysFacts.

(** * Further properties of the code *)

(** ** Point lookup, descent, construction and rebuild of the index *)

Module IndexProperties.
Import Layout Construct Lookup Index Rebuild Scenarios IndexFacts Layers Matching.

Lemma container_at_nat ix i : container_at ix (Z.of_nat i) = container_ ix !! i.
Proof.
  unfold container_at. rewrite bool_decide_eq_true_2 by lia. by rewrite Nat2Z.id.
Qed.

Lemma present_key_at ix key :
  Exists (fun kv => key_ kv = key) (container_ ix) -> exists p, key_at ix p key.
Proof.
  intros (kv & [i Hi]%list_elem_of_lookup & Hkey)%Exists_exists.
  exists (Z.of_nat i), kv. by rewrite container_at_nat.
Qed.


(** X1: in any state of the index, [find] that returns leaves the previous
    content of [values] in place and appends only values stored in the
    snapshot. *)
Theorem find_appends_snapshot_values ix key values out :
  find ix key values = Some out ->
  exists more, out = values ++ more /\ Forall (from_snapshot ix) more.
Proof. apply find_appends. Qed.

Lemma find_appends_snapshot_values_witness :
  exists more, [7; 4] = [7] ++ more /\ Forall (from_snapshot four_index) more.
Proof.
  apply (find_appends_snapshot_values four_index 35 [7] [7; 4]).
  vm_compute. reflexivity.
Defined.

(** X2: on a rebuilt index, [find] for a key that some entry of the
    snapshot carries appends the values of all entries with this key, each
    once, and nothing else; the order is the one of the code, not the one
    of the snapshot. *)
Theorem find_returns_matching_values ix key values :
  index_ok ix ->
  Exists (fun kv => key_ kv = key) (container_ ix) ->
  exists more,
    find ix key values = Some (values ++ more)
    /\ more ≡ₚ matching_values ix key.
Proof.
  intros Hok [p Hp]%present_key_at. by apply (find_matching ix Hok key p).
Qed.

Lemma find_returns_matching_values_witness :
  exists more,
    find S4_index 3 [] = Some ([] ++ more)
    /\ more ≡ₚ matching_values S4_index 3.
Proof.
  apply (find_returns_matching_values S4_index 3 []).
  - apply (reorganize_ok (table_of S4_keys) (new_index 2 2).2);
      [vm_compute; discriminate .. | exact S4_rebuilt].
  - apply (bool_decide_unpack _). vm_compute. exact I.
Defined.





(** X5: on a rebuilt index the cached range [key_min_ .. key_max_] brackets
    every key of the snapshot, so the early return of [find] for a key
    outside the range loses nothing: no entry carries such a key and
    [values] is left as it was. *)
Theorem find_outside_key_range ix key values :
  index_ok ix ->
  key < key_min_ ix \/ key_max_ ix < key ->
  find ix key values = Some values
  /\ Forall (fun kv => key_min_ ix <= key_ kv <= key_max_ ix /\ key_ kv <> key)
       (container_ ix).
Proof.
  intros Hok Hout. split.
  - unfold find. destruct (size_ ix =? 0); [done|].
    assert ((key_max_ ix <? key) || (key <? key_min_ ix) = true) as ->; [|done].
    apply orb_true_iff. destruct Hout; [right | left]; by apply Z.ltb_lt.
  - apply Forall_lookup. intros i kv Hi.
    pose proof (keys_in_range ix Hok (Z.of_nat i) kv) as Hrange.
    rewrite container_at_nat in Hrange. specialize (Hrange Hi). lia.
Qed.

Lemma find_outside_key_range_witness :
  find S3_index 5 [9] = Some [9]
  /\ Forall (fun kv => key_min_ S3_index <= key_ kv <= key_max_ S3_index /\ key_ kv <> 5)
       (container_ S3_index).
Proof.
  apply (find_outside_key_range S3_index 5 [9]).
  - apply (reorganize_ok (table_of ((fun x => 10 * x) <$> seqZ 1 20)) (new_index 2 4).2);
      [vm_compute; discriminate .. | vm_compute; reflexivity].
  - left. vm_compute. reflexivity.
Defined.





(** X8: [construct_inner_layers] over any snapshot, sorted or not, of [N]
    entries with [k >= 2], [L >= 1] and [k^L - 1 < N <= 2^30], started on
    the fresh array of [k^L - 1] cells, returns: no read of [container_]
    and no write of [inner_nodes_] is out of bounds, and every cell of the
    array ends up holding the key of some entry of the snapshot. *)
Theorem construct_inner_layers_fills_array ix :
  2 <= k_ ix -> size_ ix = Z.of_nat (length (container_ ix)) -> size_ ix <= 2 ^ 30 ->
  1 <= num_layers_ ix -> inner_node_size ix < size_ ix ->
  exists nodes,
    construct_inner_layers ix (replicate (Z.to_nat (inner_node_size ix)) None)
    = Some nodes
    /\ Z.of_nat (length nodes) = inner_node_size ix
    /\ forall j, 0 <= j < inner_node_size ix ->
         exists p kv, container_at ix p = Some kv /\ inner_at nodes j = Some (key_ kv).
Proof. apply construct_inner_layers_total. Qed.

(** An index object over an unsorted snapshot. *)
Definition unsorted_index : KAryIndex :=
  {| num_layers_ := 2; k_ := 2; size_ := 5;
     container_ := table_of [5; 1; 4; 2; 3];
     key_min_ := 0; key_max_ := 0; inner_nodes_ := [] |}.

Lemma construct_inner_layers_fills_array_witness :
  exists nodes,
    construct_inner_layers unsorted_index
      (replicate (Z.to_nat (inner_node_size unsorted_index)) None)
    = Some nodes
    /\ Z.of_nat (length nodes) = inner_node_size unsorted_index
    /\ forall j, 0 <= j < inner_node_size unsorted_index ->
         exists p kv,
           container_at unsorted_index p = Some kv
           /\ inner_at nodes j = Some (key_ kv).
Proof.
  apply (construct_inner_layers_fills_array unsorted_index).
  - vm_compute. discriminate.
  - reflexivity.
  - vm_compute. discriminate.
  - vm_compute. discriminate.
  - vm_compute. reflexivity.
Defined.

(** X9: [reorganize] with [k >= 2], [L >= 0] over a table of [N] tuples
    with [k^L - 1 < N <= 2^30] completes without an assertion failure and
    without a read or write out of bounds; it keeps [k_] and
    [num_layers_], and afterwards [key_min_ .. key_max_] brackets every
    key of the snapshot.  (The snapshot is the one that [base_reorganize]
    is specified to store.) *)
Theorem reorganize_completes_with_enough_tuples t ix0 :
  2 <= k_ ix0 -> 0 <= num_layers_ ix0 ->
  inner_node_size ix0 < size_approx t -> size_approx t <= 2 ^ 30 ->
  exists ix,
    reorganize t ix0 = Some (Completed, ix)
    /\ k_ ix = k_ ix0 /\ num_layers_ ix = num_layers_ ix0
    /\ size_ ix = size_approx t
    /\ Forall (fun kv => key_min_ ix <= key_ kv <= key_max_ ix) (container_ ix).
Proof.
  intros Hk HL Hfits Hsmall.
  destruct (reorganize_completes t ix0 Hk HL Hfits Hsmall) as [ix Hrun].
  exists ix. split; [done|].
  destruct (reorganize_keeps_config t ix0 ix Completed Hrun) as [Hk' HL'].
  split; [done|]. split; [done|].
  pose proof (reorganize_ok t ix0 ix Hk HL Hsmall Hrun) as Hok.
  split.
  - destruct (reorganize_completed t ix0 ix Hrun)
      as (_ & first & last & _ & _ & [[_ ->] | [_ (nodes & _ & ->)]]);
      cbn; unfold size_approx; by rewrite project_sorted_length.
  - apply Forall_lookup. intros i kv Hi.
    apply (keys_in_range ix Hok (Z.of_nat i) kv). by rewrite container_at_nat.
Qed.

Lemma reorganize_completes_with_enough_tuples_witness :
  exists ix,
    reorganize (table_of S4_keys) (new_index 2 2).2 = Some (Completed, ix)
    /\ k_ ix = k_ (new_index 2 2).2 /\ num_layers_ ix = num_layers_ (new_index 2 2).2
    /\ size_ ix = size_approx (table_of S4_keys)
    /\ Forall (fun kv => key_min_ ix <= key_ kv <= key_max_ ix) (container_ ix).
Proof.
  apply (reorganize_completes_with_enough_tuples (table_of S4_keys) (new_index 2 2).2).
  - vm_compute. discriminate.
  - vm_compute. discriminate.
  - vm_compute. reflexivity.
  - vm_compute. discriminate.
Defined.



End IndexProperties.

(** ** The pseudo-random generator *)

Module RandomProperties.
Import Random RandomFacts.

(** X11: [next(bits)] with [bits <= 48], from any state (also one installed
    by [set_seed] outside 48 bits), returns a value below [2^bits] and
    leaves a state below [2^48]. *)
Theorem next_bits_in_range bits r :
  0 <= bits <= 48 ->
  exists x r',
    next_bits bits r = Some (x, r')
    /\ 0 <= x < 2 ^ bits /\ 0 <= seed_ r' < 2 ^ 48.
Proof.
  intros Hbits.
  destruct (next_bits_range bits r Hbits) as (x & r' & Hnext & Hx & Hseed).
  exists x, r'. split; [done|]. split; [done|].
  rewrite Hseed. apply step_range.
Qed.

Lemma next_bits_in_range_witness :
  exists x r',
    next_bits 32 (set_seed (2 ^ 64 - 1)) = Some (x, r')
    /\ 0 <= x < 2 ^ 32 /\ 0 <= seed_ r' < 2 ^ 48.
Proof. apply (next_bits_in_range 32 (set_seed (2 ^ 64 - 1))). lia. Defined.

(** X12: the generator never merges two states: draws from two different
    states below [2^48] leave two different states, whatever the numbers
    of bits drawn. *)
Theorem next_bits_keeps_states_apart bits bits' r r' x x' r1 r1' :
  0 <= seed_ r < 2 ^ 48 -> 0 <= seed_ r' < 2 ^ 48 -> r <> r' ->
  next_bits bits r = Some (x, r1) -> next_bits bits' r' = Some (x', r1') ->
  r1 <> r1'.
Proof.
  intros Hr Hr' Hne Hnext Hnext' Heq. apply Hne.
  unfold next_bits in Hnext, Hnext'. rewrite next_seed in Hnext, Hnext'.
  repeat case_bool_decide; simplify_eq.
  destruct r as [s], r' as [s']. cbn [seed_] in *. f_equal.
  by apply step_inj.
Qed.

Lemma next_bits_keeps_states_apart_witness :
  {| seed_ := 205723924636679 |} <> {| seed_ := 205799569348430 |}.
Proof.
  apply (next_bits_keeps_states_apart 32 16 (new_random 1) (new_random 2)
           3139097971 47916).
  - vm_compute. split; [discriminate | reflexivity].
  - vm_compute. split; [discriminate | reflexivity].
  - vm_compute. discriminate.
  - vm_compute. reflexivity.
  - vm_compute. reflexivity.
Defined.



(** X14: [next_readable_string(len)] returns, from any state, a string of
    [len] characters; the index into [readables] is always below 64, so
    every character is one of the 64 readable ones and none is the
    terminating NUL of the array. *)
Theorem next_readable_string_is_readable len r :
  0 <= len ->
  exists s r',
    next_readable_string len r = Some (s, r')
    /\ Z.of_nat (length s) = len
    /\ Forall (fun c => c ∈ take 64 readables /\ c <> Ascii.zero) s.
Proof.
  intros Hlen. unfold next_readable_string.
  destruct (fill_string_spec next_readable_char
              (fun c => c ∈ take 64 readables /\ c <> Ascii.zero)) with
    (n := Z.to_nat len) (i := 0%nat)
    (s := replicate (Z.to_nat len) Ascii.zero) (r := r)
    as (s & r' & Hfill & Hlength & Hall).
  - intros r0. destruct (next_readable_char_spec r0) as (c & r1 & Hc & Hin).
    exists c, r1. split; [done|]. split; [done|].
    assert (forallb (fun c => negb (Ascii.eqb c Ascii.zero)) (take 64 readables)
            = true) as Hnonzero by (vm_compute; reflexivity).
    intros ->. apply list_elem_of_In in Hin.
    by apply (proj1 (forallb_forall _ _) Hnonzero) in Hin.
  - by rewrite length_replicate.
  - rewrite take_0. constructor.
  - exists s, r'. split; [done|]. split; [|done].
    rewrite Hlength, length_replicate. lia.
Qed.

Lemma next_readable_string_is_readable_witness :
  exists s r',
    next_readable_string 5 default_random = Some (s, r')
    /\ Z.of_nat (length s) = 5
    /\ Forall (fun c => c ∈ take 64 readables /\ c <> Ascii.zero) s.
Proof. apply (next_readable_string_is_readable 5 default_random). lia. Defined.

End RandomProperties.

(** ** The key source of the benchmark *)

Module KeysProperties.
Import Random RandomFacts Keys KeysFacts.

(** X15: the loading loop of [run_workload], started with both counters at
    zero in the sequential mode ([global_max_key == 0]), draws the keys
    [0, 1, ..., n - 1] in this order, and leaves [global_curr_key] at the
    least multiple of the batch size 1024 that is not below [n]. *)
Theorem load_keys_counts_from_zero (n : nat) g thread_id :
  global_max_key g = 0 -> global_curr_key g = 0 ->
  Z.of_nat n + 1024 < 2 ^ 64 ->
  exists g' b',
    load_keys n g (new_batch_keys thread_id)
    = Some (seqZ 0 (Z.of_nat n), g', b')
    /\ Z.of_nat n <= global_curr_key g' < Z.of_nat n + 1024
    /\ global_curr_key g' `mod` 1024 = 0.
Proof.
  intros Hmode Hzero Hsmall.
  assert (batch_key_count_ = 1024) as Hbatch by reflexivity.
  destruct (load_keys_consecutive n g (new_batch_keys thread_id))
    as (g' & b' & Hload & _ & Hlc & Hnear & [q Hq]);
    cbn [new_batch_keys local_curr_key_ local_max_key_] in *; try lia.
  { exists 0. lia. }
  exists g', b'. split; [done|]. split; [lia|].
  rewrite Hq, Hbatch, Z.mul_comm. apply Z_mod_mult.
Qed.

Lemma load_keys_counts_from_zero_witness :
  exists g' b',
    load_keys 3 {| global_curr_key := 0; global_max_key := 0 |} (new_batch_keys 0)
    = Some (seqZ 0 (Z.of_nat 3), g', b')
    /\ Z.of_nat 3 <= global_curr_key g' < Z.of_nat 3 + 1024
    /\ global_curr_key g' `mod` 1024 = 0.
Proof.
  apply (load_keys_counts_from_zero 3
           {| global_curr_key := 0; global_max_key := 0 |} 0).
  - reflexivity.
  - reflexivity.
  - vm_compute. reflexivity.
Defined.

(** X16: in the sequential mode, calls of [get_insert_key] on several
    objects that share [global_curr_key], interleaved in any order, never
    return the same key twice: every key lies between the value of the
    counter before the calls and its value after them, and no two of the
    returned keys are equal. *)
Theorem get_insert_key_never_repeats schedule g bs :
  global_max_key g = 0 -> 0 <= global_curr_key g ->
  Forall (fun b => local_curr_key_ b = local_max_key_ b) bs ->
  Forall (fun i => (i < length bs)%nat) schedule ->
  global_curr_key g + 1024 * Z.of_nat (length schedule) < 2 ^ 64 ->
  exists keys g' bs',
    run_schedule schedule g bs = Some (keys, g', bs')
    /\ length keys = length schedule
    /\ NoDup keys
    /\ Forall (fun x => global_curr_key g <= x < global_curr_key g') keys.
Proof.
  intros Hmode Hcounter Hfresh Hvalid Hsmall.
  destruct (run_schedule_spec schedule g bs) as
    (keys & g' & bs' & Hrun & Hlen & Hnodup & Hun & Hbelow & _); [| done | done |].
  { by apply fresh_batches_ok. }
  exists keys, g', bs'. split; [done|]. split; [done|]. split; [done|].
  apply Forall_forall. intros x Hx.
  pose proof (proj1 (Forall_forall _ _) Hbelow x Hx) as Hlt. cbn beta in Hlt.
  destruct (proj1 (Forall_forall _ _) Hun x Hx) as [Hge | (i & b & Hb & Hpending)];
    [lia|].
  pose proof (proj1 (Forall_lookup _ _) Hfresh i b Hb) as Hempty.
  unfold pending in Hpending. cbn beta in Hempty. lia.
Qed.

Lemma get_insert_key_never_repeats_witness :
  exists keys g' bs',
    run_schedule [0; 1; 0; 2; 1; 1]%nat
      {| global_curr_key := 0; global_max_key := 0 |}
      [new_batch_keys 0; new_batch_keys 1; new_batch_keys 2]
    = Some (keys, g', bs')
    /\ length keys = length [0; 1; 0; 2; 1; 1]%nat
    /\ NoDup keys
    /\ Forall (fun x => global_curr_key {| global_curr_key := 0; global_max_key := 0 |}
                        <= x < global_curr_key g') keys.
Proof.
  apply (get_insert_key_never_repeats [0; 1; 0; 2; 1; 1]%nat
           {| global_curr_key := 0; global_max_key := 0 |}
           [new_batch_keys 0; new_batch_keys 1; new_batch_keys 2]).
  - reflexivity.
  - vm_compute. discriminate.
  - apply (bool_decide_unpack _). vm_compute. exact I.
  - apply (bool_decide_unpack _). vm_compute. exact I.
  - vm_compute. reflexivity.
Defined.

(** X17: in the sequential mode, after the loading loop of [run_workload]
    has drawn [n >= 1] keys from zeroed counters, [get_random_key] on any
    object returns a key below [global_curr_key], which is below
    [n + 1024]; after a loading loop of no key the counter is still zero
    and [get_random_key] takes a remainder by zero. *)
Theorem get_random_key_after_loading (n : nat) g thread_id b :
  global_max_key g = 0 -> global_curr_key g = 0 ->
  Z.of_nat n + 1024 < 2 ^ 64 ->
  exists keys g' b0,
    load_keys n g (new_batch_keys thread_id) = Some (keys, g', b0)
    /\ (n = 0%nat -> get_random_key g' b = None)
    /\ ((1 <= n)%nat ->
        exists key b',
          get_random_key g' b = Some (key, b')
          /\ 0 <= key < global_curr_key g'
          /\ global_curr_key g' < Z.of_nat n + 1024).
Proof.
  intros Hmode Hzero Hsmall.
  assert (batch_key_count_ = 1024) as Hbatch by reflexivity.
  destruct (load_keys_consecutive n g (new_batch_keys thread_id))
    as (g' & b0 & Hload & Hmode' & Hlc & Hnear & _);
    cbn [new_batch_keys local_curr_key_ local_max_key_] in *; try lia.
  { exists 0. lia. }
  exists (seqZ 0 (Z.of_nat n)), g', b0. split; [done|].
  destruct (next_total (rand_gen_ b)) as (x & r & Hnext & Hx).
  unfold get_random_key. rewrite Hmode', Z.eqb_refl, Hnext. cbn [mbind option_bind].
  split.
  - intros ->. cbn [load_keys] in Hload. simplify_eq. by rewrite Hzero.
  - intros Hn. destruct (Z.eqb_spec (global_curr_key g') 0) as [|_]; [lia|].
    eexists _, _. split; [done|]. split; [|lia].
    apply Z.mod_pos_bound. lia.
Qed.

Lemma get_random_key_after_loading_witness :
  exists keys g' b0,
    load_keys 3 {| global_curr_key := 0; global_max_key := 0 |} (new_batch_keys 0)
    = Some (keys, g', b0)
    /\ (3%nat = 0%nat -> get_random_key g' (new_batch_keys 1) = None)
    /\ ((1 <= 3)%nat ->
        exists key b',
          get_random_key g' (new_batch_keys 1) = Some (key, b')
          /\ 0 <= key < global_curr_key g'
          /\ global_curr_key g' < Z.of_nat 3 + 1024).
Proof.
  apply (get_random_key_after_loading 3
           {| global_curr_key := 0; global_max_key := 0 |} 0 (new_batch_keys 1)).
  - reflexivity.
  - reflexivity.
  - vm_compute. reflexivity.
Defined.

End KeysProperties.

(** * Snapshots beyond the range of [int] *)

(** The member functions keep positions of the snapshot in [int] variables.
    The properties above are stated for snapshots of at most [2^30]
    entries; this part runs the code on two larger snapshots. *)

Module LargeSnapshots.
Import Layout Construct Lookup Index Rebuild.

(** *** The sorted projection of tables that are sorted already *)

Lemma insert_sorted_replicate a e m :
  key_ a <= key_ e -> insert_sorted e (replicate m a) = replicate m a ++ [e].
Proof.
  intros Hle. induction m as [|m IH]; [done|].
  cbn [replicate insert_sorted app].
  rewrite (proj2 (Z.ltb_ge (key_ e) (key_ a))) by lia.
  by rewrite IH.
Qed.

Lemma project_sorted_replicate a n : project_sorted (replicate n a) = replicate n a.
Proof.
  unfold project_sorted.
  assert (forall m,
            fold_left (fun acc e => insert_sorted e acc) (replicate n a) (replicate m a)
            = replicate (m + n) a) as Hgen.
  { induction n as [|n IH]; intros m; cbn [replicate fold_left].
    - by rewrite Nat.add_0_r.
    - rewrite insert_sorted_replicate by lia.
      rewrite <- replicate_S_end, (IH (S m)). f_equal. lia. }
  exact (Hgen 0%nat).
Qed.

Lemma project_sorted_replicate_last a b n :
  key_ a <= key_ b ->
  project_sorted (replicate n a ++ [b]) = replicate n a ++ [b].
Proof.
  intros Hle. unfold project_sorted. rewrite fold_left_app.
  fold (project_sorted (replicate n a)). rewrite project_sorted_replicate.
  cbn [fold_left]. by apply insert_sorted_replicate.
Qed.

(** [reorganize] once the snapshot and the two reads of the key range are
    known. *)
Lemma reorganize_runs t ix0 c first last :
  project_sorted t = c ->
  inner_node_size ix0 < Z.of_nat (length c) ->
  container_at (set_container ix0 c (Z.of_nat (length c))) 0 = Some first ->
  container_at (set_container ix0 c (Z.of_nat (length c)))
    (to_size_t (Z.of_nat (length c) - 1)) = Some last ->
  reorganize t ix0
  = let ix2 := set_key_range (set_container ix0 c (Z.of_nat (length c)))
                 (key_ first) (key_ last) in
    if negb (num_layers_ ix0 =? 0) then
      nodes ← construct_inner_layers ix2
                (replicate (Z.to_nat (inner_node_size ix0)) None);
      Some (Completed, set_inner_nodes ix2 nodes)
    else Some (Completed, set_inner_nodes ix2 []).
Proof.
  intros Hc Hfits Hfirst Hlast. unfold reorganize, base_reorganize, ASSERT.
  rewrite Hc.
  change (inner_node_size (set_container ix0 c (Z.of_nat (length c))))
    with (inner_node_size ix0).
  change (size_ (set_container ix0 c (Z.of_nat (length c))))
    with (Z.of_nat (length c)).
  rewrite (proj2 (Z.ltb_lt _ _) Hfits), Hfirst, Hlast.
  reflexivity.
Qed.

(** *** The binary search of [find] over [3 * 2^29] entries *)

(** An index without inner layers over any snapshot of [3 * 2^29] entries
    with the cached key range [0 .. 2]. *)
Definition flat_index (c : list KeyValuePair) : KAryIndex :=
  {| num_layers_ := 0; k_ := 2; size_ := 1610612736; container_ := c;
     key_min_ := 0; key_max_ := 2; inner_nodes_ := [] |}.

Lemma find_internal_step fuel ix key offset_begin offset_end :
  find_internal (S fuel) ix key offset_begin offset_end
  = if offset_end <? offset_begin then Some (size_ ix)
    else
      let offset_lookup := to_int (offset_begin + offset_end) `quot` 2 in
      kv ← container_at ix offset_lookup;
      if key =? key_ kv then Some (to_size_t offset_lookup)
      else if key_ kv <? key
           then find_internal fuel ix key (to_int (offset_lookup + 1)) offset_end
           else find_internal fuel ix key offset_begin (to_int (offset_lookup - 1)).
Proof. reflexivity. Qed.

(** The first probe of the binary search is position [805306368]; if its
    key is below the key looked for, the sum [805306369 + 1610612736] of
    the next probe leaves the range of [int], and [container_] is read at
    position [-939524095]. *)
Lemma find_internal_wraps c v fuel :
  c !! Z.to_nat 805306368 = Some {| key_ := 0; value_ := v |} ->
  find_internal (S (S fuel)) (flat_index c) 1 0 1610612736 = None.
Proof.
  intros Hc.
  assert (container_at (flat_index c) 805306368 = Some {| key_ := 0; value_ := v |})
    as Hmid.
  { unfold container_at. rewrite bool_decide_eq_true_2 by lia. exact Hc. }
  assert (container_at (flat_index c) (-939524095) = None) as Hout.
  { unfold container_at. by rewrite bool_decide_eq_false_2 by lia. }
  rewrite find_internal_step.
  change (1610612736 <? 0) with false. cbv iota zeta.
  change (to_int (0 + 1610612736) `quot` 2) with 805306368.
  rewrite Hmid. cbn [mbind option_bind key_].
  change (1 =? 0) with false. change (0 <? 1) with true. cbv iota.
  change (to_int (805306368 + 1)) with 805306369.
  rewrite find_internal_step.
  change (1610612736 <? 805306369) with false. cbv iota zeta.
  change (to_int (805306369 + 1610612736) `quot` 2) with (-939524095).
  by rewrite Hout.
Qed.

Lemma find_wraps c v :
  c !! Z.to_nat 805306368 = Some {| key_ := 0; value_ := v |} ->
  find (flat_index c) 1 [] = None.
Proof.
  intros Hc. unfold find.
  change (size_ (flat_index c) =? 0) with false.
  change ((key_max_ (flat_index c) <? 1) || (1 <? key_min_ (flat_index c))) with false.
  change (key_max_ (flat_index c) =? key_min_ (flat_index c)) with false.
  cbv iota.
  change (find_inner_layers (flat_index c) 1) with (Some (0, 1610612736)).
  cbn [mbind option_bind fst snd].
  change (0 =? 1610612736) with false. cbv iota.
  by rewrite (find_internal_wraps c v).
Qed.

(** *** The construction over [2^31 + 1] entries *)

Definition wide_index (c : list KeyValuePair) (kmin kmax : Z) : KAryIndex :=
  {| num_layers_ := 2; k_ := 2; size_ := 2147483649; container_ := c;
     key_min_ := kmin; key_max_ := kmax; inner_nodes_ := [] |}.

(** The root pivot is position [2^30] and the pivot of the first child is
    position [2^29 - 1]; the end [2^31] of the last child becomes [-2^31]
    in the [int] parameter, the range counts as empty and its cell is
    never written. *)
Lemma construct_wraps c kmin kmax a1 a2 :
  c !! Z.to_nat 1073741824 = Some a1 ->
  c !! Z.to_nat 536870911 = Some a2 ->
  construct_inner_layers (wide_index c kmin kmax) (replicate 3 None)
  = Some [Some (key_ a1); Some (key_ a2); None].
Proof.
  intros H1 H2.
  assert (container_at (wide_index c kmin kmax) 1073741824 = Some a1) as Hr1.
  { unfold container_at. rewrite bool_decide_eq_true_2 by lia. exact H1. }
  assert (container_at (wide_index c kmin kmax) 536870911 = Some a2) as Hr2.
  { unfold container_at. rewrite bool_decide_eq_true_2 by lia. exact H2. }
  unfold wide_index in *.
  lazy -[container_at] in Hr1, Hr2 |- *.
  rewrite Hr1. lazy -[container_at].
  rewrite Hr2. reflexivity.
Qed.

(** *** The two rebuilds *)

Definition low : KeyValuePair := {| key_ := 0; value_ := 0 |}.
Definition high : KeyValuePair := {| key_ := 2; value_ := 1 |}.

Section Tables.

Variable n : nat.

(** [reorganize] without layers over [n] tuples of key 0 followed by one
    tuple of key 2, [n + 1 = 3 * 2^29]: the rebuild completes, and [find]
    for the key 1 reads [container_] out of bounds. *)
Lemma flat_rebuild_then_find :
  Z.of_nat n = 1610612735 ->
  exists ix,
    reorganize (replicate n low ++ [high]) (new_index 0 2).2 = Some (Completed, ix)
    /\ k_ ix = 2 /\ num_layers_ ix = 0 /\ size_ ix = 3 * 2 ^ 29
    /\ container_ ix = replicate n low ++ [high]
    /\ key_min_ ix = 0 /\ key_max_ ix = 2
    /\ find ix 1 [] = None.
Proof.
  intros Hn.
  set (c := replicate n low ++ [high]).
  assert (Z.of_nat (length c) = 1610612736) as Hlen.
  { unfold c. rewrite length_app, length_replicate. cbn [length]. lia. }
  assert (c !! 0%nat = Some low) as Hfirst.
  { unfold c. rewrite lookup_app_l by (rewrite length_replicate; lia).
    apply lookup_replicate_2. lia. }
  assert (c !! n = Some high) as Hlast.
  { unfold c. apply list_lookup_middle. by rewrite length_replicate. }
  assert (c !! Z.to_nat 805306368 = Some low) as Hmid.
  { unfold c. rewrite lookup_app_l by (rewrite length_replicate; lia).
    apply lookup_replicate_2. lia. }
  rewrite (reorganize_runs _ _ c low high).
  - rewrite Hlen. eexists. split; [reflexivity|].
    repeat (split; [reflexivity|]).
    exact (find_wraps c 0 Hmid).
  - unfold c. by apply project_sorted_replicate_last.
  - rewrite Hlen. reflexivity.
  - unfold container_at. rewrite bool_decide_eq_true_2 by lia. exact Hfirst.
  - rewrite Hlen. unfold container_at.
    rewrite to_size_t_id by lia. rewrite bool_decide_eq_true_2 by lia.
    cbn [container_ set_container].
    replace (Z.to_nat (1610612736 - 1)) with n by lia. exact Hlast.
Qed.

(** [reorganize] with [k = 2] and [L = 2] over [n = 2^31 + 1] tuples of
    one key: the rebuild completes and leaves cell 2 of the inner-node
    array unwritten. *)
Lemma wide_rebuild_leaves_cell :
  Z.of_nat n = 2147483649 ->
  exists ix,
    reorganize (replicate n low) (new_index 2 2).2 = Some (Completed, ix)
    /\ k_ ix = 2 /\ num_layers_ ix = 2 /\ size_ ix = 2 ^ 31 + 1
    /\ container_ ix = replicate n low
    /\ inner_nodes_ ix = [Some 0; Some 0; None].
Proof.
  intros Hn.
  set (c := replicate n low).
  assert (Z.of_nat (length c) = 2147483649) as Hlen.
  { unfold c. rewrite length_replicate. lia. }
  assert (forall i, (i < n)%nat -> c !! i = Some low) as Hat.
  { intros i Hi. unfold c. by apply lookup_replicate_2. }
  rewrite (reorganize_runs _ _ c low low).
  - rewrite Hlen.
    change (negb (num_layers_ (new_index 2 2).2 =? 0)) with true. cbv iota zeta.
    change (Z.to_nat (inner_node_size (new_index 2 2).2)) with 3%nat.
    change (set_key_range (set_container (new_index 2 2).2 c 2147483649)
              (key_ low) (key_ low)) with (wide_index c 0 0).
    rewrite (construct_wraps c 0 0 low low) by (apply Hat; lia).
    eexists. split; [reflexivity|].
    repeat (split; [reflexivity|]). reflexivity.
  - apply project_sorted_replicate.
  - rewrite Hlen. reflexivity.
  - unfold container_at. rewrite bool_decide_eq_true_2 by lia. apply Hat. lia.
  - rewrite Hlen. unfold container_at.
    rewrite to_size_t_id by lia. rewrite bool_decide_eq_true_2 by lia.
    apply Hat. lia.
Qed.

End Tables.

(** C10, as stated, fails beyond the range of [int]: [reorganize] with
    [k = 2] and [L = 0] over [3 * 2^29] tuples, sorted by key, completes
    ([k >= 2], [k^L - 1 = 0 < N], [N >= 1]); [find] for the key 1, which
    lies between [key_min_ = 0] and [key_max_ = 2], probes position
    [805306368] and then computes [(805306369 + 1610612736) / 2] in [int]:
    the sum wraps around and [container_] is read at position
    [-939524095]. *)
Lemma find_reads_out_of_bounds :
  exists ix,
    reorganize (replicate (Z.to_nat (3 * 2 ^ 29 - 1)) low ++ [high]) (new_index 0 2).2
    = Some (Completed, ix)
    /\ k_ ix = 2 /\ num_layers_ ix = 0 /\ size_ ix = 3 * 2 ^ 29
    /\ container_ ix = replicate (Z.to_nat (3 * 2 ^ 29 - 1)) low ++ [high]
    /\ key_min_ ix = 0 /\ key_max_ ix = 2
    /\ find ix 1 [] = None.
Proof. apply flat_rebuild_then_find. lia. Qed.

(** C5, as stated, fails beyond the range of [int]: [reorganize] with
    [k = 2] and [L = 2] over [2^31 + 1] tuples completes
    ([k^L - 1 = 3 < N]), but the end [2^31] of the last child range of the
    root becomes [-2^31] in the [int] parameter of
    [construct_inner_layers_internal], the range counts as empty, and
    cell 2 of the inner-node array, for which section 4.3 gives the
    position [1610612736], is left unwritten. *)
Lemma reorganize_leaves_cell_unwritten :
  exists ix,
    reorganize (replicate (Z.to_nat (2 ^ 31 + 1)) low) (new_index 2 2).2
    = Some (Completed, ix)
    /\ k_ ix = 2 /\ num_layers_ ix = 2 /\ size_ ix = 2 ^ 31 + 1
    /\ Partition.position (k_ ix) (num_layers_ ix) (size_ ix) 2 = Some 1610612736
    /\ inner_at (inner_nodes_ ix) 2 = None.
Proof.
  destruct (wide_rebuild_leaves_cell (Z.to_nat (2 ^ 31 + 1)) ltac:(lia))
    as (ix & Hrun & Hk & HL & Hsize & _ & Hnodes).
  exists ix. split; [exact Hrun|].
  split; [exact Hk|]. split; [exact HL|]. split; [exact Hsize|].
  rewrite Hk, HL, Hsize, Hnodes. split; vm_compute; reflexivity.
Qed.

End LargeSnapshots.
